(** * rubot: the course-code parser, the action-row helper, the collectors
      and the slash-command handler

    A shallow embedding of
    - [parseCourseSubjCode] and [run] (src/commands/general/Help.ts, class
      GetOverallEnroll),
    - the namespace [AdvancedCollector] (the collector utility),
    - [slashCommandHandler] and [onInteractionEvent]
      (src/events/InteractionEvent.ts),
    - [run] of the commands "overallplot" and "lookupcached"
      (src/commands/enroll-data) and of the command "help"
      (src/commands/general/Help.ts),
    with the properties the specification states about them, and further
    properties of the code.

    The strings of the parser and of the enrollment commands are sequences
    of UTF-16 code units.  [String.prototype.trim] is modelled in full;
    [String.prototype.toUpperCase] maps the ASCII letters itself and takes
    the rest of the upper-case table of Unicode as a parameter, of which the
    theorems on upper case assume the facts of [CaseMappingFacts].

    The first part of the file holds the definitions, the second part the
    lemmas and theorems. *)

From Stdlib Require Import Ascii String ZArith Lia.
From stdpp Require Import base list strings gmap pretty.
From Equations Require Import Equations.

(** * Part I: definitions *)

Module JSString.

(** A JavaScript string is a sequence of 16-bit code units (UTF-16). *)
Definition code_units := list N.

(** A string literal of the source; its characters are in the ASCII range. *)
Definition lit (s : string) : code_units := N_of_ascii <$> list_ascii_of_string s.

(** [a === b] on two sequences of code units. *)
Definition sameUnits (a b : code_units) : bool := bool_decide (a = b).

(** White space and line terminators, which [String.prototype.trim] removes:
    TAB, LF, VT, FF, CR, SP, NBSP, the other space separators (the category
    Zs: U+1680, U+2000 to U+200A, U+202F, U+205F, U+3000), the line and
    paragraph separators U+2028 and U+2029, and U+FEFF.  All of them are
    single code units. *)
Definition isWhiteSpace (c : N) : bool :=
  ((0x9 <=? c) && (c <=? 0xD) || (c =? 0x20) || (c =? 0xA0) || (c =? 0x1680)
   || (0x2000 <=? c) && (c <=? 0x200A) || (c =? 0x2028) || (c =? 0x2029)
   || (c =? 0x202F) || (c =? 0x205F) || (c =? 0x3000) || (c =? 0xFEFF))%N.

Fixpoint trimStart (s : code_units) : code_units :=
  match s with
  | c :: s' => if isWhiteSpace c then trimStart s' else s
  | [] => []
  end.

Definition trimEnd (s : code_units) : code_units := reverse (trimStart (reverse s)).

Definition trim (s : code_units) : code_units := trimEnd (trimStart s).

(** The two halves of a surrogate pair, which stands for one code point
    above U+FFFF. *)
Definition isHighSurrogate (c : N) : bool := ((0xD800 <=? c) && (c <=? 0xDBFF))%N.
Definition isLowSurrogate (c : N) : bool := ((0xDC00 <=? c) && (c <=? 0xDFFF))%N.
Definition isSurrogate (c : N) : bool := isHighSurrogate c || isLowSurrogate c.

(** The decimal digits of the ASCII range. *)
Definition isASCIIDigit (c : N) : bool := ((0x30 <=? c) && (c <=? 0x39))%N.

(** The upper-case mappings of the Unicode Character Database (UnicodeData
    and SpecialCasing, without the mappings that depend on the language) for
    the code points outside the ASCII range, in code units: [upperBMP] for a
    code point below U+10000, which is one code unit and may become several
    (U+00DF becomes "SS"), [upperAstral] for a code point that is a surrogate
    pair, whose upper case is one such code point again.  The table is not
    part of the program. *)
Class CaseMapping := {
  upperBMP : N → list N;
  upperAstral : N → N → N * N
}.

(** Upper case in the ASCII range: the letters a to z. *)
Definition toUpperCaseASCII (c : N) : N :=
  if ((0x61 <=? c) && (c <=? 0x7A))%N then (c - 0x20)%N else c.

(** Upper case of a code unit that is not half of a surrogate pair. *)
Definition toUpperCaseUnit `{M : CaseMapping} (c : N) : list N :=
  if (c <? 0x80)%N then [toUpperCaseASCII c] else upperBMP c.

(** [String.prototype.toUpperCase]: the code points of the string, which are
    its surrogate pairs and its other code units, are mapped one by one. *)
Fixpoint toUpperCase `{M : CaseMapping} (s : code_units) : code_units :=
  match s with
  | [] => []
  | c :: rest =>
      match rest with
      | l :: rest' =>
          if isHighSurrogate c && isLowSurrogate l
          then (upperAstral c l).1 :: (upperAstral c l).2 :: toUpperCase rest'
          else toUpperCaseUnit c ++ toUpperCase rest
      | [] => toUpperCaseUnit c ++ toUpperCase rest
      end
  end.

(** A string that starts with the second half of a surrogate pair, and one
    that ends with the first half: joined, the two halves are one code
    point. *)
Definition startsLow (s : code_units) : bool :=
  match s with l :: _ => isLowSurrogate l | [] => false end.

Definition endsHigh (s : code_units) : bool :=
  match last s with Some h => isHighSurrogate h | None => false end.

(** What the proofs use of the table. *)
Record CaseMappingFacts `{M : CaseMapping} : Prop := {
  (** White space and a surrogate that is not part of a pair have no other
      upper case. *)
  upperBMP_caseless c :
    (0x80 ≤ c)%N → isWhiteSpace c || isSurrogate c = true → upperBMP c = [c];
  (** The upper case of another code point is not empty, and each of its code
      units is neither white space, nor a surrogate, nor a digit, and is its
      own upper case. *)
  upperBMP_cased c :
    (0x80 ≤ c)%N → isWhiteSpace c || isSurrogate c = false →
    upperBMP c ≠ [] ∧
    Forall (λ u, isWhiteSpace u = false ∧ isSurrogate u = false ∧
                 isASCIIDigit u = false ∧ toUpperCaseUnit u = [u]) (upperBMP c);
  (** The upper case of a surrogate pair is a surrogate pair, which is its
      own upper case. *)
  upperAstral_pair h l :
    isHighSurrogate h = true → isLowSurrogate l = true →
    isHighSurrogate (upperAstral h l).1 = true ∧
    isLowSurrogate (upperAstral h l).2 = true ∧
    upperAstral (upperAstral h l).1 (upperAstral h l).2 = upperAstral h l
}.
Global Arguments CaseMappingFacts : clear implicits.

(** A part of the table: the letters of Latin-1 and the Deseret alphabet;
    every other code point is its own upper case. *)
Definition sampleUpperBMP (c : N) : list N :=
  if (c =? 0xDF)%N then [0x53; 0x53]%N
  else if (c =? 0xFF)%N then [0x178%N]
  else if ((0xE0 <=? c) && (c <=? 0xFE) && negb (c =? 0xF7))%N then [(c - 0x20)%N]
  else [c].

Definition sampleUpperAstral (h l : N) : N * N :=
  if ((h =? 0xD801) && (0xDC28 <=? l) && (l <=? 0xDC4F))%N then (h, (l - 0x28)%N)
  else (h, l).

Definition sampleCaseMapping : CaseMapping :=
  {| upperBMP := sampleUpperBMP; upperAstral := sampleUpperAstral |}.

(** The strings of the collectors and of the command handler, which the code
    only compares and joins, are of type [string]. *)

(** [String.prototype.toLowerCase], one code unit at a time. *)
Definition toLowerCaseChar (c : ascii) : ascii :=
  let n := nat_of_ascii c in
  if (65 <=? n)%nat && (n <=? 90)%nat then ascii_of_nat (n + 32) else c.

Definition toLowerCase (s : string) : string :=
  string_of_list_ascii (toLowerCaseChar <$> list_ascii_of_string s).

(** [a === b] on strings. *)
Definition strictEquals (a b : string) : bool := String.eqb a b.

(** Truthiness of a value that is a string or [null]: [null] and the empty
    string are falsy. *)
Definition truthy (o : option string) : bool :=
  match o with
  | Some s => negb (String.eqb s "")
  | None => false
  end.

End JSString.

Module GetOverallEnroll.
Import JSString.

(** [/^\d+$/.test(c)] on a string [c] of one code unit: without the flag
    [u], the class [\d] is the digits 0 to 9. *)
Definition isDigit (c : N) : bool := isASCIIDigit c.

(** [c === " "]. *)
Definition isSpace (c : N) : bool := (c =? 0x20)%N.

(** First loop of [parseCourseSubjCode]: [code] is what is left of the
    input from index [i] on, [s] the accumulator.  The result is the
    accumulator and what is left of the input when the loop ends. *)
Fixpoint subjLoop (code : code_units) (s : code_units) : code_units * code_units :=
  match code with
  | [] => (s, [])
  | c :: rest =>
      if isDigit c then (s, code)                 (* break *)
      else if isSpace c then subjLoop rest s      (* continue *)
      else subjLoop rest (s ++ [c])
  end.

(** Second loop: the rest of the input is appended as it is. *)
Fixpoint restLoop (code : code_units) (s : code_units) : code_units :=
  match code with
  | [] => s
  | c :: rest => restLoop rest (s ++ [c])
  end.

Definition parseCourseSubjCode `{M : CaseMapping} (code : code_units) : code_units :=
  let '(s, rest) := subjLoop code [] in
  let s := s ++ lit " " in
  let s := restLoop rest s in
  trim (toUpperCase s).

Definition clean (s : code_units) : Prop :=
  Forall (λ c, isDigit c = false ∧ isSpace c = false) s.

(** [s.toUpperCase() === s]. *)
Definition upper `{M : CaseMapping} (s : code_units) : Prop := toUpperCase s = s.

(** The shapes a result of [parseCourseSubjCode] can have. *)
Inductive normal `{M : CaseMapping} : code_units → Prop :=
| normal_subject a :
    clean a → upper a → trim a = a → normal a
| normal_number d e :
    isDigit d = true → upper (d :: e) → trimEnd e = e → normal (d :: e)
| normal_both a d e :
    clean a → a ≠ [] → trimStart a = a → isDigit d = true →
    upper (a ++ 0x20%N :: d :: e) → trimEnd e = e →
    normal (a ++ 0x20%N :: d :: e).

(** ** The command [GetOverallEnroll] of Help.ts *)

(** An entry of the listing of the enrollment charts. *)
Record IGitContent := { name : code_units; download_url : code_units }.

(** [s.replace(pattern, "...")] with a string as pattern and the empty string
    as replacement: the first occurrence of the pattern is left out. *)
Fixpoint removeFirst (pattern s : code_units) : code_units :=
  if bool_decide (pattern `prefix_of` s) then drop (length pattern) s
  else match s with
       | [] => []
       | c :: s' => c :: removeFirst pattern s'
       end.

(** [x.name.replace(".png", "...")], the replacement being empty. *)
Definition withoutPng (x : IGitContent) : code_units :=
  removeFirst (lit ".png") (name x).

(** The argument of [ctx.interaction.reply]. *)
Record InteractionReplyOptions := {
  content : code_units;
  ephemeral : bool;
  files : list code_units
}.

(** [run] of lines 180-211: the number it returns and the replies it sends.
    [term] and [code] are the two required options of the interaction. *)
Definition run `{M : CaseMapping} (OVERALL_ENROLL : gmap code_units (list IGitContent))
    (term code : code_units) : Z * list InteractionReplyOptions :=
  match OVERALL_ENROLL !! term with
  | None =>
      ((-1)%Z,
       [{| content := lit "The term, **`" ++ term ++ lit "`**, could not be found. Try again.";
           ephemeral := true; files := [] |}])
  | Some arr =>
      let parsedCode := parseCourseSubjCode code in
      match List.find (λ x, sameUnits (withoutPng x) parsedCode) arr with
      | None =>
          ((-1)%Z,
           [{| content := lit "The course, **`" ++ parsedCode ++ lit "`**, (term **`" ++ term
                          ++ lit "`**) could not be found. Try again.";
               ephemeral := true; files := [] |}])
      | Some res =>
          (0%Z,
           [{| content := lit "Course **`" ++ parsedCode ++ lit "`** (Term **`" ++ term
                          ++ lit "`**)";
               ephemeral := false; files := [download_url res] |}])
      end
  end.

(** A chart stored under the name of a parsed course code. *)
Definition chartOf (parsedCode url : code_units) : IGitContent :=
  {| name := parsedCode ++ lit ".png"; download_url := url |}.

End GetOverallEnroll.

Module AdvancedCollector.

Inductive ComponentType := ACTION_ROW | BUTTON | SELECT_MENU.
#[global] Instance ComponentType_eq_dec : EqDecision ComponentType.
Proof. solve_decision. Defined.

Record BaseMessageComponent := { type : ComponentType; customId : string }.

Record MessageActionRow := { components : list BaseMessageComponent }.

Definition newMessageActionRow : MessageActionRow := {| components := [] |}.
Definition addComponents (r : MessageActionRow) (c : BaseMessageComponent) : MessageActionRow :=
  {| components := components r ++ [c] |}.

Definition MAX_ACTION_ROWS : nat := 5.

Equations? selectMenuLoop (selectMenus : list BaseMessageComponent) (i : nat)
    (rows : list MessageActionRow) (rowsUsed : nat)
  : option (list MessageActionRow * nat)
  by wf (Nat.min (length selectMenus) MAX_ACTION_ROWS - i) lt :=
  selectMenuLoop selectMenus i rows rowsUsed
    with decide (i < Nat.min (length selectMenus) MAX_ACTION_ROWS) := {
    | left _ with selectMenus !! i := {
      | Some c := selectMenuLoop selectMenus (S i)
                    (rows ++ [addComponents newMessageActionRow c]) (S rowsUsed);
      | None := None };
    | right _ := Some (rows, rowsUsed) }.
Proof. lia. Qed.

Equations? buttonRowLoop (buttons : list BaseMessageComponent) (i j : nat)
    (actionRow : MessageActionRow) : option MessageActionRow
  by wf (5 - j) lt :=
  buttonRowLoop buttons i j actionRow
    with decide (j < 5 ∧ i + j < length buttons) := {
    | left _ with buttons !! (i + j) := {
      | Some b := buttonRowLoop buttons i (S j) (addComponents actionRow b);
      | None := None };
    | right _ := Some actionRow }.
Proof. lia. Qed.

Equations? buttonLoop (buttons : list BaseMessageComponent) (rowsUsed i : nat)
    (rows : list MessageActionRow) : option (list MessageActionRow)
  by wf (Nat.min (length buttons) (5 * (MAX_ACTION_ROWS - rowsUsed)) - i) lt :=
  buttonLoop buttons rowsUsed i rows
    with decide (i < Nat.min (length buttons) (5 * (MAX_ACTION_ROWS - rowsUsed))) := {
    | left _ with buttonRowLoop buttons i 0 newMessageActionRow := {
      | Some actionRow := buttonLoop buttons rowsUsed (i + 5) (rows ++ [actionRow]);
      | None := None };
    | right _ := Some rows }.
Proof. lia. Qed.

Definition getActionRowsFromComponents (options : list BaseMessageComponent)
  : option (list MessageActionRow) :=
  let selectMenus := filter (λ x, type x = SELECT_MENU) options in
  '(rows, rowsUsed) ← selectMenuLoop selectMenus 0 [] 0;
  let buttons := filter (λ x, type x = BUTTON) options in
  buttonLoop buttons rowsUsed 0 rows.

Definition singleRow (c : BaseMessageComponent) : MessageActionRow :=
  {| components := [c] |}.

Fixpoint chunks (k : nat) (l : list BaseMessageComponent) : list MessageActionRow :=
  match k, l with
  | 0, _ | _, [] => []
  | S k', _ => {| components := take 5 l |} :: chunks k' (drop 5 l)
  end.

(** ** The collectors *)

Import JSString.

(** A message a user sends in the target channel. *)
Record Message := {
  author : string;          (* m.author.id *)
  content : string;         (* m.content *)
  deleteFails : bool        (* whether m.delete() rejects *)
}.

(** The message the collector sends, or the old message it is given. *)
Record BotMessage := {
  deletable : bool;
  editable : bool;
  botDeleteFails : bool;    (* whether botMsg.delete() rejects *)
  botEditFails : bool       (* whether botMsg.edit(...) rejects *)
}.

(** A click on a component. *)
Record MessageComponentInteraction := {
  interactionUser : string;     (* i.user.id *)
  interactionCustomId : string; (* i.customId *)
  deferUpdateFails : bool       (* whether i.deferUpdate() rejects *)
}.

(** ICollectorBaseArgument, IInteractionBase and IMessageCollectorArgument in
    one record; [targetAuthor] is the identifier of the target author.  The
    target channel is the source of the events below, and the duration is the
    time after which the timers of the collectors fire. *)
Record Options := {
  targetAuthor : string;
  msgOptions : option string;
  oldMsg : option BotMessage;
  deleteBaseMsgAfterComplete : bool;
  acknowledgeImmediately : bool;
  clearInteractionsAfterComplete : bool;
  cancelFlag : option string;
  deleteResponseMessage : bool
}.

(** How an awaited call ends. *)
Inductive Settled (A : Type) :=
| Fulfilled (a : A)
| Rejected.
Arguments Fulfilled {A} a.
Arguments Rejected {A}.

(** Modelled from the spec: [GeneralUtilities.tryExecuteAsync] is not among
    the sources.  An error thrown by the function it is given is swallowed
    and the result is [null]. *)
Definition tryExecuteAsync {A : Type} (f : Settled A) : option A :=
  match f with
  | Fulfilled a => Some a
  | Rejected => None
  end.

(** [send] is how [options.targetChannel.send(options.msgOptions)] ends. *)
Definition initSendCollectorMessage (options : Options) (send : Settled BotMessage)
  : option BotMessage :=
  match msgOptions options with
  | Some _ => tryExecuteAsync send
  | None =>
      match oldMsg options with
      | Some m => Some m
      | None => None
      end
  end.

(** The calls a collector makes on the messages and interactions. *)
Inductive Call :=
| DeleteResponse (c : Message)                   (* c.delete() *)
| DeleteBase                                     (* botMsg.delete() *)
| ClearComponents                                (* botMsg.edit(... []) *)
| DeferUpdate (i : MessageComponentInteraction)  (* i.deferUpdate() *)
| Extract (c : Message).                         (* func(c) *)

(** Why a collector of discord.js ends: its time is over, [stop()] was
    called, or it has collected [max] items. *)
Inductive EndReason := time | user | limit.

#[global] Instance EndReason_eq_dec : EqDecision EndReason.
Proof. solve_decision. Defined.

(** [cancelFlag && cancelFlag.toLowerCase() === c.content.toLowerCase()] *)
Definition isCancel (options : Options) (c : Message) : bool :=
  truthy (cancelFlag options) &&
  match cancelFlag options with
  | Some flag => strictEquals (toLowerCase flag) (toLowerCase (content c))
  | None => false
  end.

(** [awaitMessageComponent({filter, time})]: the first of the interactions
    that come in before the time is over and pass the filter; when there is
    none the promise is rejected. *)
Definition awaitMessageComponent (filter : MessageComponentInteraction → bool)
    (incoming : list MessageComponentInteraction) : Settled MessageComponentInteraction :=
  match List.find filter incoming with
  | Some i => Fulfilled i
  | None => Rejected
  end.

(** [startInteractionEphemeralCollector]: an error of [deferUpdate] is caught
    after [returnInteraction] has been assigned. *)
Definition startInteractionEphemeralCollector (options : Options) (uniqueIdentifier : string)
    (incoming : list MessageComponentInteraction)
  : option MessageComponentInteraction * list Call :=
  match awaitMessageComponent
          (λ i, strictEquals (interactionUser i) (targetAuthor options)
                && String.prefix uniqueIdentifier (interactionCustomId i))
          incoming with
  | Fulfilled i =>
      (Some i, if acknowledgeImmediately options then [DeferUpdate i] else [])
  | Rejected => (None, [])
  end.

(** [startInteractionCollector].  The result is [Rejected] when the function
    throws: the [finally] block awaits [botMsg.delete().catch()] or
    [botMsg.edit(...).catch()], and [catch()] without a handler passes a
    rejection on. *)
Definition startInteractionCollector (options : Options) (send : Settled BotMessage)
    (incoming : list MessageComponentInteraction)
  : Settled (option MessageComponentInteraction) * list Call :=
  match initSendCollectorMessage options send with
  | None => (Fulfilled None, [])
  | Some botMsg =>
      let '(returnInteraction, calls) :=
        match awaitMessageComponent
                (λ i, strictEquals (interactionUser i) (targetAuthor options)) incoming with
        | Fulfilled i =>
            (Some i, if acknowledgeImmediately options then [DeferUpdate i] else [])
        | Rejected => (None, [])
        end in
      if deleteBaseMsgAfterComplete options then
        (if botDeleteFails botMsg then Rejected else Fulfilled returnInteraction,
         calls ++ [DeleteBase])
      else if clearInteractionsAfterComplete options && editable botMsg then
        (if botEditFails botMsg then Rejected else Fulfilled returnInteraction,
         calls ++ [ClearComponents])
      else (Fulfilled returnInteraction, calls)
  end.

Section EventDriven.

(** What the extractor [func] yields, and which of its values are truthy. *)
Context {T : Type}.
Variable truthyValue : T → bool.

(** What the promise of a collector is resolved with. *)
Inductive Resolution :=
| Matched (v : T)                             (* info *)
| Clicked (i : MessageComponentInteraction)   (* i *)
| Null.                                       (* null *)

(** The promise: pending, or resolved.  [resolve] on a resolved promise does
    nothing. *)
Definition resolvePromise (r : Resolution) (promise : option Resolution) : option Resolution :=
  match promise with
  | None => Some r
  | Some _ => promise
  end.

Variable options : Options.

(** [func]; [None] stands for [undefined] and [null]. *)
Variable func : Message → option T.

(** *** startNormalCollector *)

(** A handler of the "collect" event that waits at an [await]. *)
Inductive NormalAwait :=
| NormalAwaitDelete (c : Message)                       (* await c.delete().catch() *)
| NormalAwaitFunc (c : Message) (attempt : option T).   (* await func(c) *)

Record NormalState := {
  normalPromise : option Resolution;
  normalEnded : bool;                   (* msgCollector.ended *)
  normalAwaits : list NormalAwait;
  normalCalls : list Call
}.

(** What happens in the channel and in the event loop. *)
Inductive NormalEvent :=
| NormalMessage (m : Message)     (* a message is sent in the channel *)
| NormalTime                      (* the time of msgCollector is over *)
| NormalResume (k : nat).         (* the awaited promise of the k-th waiting handler settles *)

Definition normalInit : NormalState :=
  {| normalPromise := None; normalEnded := false; normalAwaits := []; normalCalls := [] |}.

Definition normalResolve (r : Resolution) (st : NormalState) : NormalState :=
  {| normalPromise := resolvePromise r (normalPromise st);
     normalEnded := normalEnded st;
     normalAwaits := normalAwaits st;
     normalCalls := normalCalls st |}.

Definition normalCall (c : Call) (st : NormalState) : NormalState :=
  {| normalPromise := normalPromise st;
     normalEnded := normalEnded st;
     normalAwaits := normalAwaits st;
     normalCalls := normalCalls st ++ [c] |}.

Definition normalAwait (a : NormalAwait) (st : NormalState) : NormalState :=
  {| normalPromise := normalPromise st;
     normalEnded := normalEnded st;
     normalAwaits := normalAwaits st ++ [a];
     normalCalls := normalCalls st |}.

(** The bot message: [null] when none was sent or given. *)
Variable botMsg : option BotMessage.

(** Lines 114-118: the handler of "end". *)
Definition normalOnEnd (r : EndReason) (st : NormalState) : NormalState :=
  let st :=
    if deleteBaseMsgAfterComplete options
       && match botMsg with Some b => deletable b | None => false end
    then normalCall DeleteBase st else st in
  if decide (r = time) then normalResolve Null st else st.

(** [msgCollector.stop(reason)]: a collector ends once. *)
Definition normalStop (r : EndReason) (st : NormalState) : NormalState :=
  if normalEnded st then st
  else normalOnEnd r
         {| normalPromise := normalPromise st;
            normalEnded := true;
            normalAwaits := normalAwaits st;
            normalCalls := normalCalls st |}.

(** Lines 101-107: from the test of the cancel flag to [await func(c)]. *)
Definition normalCheckCancel (c : Message) (st : NormalState) : NormalState :=
  if isCancel options c then normalResolve Null st
  else normalAwait (NormalAwaitFunc c (func c)) (normalCall (Extract c) st).

(** Lines 97-99: the handler of "collect" up to its first [await]. *)
Definition normalOnCollect (c : Message) (st : NormalState) : NormalState :=
  if deleteResponseMessage options
  then normalAwait (NormalAwaitDelete c) (normalCall (DeleteResponse c) st)
  else normalCheckCancel c st.

(** A waiting handler goes on.  After [await c.delete().catch()] a rejection
    is thrown in the handler, which ends there.  After [await func(c)],
    lines 106-111. *)
Definition normalContinue (a : NormalAwait) (st : NormalState) : NormalState :=
  match a with
  | NormalAwaitDelete c => if deleteFails c then st else normalCheckCancel c st
  | NormalAwaitFunc c attempt =>
      match attempt with
      | Some v =>
          if truthyValue v then normalResolve (Matched v) (normalStop user st) else st
      | None => st
      end
  end.

Definition normalStep (st : NormalState) (e : NormalEvent) : NormalState :=
  match e with
  | NormalMessage m =>
      if normalEnded st then st
      else if strictEquals (author m) (targetAuthor options) then normalOnCollect m st
      else st
  | NormalTime => normalStop time st
  | NormalResume k =>
      match normalAwaits st !! k with
      | Some a =>
          normalContinue a
            {| normalPromise := normalPromise st;
               normalEnded := normalEnded st;
               normalAwaits := delete k (normalAwaits st);
               normalCalls := normalCalls st |}
      | None => st
      end
  end.

Definition normalRun (st : NormalState) (events : list NormalEvent) : NormalState :=
  fold_left normalStep events st.

(** The message [c] is sent and, when its handler first awaits the deletion
    of [c], that handler goes on. *)
Definition normalDeliver (c : Message) (st : NormalState) : NormalState :=
  normalRun st
    (NormalMessage c ::
     if deleteResponseMessage options then [NormalResume (length (normalAwaits st))] else []).

(** Where a matched value comes from: the handlers that wait belong to
    messages that were sent, and a handler waits for [func] only when its
    message did not cancel. *)
Definition normalOrigin (events : list NormalEvent) (st : NormalState) : Prop :=
  Forall (λ a, match a with
               | NormalAwaitDelete c => NormalMessage c ∈ events
               | NormalAwaitFunc c attempt =>
                   NormalMessage c ∈ events ∧ isCancel options c = false ∧ attempt = func c
               end) (normalAwaits st) ∧
  ∀ v, normalPromise st = Some (Matched v) →
       ∃ c, NormalMessage c ∈ events ∧ isCancel options c = false ∧ func c = Some v.

(** *** startDoubleCollector *)

Inductive DoubleAwait :=
| DoubleAwaitDelete (c : Message)                     (* await tryExecuteAsync(c.delete) *)
| DoubleAwaitFunc (c : Message) (attempt : option T)  (* await func(c) *)
| DoubleAwaitDefer (i : MessageComponentInteraction). (* await i.deferUpdate() *)

Record DoubleState := {
  doublePromise : option Resolution;
  hasCalled : bool;
  msgEnded : bool;                (* msgCollector.ended *)
  interactionEnded : bool;        (* interactionCollector.ended *)
  doubleAwaits : list DoubleAwait;
  doubleCalls : list Call;
  cleanups : nat                  (* how often the body of acknowledgeDeletion ran *)
}.

Inductive DoubleEvent :=
| DoubleMessage (m : Message)                     (* a message is sent in the channel *)
| DoubleClick (i : MessageComponentInteraction)   (* a component of botMsg is used *)
| DoubleMsgTime                                   (* the time of msgCollector is over *)
| DoubleInteractionTime                           (* the time of interactionCollector is over *)
| DoubleResume (k : nat).

Definition doubleInit : DoubleState :=
  {| doublePromise := None; hasCalled := false; msgEnded := false;
     interactionEnded := false; doubleAwaits := []; doubleCalls := []; cleanups := 0 |}.

Definition doubleResolve (r : Resolution) (st : DoubleState) : DoubleState :=
  {| doublePromise := resolvePromise r (doublePromise st);
     hasCalled := hasCalled st; msgEnded := msgEnded st;
     interactionEnded := interactionEnded st; doubleAwaits := doubleAwaits st;
     doubleCalls := doubleCalls st; cleanups := cleanups st |}.

Definition doubleCall (c : Call) (st : DoubleState) : DoubleState :=
  {| doublePromise := doublePromise st;
     hasCalled := hasCalled st; msgEnded := msgEnded st;
     interactionEnded := interactionEnded st; doubleAwaits := doubleAwaits st;
     doubleCalls := doubleCalls st ++ [c]; cleanups := cleanups st |}.

Definition doubleAwait (a : DoubleAwait) (st : DoubleState) : DoubleState :=
  {| doublePromise := doublePromise st;
     hasCalled := hasCalled st; msgEnded := msgEnded st;
     interactionEnded := interactionEnded st; doubleAwaits := doubleAwaits st ++ [a];
     doubleCalls := doubleCalls st; cleanups := cleanups st |}.

(** The bot message of the combined wait: there is one, line 203. *)
Variable doubleBotMsg : BotMessage.

(** Lines 258-266. *)
Definition acknowledgeDeletion (r : EndReason) (st : DoubleState) : DoubleState :=
  if hasCalled st then st
  else
    let st :=
      {| doublePromise := doublePromise st;
         hasCalled := true; msgEnded := msgEnded st;
         interactionEnded := interactionEnded st; doubleAwaits := doubleAwaits st;
         doubleCalls := doubleCalls st; cleanups := S (cleanups st) |} in
    let st :=
      if deleteBaseMsgAfterComplete options && deletable doubleBotMsg
      then doubleCall DeleteBase st
      else if clearInteractionsAfterComplete options && editable doubleBotMsg
      then doubleCall ClearComponents st
      else st in
    if decide (r = time) then doubleResolve Null st else st.

(** [msgCollector.stop(reason)], with the handler of "end" of line 247. *)
Definition msgCollectorStop (r : EndReason) (st : DoubleState) : DoubleState :=
  if msgEnded st then st
  else acknowledgeDeletion r
         {| doublePromise := doublePromise st;
            hasCalled := hasCalled st; msgEnded := true;
            interactionEnded := interactionEnded st; doubleAwaits := doubleAwaits st;
            doubleCalls := doubleCalls st; cleanups := cleanups st |}.

(** [interactionCollector.stop(reason)], with the handler of "end" of line 251. *)
Definition interactionCollectorStop (r : EndReason) (st : DoubleState) : DoubleState :=
  if interactionEnded st then st
  else acknowledgeDeletion r
         {| doublePromise := doublePromise st;
            hasCalled := hasCalled st; msgEnded := msgEnded st;
            interactionEnded := true; doubleAwaits := doubleAwaits st;
            doubleCalls := doubleCalls st; cleanups := cleanups st |}.

(** Lines 224-232. *)
Definition doubleCheckCancel (c : Message) (st : DoubleState) : DoubleState :=
  if isCancel options c then doubleResolve Null (interactionCollectorStop user st)
  else doubleAwait (DoubleAwaitFunc c (func c)) (doubleCall (Extract c) st).

(** Lines 217-222. *)
Definition doubleOnMessage (c : Message) (st : DoubleState) : DoubleState :=
  if deleteResponseMessage options
  then doubleAwait (DoubleAwaitDelete c) (doubleCall (DeleteResponse c) st)
  else doubleCheckCancel c st.

(** Lines 243-244. *)
Definition doubleAfterDefer (i : MessageComponentInteraction) (st : DoubleState) : DoubleState :=
  msgCollectorStop user (doubleResolve (Clicked i) st).

(** Lines 240-245, up to the first [await]. *)
Definition doubleOnClick (i : MessageComponentInteraction) (st : DoubleState) : DoubleState :=
  if acknowledgeImmediately options
  then doubleAwait (DoubleAwaitDefer i) (doubleCall (DeferUpdate i) st)
  else doubleAfterDefer i st.

(** A waiting handler goes on.  [tryExecuteAsync] swallows a failure to
    delete the response; a rejection of [i.deferUpdate()] is thrown in the
    handler of the click, which ends there. *)
Definition doubleContinue (a : DoubleAwait) (st : DoubleState) : DoubleState :=
  match a with
  | DoubleAwaitDelete c => doubleCheckCancel c st
  | DoubleAwaitFunc c attempt =>
      match attempt with
      | Some v =>
          msgCollectorStop user
            (interactionCollectorStop user (doubleResolve (Matched v) st))
      | None => st
      end
  | DoubleAwaitDefer i => if deferUpdateFails i then st else doubleAfterDefer i st
  end.

(** The interaction collector is made with [max: 1]: after the handlers of
    "collect" it ends with the reason [limit]. *)
Definition doubleStep (st : DoubleState) (e : DoubleEvent) : DoubleState :=
  match e with
  | DoubleMessage m =>
      if msgEnded st then st
      else if strictEquals (author m) (targetAuthor options) then doubleOnMessage m st
      else st
  | DoubleClick i =>
      if interactionEnded st then st
      else if strictEquals (interactionUser i) (targetAuthor options)
      then interactionCollectorStop limit (doubleOnClick i st)
      else st
  | DoubleMsgTime => msgCollectorStop time st
  | DoubleInteractionTime => interactionCollectorStop time st
  | DoubleResume k =>
      match doubleAwaits st !! k with
      | Some a =>
          doubleContinue a
            {| doublePromise := doublePromise st;
               hasCalled := hasCalled st; msgEnded := msgEnded st;
               interactionEnded := interactionEnded st;
               doubleAwaits := delete k (doubleAwaits st);
               doubleCalls := doubleCalls st; cleanups := cleanups st |}
      | None => st
      end
  end.

Definition doubleRun (st : DoubleState) (events : list DoubleEvent) : DoubleState :=
  fold_left doubleStep events st.

Definition doubleDeliver (c : Message) (st : DoubleState) : DoubleState :=
  doubleRun st
    (DoubleMessage c ::
     if deleteResponseMessage options then [DoubleResume (length (doubleAwaits st))] else []).

(** The calls that clean up the bot message. *)
Definition isCleanupCall (c : Call) : bool :=
  match c with
  | DeleteBase | ClearComponents => true
  | _ => false
  end.

Definition cleanupCalls (st : DoubleState) : list Call :=
  List.filter isCleanupCall (doubleCalls st).

(** The clean-up asked for by the options, as far as the bot message allows
    it. *)
Definition configuredCleanup : list Call :=
  if deleteBaseMsgAfterComplete options && deletable doubleBotMsg then [DeleteBase]
  else if clearInteractionsAfterComplete options && editable doubleBotMsg
  then [ClearComponents]
  else [].

(** The one-shot guard: the body of [acknowledgeDeletion] has run once when
    a collector has ended, and not before. *)
Definition doubleGuard (st : DoubleState) : Prop :=
  cleanups st = (if hasCalled st then 1 else 0) ∧
  hasCalled st = msgEnded st || interactionEnded st ∧
  cleanupCalls st = (if hasCalled st then configuredCleanup else []).

(** A message of the target author that does not cancel and from which
    [func] extracts [v]. *)
Definition qualifying (c : Message) (v : T) : Prop :=
  author c = targetAuthor options ∧ isCancel options c = false ∧ func c = Some v.

(** When clicks are acknowledged at once, [deferUpdate] does not fail. *)
Definition acknowledged (events : list DoubleEvent) : Prop :=
  acknowledgeImmediately options = true →
  ∀ i, DoubleClick i ∈ events → deferUpdateFails i = false.

(** What the events that have happened leave behind. *)
Definition doubleProgress (events : list DoubleEvent) (st : DoubleState) : Prop :=
  (acknowledged events → doublePromise st = None → hasCalled st = true →
   ∃ i, DoubleAwaitDefer i ∈ doubleAwaits st ∧ deferUpdateFails i = false) ∧
  (∀ c v, DoubleMessage c ∈ events → qualifying c v →
          msgEnded st = true ∨ DoubleAwaitDelete c ∈ doubleAwaits st
          ∨ DoubleAwaitFunc c (Some v) ∈ doubleAwaits st) ∧
  (∀ i, DoubleClick i ∈ events → interactionUser i = targetAuthor options →
        interactionEnded st = true).

(** What a step never undoes: a collector that has ended stays ended, a
    resolved promise keeps its value, and the handlers that wait go on
    waiting. *)
Definition doubleExtends (st st' : DoubleState) : Prop :=
  (msgEnded st = true → msgEnded st' = true) ∧
  (interactionEnded st = true → interactionEnded st' = true) ∧
  (∀ r, doublePromise st = Some r → doublePromise st' = Some r) ∧
  (∀ x, x ∈ doubleAwaits st → x ∈ doubleAwaits st').

(** A pending promise after the clean-up is resolved by a handler of a click
    that waits for [deferUpdate]. *)
Definition doubleSettles (st : DoubleState) : Prop :=
  doublePromise st = None → hasCalled st = true →
  ∃ i, DoubleAwaitDefer i ∈ doubleAwaits st ∧ deferUpdateFails i = false.

(** Where a matched value comes from, as for the text-only wait. *)
Definition doubleOrigin (events : list DoubleEvent) (st : DoubleState) : Prop :=
  Forall (λ a, match a with
               | DoubleAwaitDelete c => DoubleMessage c ∈ events
               | DoubleAwaitFunc c attempt =>
                   DoubleMessage c ∈ events ∧ isCancel options c = false ∧ attempt = func c
               | DoubleAwaitDefer i => DoubleClick i ∈ events
               end) (doubleAwaits st) ∧
  ∀ v, doublePromise st = Some (Matched v) →
       ∃ c, DoubleMessage c ∈ events ∧ isCancel options c = false ∧ func c = Some v.

(** *** The clean-up of the text-only wait *)

(** Lines 115-116: what the handler of "end" calls on the bot message. *)
Definition normalCleanup : list Call :=
  if deleteBaseMsgAfterComplete options
     && match botMsg with Some b => deletable b | None => false end
  then [DeleteBase] else [].

(** The collector that has ended has resolved the promise, and has made the
    clean-up when it ended, not before. *)
Definition normalGuard (st : NormalState) : Prop :=
  (normalEnded st = true → normalPromise st ≠ None) ∧
  List.filter isCleanupCall (normalCalls st)
  = if normalEnded st then normalCleanup else [].

(** *** Input that does not qualify *)

(** A message that does not cancel and from which [func] extracts nothing
    the text-only wait accepts. *)
Definition normalUnqualified (c : Message) : bool :=
  negb (isCancel options c)
  && match func c with Some v => negb (truthyValue v) | None => true end.

(** An event that brings the text-only wait no further: a message of someone
    else, a message of the target author that does not qualify, a handler
    that goes on. *)
Definition normalIdle (e : NormalEvent) : bool :=
  match e with
  | NormalMessage m =>
      negb (strictEquals (author m) (targetAuthor options)) || normalUnqualified m
  | NormalTime => false
  | NormalResume _ => true
  end.

(** What the text-only wait hears: the filter of line 93. *)
Definition normalHeard (e : NormalEvent) : bool :=
  match e with
  | NormalMessage m => strictEquals (author m) (targetAuthor options)
  | _ => true
  end.

(** The handlers that wait belong to messages that do not qualify. *)
Definition normalIdling (st : NormalState) : Prop :=
  Forall (λ a, match a with
               | NormalAwaitDelete c => normalUnqualified c = true
               | NormalAwaitFunc c attempt =>
                   match attempt with Some v => truthyValue v = false | None => True end
               end) (normalAwaits st).

(** In the combined wait a value that is not [null] or [undefined] is
    accepted, lines 231 and 234. *)
Definition doubleUnqualified (c : Message) : bool :=
  negb (isCancel options c)
  && match func c with Some _ => false | None => true end.

(** An event that brings the combined wait no further. *)
Definition doubleIdle (e : DoubleEvent) : bool :=
  match e with
  | DoubleMessage m =>
      negb (strictEquals (author m) (targetAuthor options)) || doubleUnqualified m
  | DoubleClick i => negb (strictEquals (interactionUser i) (targetAuthor options))
  | DoubleMsgTime | DoubleInteractionTime => false
  | DoubleResume _ => true
  end.

(** What the combined wait hears: the filters of lines 208 and 212. *)
Definition doubleHeard (e : DoubleEvent) : bool :=
  match e with
  | DoubleMessage m => strictEquals (author m) (targetAuthor options)
  | DoubleClick i => strictEquals (interactionUser i) (targetAuthor options)
  | _ => true
  end.

(** The handlers of messages that wait belong to messages that do not
    qualify. *)
Definition doubleIdling (st : DoubleState) : Prop :=
  Forall (λ a, match a with
               | DoubleAwaitDelete c => doubleUnqualified c = true
               | DoubleAwaitFunc c attempt => attempt = None
               | DoubleAwaitDefer i => deferUpdateFails i = true
               end) (doubleAwaits st).

(** An event that cannot resolve the promise with a value: anything but a
    message of the target author that cancels or qualifies. *)
Definition doubleFruitless (e : DoubleEvent) : bool :=
  match e with
  | DoubleMessage m =>
      negb (strictEquals (author m) (targetAuthor options)) || doubleUnqualified m
  | _ => true
  end.

(** The promise is pending after the clean-up, and no handler that waits
    can resolve it. *)
Definition doubleStalled (st : DoubleState) : Prop :=
  doublePromise st = None ∧ hasCalled st = true ∧ interactionEnded st = true ∧
  doubleIdling st.

(** [i] is the first click of the target author among the events. *)
Definition firstClick (events : list DoubleEvent) (i : MessageComponentInteraction) : Prop :=
  interactionUser i = targetAuthor options ∧
  ∃ before after,
    events = before ++ DoubleClick i :: after ∧
    Forall (λ e, match e with
                 | DoubleClick j => interactionUser j ≠ targetAuthor options
                 | _ => True
                 end) before.

(** Where a click the promise is resolved with comes from. *)
Definition doubleClickOrigin (events : list DoubleEvent) (st : DoubleState) : Prop :=
  (interactionEnded st = false →
   Forall (λ e, match e with
                | DoubleClick j => interactionUser j ≠ targetAuthor options
                | _ => True
                end) events) ∧
  Forall (λ a, match a with
               | DoubleAwaitDefer i => firstClick events i
               | _ => True
               end) (doubleAwaits st) ∧
  ∀ i, doublePromise st = Some (Clicked i) →
       firstClick events i ∧
       (acknowledgeImmediately options = true → deferUpdateFails i = false).

(** Why the text-only wait yields [null]: its time is over, or a message
    equals the cancel token. *)
Definition normalNullCause (events : list NormalEvent) : Prop :=
  NormalTime ∈ events ∨
  ∃ c, NormalMessage c ∈ events ∧ isCancel options c = true.

(** Why the combined wait with a bot message yields [null]: the time of a
    collector is over, or a message equals the cancel token. *)
Definition doubleNullCause (events : list DoubleEvent) : Prop :=
  DoubleMsgTime ∈ events ∨ DoubleInteractionTime ∈ events ∨
  ∃ c, DoubleMessage c ∈ events ∧ isCancel options c = true.

(** A resolved promise of the combined wait: a collector has ended, and
    both have when the promise holds a value or a click; a handler of a
    click waits only when the interaction collector has ended. *)
Definition doubleSettled (st : DoubleState) : Prop :=
  (doublePromise st ≠ None → msgEnded st || interactionEnded st = true) ∧
  (doublePromise st ≠ None → doublePromise st ≠ Some Null →
   msgEnded st = true ∧ interactionEnded st = true) ∧
  (interactionEnded st = false →
   Forall (λ a, match a with DoubleAwaitDefer _ => False | _ => True end)
     (doubleAwaits st)).

End EventDriven.

Arguments Resolution T : clear implicits.
Arguments NormalState T : clear implicits.
Arguments DoubleState T : clear implicits.
Arguments NormalAwait T : clear implicits.
Arguments DoubleAwait T : clear implicits.

(** [startNormalCollector]: what the returned promise is resolved with after
    the events, [None] while it is pending.  The collector is made after the
    bot message has been sent, whether or not that worked. *)
Definition startNormalCollector {T : Type} (truthyValue : T → bool) (options : Options)
    (func : Message → option T) (send : Settled BotMessage) (events : list NormalEvent)
  : option (Resolution T) :=
  let botMsg := initSendCollectorMessage options send in
  normalPromise (normalRun truthyValue options func botMsg normalInit events).

(** [startDoubleCollector]: without a bot message it returns [null] at once,
    line 203. *)
Definition startDoubleCollector {T : Type} (options : Options)
    (func : Message → option T) (send : Settled BotMessage) (events : list DoubleEvent)
  : option (Resolution T) :=
  match initSendCollectorMessage options send with
  | None => Some Null
  | Some botMsg => doublePromise (doubleRun options func botMsg doubleInit events)
  end.

(** *** Concrete data for the counterexamples and witnesses *)

Definition sampleBotMessage : BotMessage :=
  {| deletable := true; editable := true; botDeleteFails := false; botEditFails := false |}.

Definition sampleOptions (flag : option string) (deleteResponse : bool) : Options :=
  {| targetAuthor := "alice";
     msgOptions := Some "Type a number, or press a button.";
     oldMsg := None;
     deleteBaseMsgAfterComplete := true;
     acknowledgeImmediately := true;
     clearInteractionsAfterComplete := false;
     cancelFlag := flag;
     deleteResponseMessage := deleteResponse |}.

Definition sampleMessage (text : string) (fails : bool) : Message :=
  {| author := "alice"; content := text; deleteFails := fails |}.

Definition sampleClick : MessageComponentInteraction :=
  {| interactionUser := "alice"; interactionCustomId := "yes"; deferUpdateFails := false |}.

(** An extractor that accepts every message. *)
Definition acceptAll (c : Message) : option nat := Some (String.length (content c)).

Definition truthyNumber (n : nat) : bool := negb (n =? 0)%nat.

(** An extractor that accepts every message with a truthy value. *)
Definition acceptSeven (c : Message) : option nat := Some 7%nat.

End AdvancedCollector.

Module InteractionEvent.
Import JSString.

Local Open Scope Z_scope.

Record User := { user_id : string }.
Record GuildMember := { member_id : string }.
Record Guild := { guild_id : string; members_fetch : string → option GuildMember }.

Record CommandInteraction := {
  user : User;
  commandName : string;
  guild : option Guild
}.

Record ICommandContext := {
  ctx_user : User;
  ctx_guild : option Guild;
  ctx_interaction : CommandInteraction;
  ctx_member : option GuildMember
}.

(** What [hasPermissionToRun] returns. *)
Record CanRunInfo := {
  canRun : bool;
  hasAdmin : bool;
  missingUserPerms : list string;
  missingBotPerms : list string;
  reason : option string
}.

Record ICommandInfo := {
  botCommandName : string;
  commandCooldown : Z;
  guildOnly : bool
}.

Record BaseCommand := {
  commandInfo : ICommandInfo;
  hasPermissionToRun : option GuildMember → option Guild → CanRunInfo
}.

Record Config := { isProd : bool; botOwnerIds : list string }.

Record EmbedField := { field_name : string; field_value : string }.

Record MessageEmbed := {
  author : option User;
  color : string;
  title : string;
  description : string;
  fields : list EmbedField
}.

Definition setTitle (e : MessageEmbed) (t : string) : MessageEmbed :=
  {| author := author e; color := color e; title := t;
     description := description e; fields := fields e |}.
Definition setDescription (e : MessageEmbed) (d : string) : MessageEmbed :=
  {| author := author e; color := color e; title := title e;
     description := d; fields := fields e |}.
Definition addField (e : MessageEmbed) (name value : string) : MessageEmbed :=
  {| author := author e; color := color e; title := title e;
     description := description e;
     fields := fields e ++ [ {| field_name := name; field_value := value |} ] |}.

(** The argument of [interaction.reply]. *)
Record InteractionReplyOptions := {
  content : option string;
  embeds : list MessageEmbed;
  ephemeral : bool
}.

(** Helpers of the repository that the handler calls and whose code is not
    among the sources; they are parameters of the handler. *)
Record Utilities := {
  formatDuration : Z → bool → bool → string;       (* TimeUtilities *)
  codifyString : string → string;                  (* StringUtil *)
  generateBlankEmbed : User → string → MessageEmbed (* GeneralUtilities *)
}.

(** [Array.prototype.includes] on strings. *)
Definition includes (l : list string) (x : string) : bool := bool_decide (x ∈ l).

(** [Array.prototype.join]. *)
Fixpoint join (sep : string) (l : list string) : string :=
  match l with
  | [] => ""
  | [x] => x
  | x :: rest => x +:+ sep +:+ join sep rest
  end.

(** Modelled from the spec: [StringBuilder] is not among the sources;
    [append] adds its argument to the text and [appendLine] ends the line. *)
Definition StringBuilder := string.
Definition newline : string := String (ascii_of_nat 10) "".
Definition append (sb : StringBuilder) (s : string) : StringBuilder := sb +:+ s.
Definition appendLine (sb : StringBuilder) : StringBuilder := sb +:+ newline.

(** The cooldown record of one command: user identifier to the time from
    which the user may run the command again. *)
Abbreviation CooldownRecord := (gmap string Z).

(** Modelled from the spec: [BaseCommand.checkCooldownFor] is not among the
    sources.  Each command tracks the remaining cooldown per user: the time
    left until the recorded next-eligible timestamp, nothing for a user
    without a record.  It only reads the record. *)
Definition checkCooldownFor (record : CooldownRecord) (u : User) (now : Z) : Z :=
  match record !! user_id u with
  | Some t => t - now
  | None => 0
  end.

(** Modelled from the spec: [BaseCommand.addToCooldown] is not among the
    sources.  It starts or refreshes the cooldown of the user: the
    next-eligible timestamp becomes now plus the command's cooldown. *)
Definition addToCooldown (info : ICommandInfo) (record : CooldownRecord) (u : User) (now : Z)
  : CooldownRecord :=
  <[user_id u := now + commandCooldown info]> record.

(** The mutable state the handler works on: the cooldown record of every
    command, by command name. *)
Record State := { onCooldown : gmap string (gmap string Z) }.

Definition cooldownRecord (st : State) (name : string) : CooldownRecord :=
  default ∅ (onCooldown st !! name).

(** What the handler does to its collaborators, in order. *)
Inductive Effect :=
| Reply (options : InteractionReplyOptions)     (* interaction.reply(options) *)
| AddToCooldown (name : string) (u : User)      (* foundCommand.addToCooldown(ctx.user) *)
| Run (name : string) (ctx : ICommandContext).  (* foundCommand.run(ctx) *)

Definition userPermsField : string := "Missing Member Permissions (Need ??? 1)".
Definition botPermsField : string := "Missing Bot Permissions (Need All)".

(** Lines 69-99: the message about missing permissions. *)
Definition noPermissionReply (util : Utilities) (u : User) (canRunInfo : CanRunInfo)
  : InteractionReplyOptions :=
  let noPermSb :=
    append "" "You, or the bot, are missing permissions needed to run the command." in
  let noPermissionEmbed :=
    setTitle (generateBlankEmbed util u "RED") "Missing Permissions." in
  let '(noPermissionEmbed, noPermSb) :=
    if negb (length (missingUserPerms canRunInfo) =? 0)%nat then
      (addField
         (addField noPermissionEmbed userPermsField
            (codifyString util (join ", " (missingUserPerms canRunInfo))))
         userPermsField
         (codifyString util (join ", " (missingUserPerms canRunInfo))),
       append (appendLine noPermSb)
         "- You need to fulfill at least __one__ of the two missing member permissions.")
    else (noPermissionEmbed, noPermSb) in
  let '(noPermissionEmbed, noPermSb) :=
    if negb (length (missingBotPerms canRunInfo) =? 0)%nat then
      (addField noPermissionEmbed botPermsField
         (codifyString util (join ", " (missingBotPerms canRunInfo))),
       append (appendLine noPermSb)
         "- The bot needs every permission that is specified to run this command.")
    else (noPermissionEmbed, noPermSb) in
  let '(noPermissionEmbed, noPermSb) :=
    if (length (fields noPermissionEmbed) =? 0)%nat then
      (addField noPermissionEmbed "Unknown Error"
         "Something wrong occurred. Please try again later.",
       append (appendLine noPermSb) "- Unknown error occurred. Please report this.")
    else (noPermissionEmbed, noPermSb) in
  {| content := None;
     embeds := [setDescription noPermissionEmbed noPermSb];
     ephemeral := false |}.

Definition developmentModeReply : InteractionReplyOptions :=
  {| content := Some "The bot is currently in development mode, and cannot be used right now.";
     embeds := []; ephemeral := false |}.

Definition cooldownReply (util : Utilities) (cooldownLeft : Z) : InteractionReplyOptions :=
  let coolDownDur := formatDuration util cooldownLeft true false in
  {| content := Some ("You are on cooldown for **`" +:+ coolDownDur +:+ "`**.");
     embeds := []; ephemeral := true |}.

Definition guildOnlyReply : InteractionReplyOptions :=
  {| content := Some "This command can only be used in a guild.";
     embeds := []; ephemeral := true |}.

Definition slashCommandHandler (config : Config) (NameCommands : gmap string BaseCommand)
    (util : Utilities) (now : Z) (interaction : CommandInteraction) (st : State)
  : State * list Effect :=
  if negb (isProd config) && negb (includes (botOwnerIds config) (user_id (user interaction)))
  then
    (st, [Reply developmentModeReply])
  else
    match NameCommands !! commandName interaction with
    | None => (st, [])
    | Some foundCommand =>
        let name := commandName interaction in
        let ctx :=
          {| ctx_user := user interaction;
             ctx_guild := guild interaction;
             ctx_interaction := interaction;
             ctx_member := g ← guild interaction;
                           members_fetch g (user_id (user interaction)) |} in
        (* Check cooldown. *)
        let cooldownLeft := checkCooldownFor (cooldownRecord st name) (ctx_user ctx) now in
        if 0 <? cooldownLeft then
          (st, [Reply (cooldownReply util cooldownLeft)])
        (* Guild only? *)
        else if guildOnly (commandInfo foundCommand) && negb (bool_decide (is_Some (ctx_guild ctx)))
        then
          (st, [Reply guildOnlyReply])
        else
          (* Check permissions *)
          let canRunInfo := hasPermissionToRun foundCommand (ctx_member ctx) (ctx_guild ctx) in
          let '(st, calls) :=
            if negb (includes (botOwnerIds config) (user_id (ctx_user ctx)))
               && negb (hasAdmin canRunInfo)
            then
              ({| onCooldown :=
                    <[name := addToCooldown (commandInfo foundCommand)
                                (cooldownRecord st name) (ctx_user ctx) now]> (onCooldown st) |},
               [AddToCooldown name (ctx_user ctx)])
            else (st, []) in
          if canRun canRunInfo then (st, calls ++ [Run name ctx])
          else if truthy (reason canRunInfo) then
            (st, calls ++ [Reply {| content := reason canRunInfo;
                                   embeds := []; ephemeral := true |}])
          else
            (* Acknowledge any permission issues. *)
            (st, calls ++ [Reply (noPermissionReply util (ctx_user ctx) canRunInfo)])
    end.

(** The development-mode gate of lines 14-20 lets the invocation through. *)
Definition passesGate (config : Config) (interaction : CommandInteraction) : Prop :=
  isProd config = true ∨ user_id (user interaction) ∈ botOwnerIds config.

(** The invocation gets as far as the permission check of line 53. *)
Definition reachesPermissionCheck (config : Config) (NameCommands : gmap string BaseCommand)
    (now : Z) (interaction : CommandInteraction) (st : State) (foundCommand : BaseCommand)
  : Prop :=
  passesGate config interaction ∧
  NameCommands !! commandName interaction = Some foundCommand ∧
  checkCooldownFor (cooldownRecord st (commandName interaction)) (user interaction) now ≤ 0 ∧
  (guildOnly (commandInfo foundCommand) = true → is_Some (guild interaction)).

Definition memberOf (interaction : CommandInteraction) : option GuildMember :=
  g ← guild interaction; members_fetch g (user_id (user interaction)).

Definition contextOf (interaction : CommandInteraction) : ICommandContext :=
  {| ctx_user := user interaction;
     ctx_guild := guild interaction;
     ctx_interaction := interaction;
     ctx_member := memberOf interaction |}.

(** The state after [addToCooldown] for the invoking user. *)
Definition withCooldown (foundCommand : BaseCommand) (now : Z)
    (interaction : CommandInteraction) (st : State) : State :=
  let name := commandName interaction in
  {| onCooldown :=
       <[name := addToCooldown (commandInfo foundCommand) (cooldownRecord st name)
                   (user interaction) now]> (onCooldown st) |}.

(** What the handler does from the permission check on. *)
Definition afterPermissionCheck (config : Config) (util : Utilities) (now : Z)
    (interaction : CommandInteraction) (st : State) (foundCommand : BaseCommand)
  : State * list Effect :=
  let name := commandName interaction in
  let canRunInfo :=
    hasPermissionToRun foundCommand (memberOf interaction) (guild interaction) in
  let exempt :=
    includes (botOwnerIds config) (user_id (user interaction)) || hasAdmin canRunInfo in
  let st' := if exempt then st else withCooldown foundCommand now interaction st in
  let calls := if exempt then [] else [AddToCooldown name (user interaction)] in
  let last :=
    if canRun canRunInfo then Run name (contextOf interaction)
    else if truthy (reason canRunInfo) then
      Reply {| content := reason canRunInfo; embeds := []; ephemeral := true |}
    else Reply (noPermissionReply util (user interaction) canRunInfo) in
  (st', calls ++ [last]).

Definition sampleUtilities : Utilities :=
  {| formatDuration := λ _ _ _, "5 Seconds"%string;
     codifyString := λ s, ("```" +:+ s +:+ "```")%string;
     generateBlankEmbed := λ u c,
       {| author := Some u; color := c; title := ""; description := ""; fields := [] |} |}.

Definition sampleCommand (info : CanRunInfo) : BaseCommand :=
  {| commandInfo := {| botCommandName := "help"; commandCooldown := 4000; guildOnly := false |};
     hasPermissionToRun := λ _ _, info |}.

Definition allowed : CanRunInfo :=
  {| canRun := true; hasAdmin := false; missingUserPerms := []; missingBotPerms := [];
     reason := None |}.

Definition denied (userPerms botPerms : list string) : CanRunInfo :=
  {| canRun := false; hasAdmin := false; missingUserPerms := userPerms;
     missingBotPerms := botPerms; reason := None |}.

Definition sampleCommands (info : CanRunInfo) : gmap string BaseCommand :=
  {[ "help"%string := sampleCommand info ]}.

Definition production : Config := {| isProd := true; botOwnerIds := ["owner"%string] |}.

Definition development : Config := {| isProd := false; botOwnerIds := ["owner"%string] |}.

Definition invocation (uid name : string) : CommandInteraction :=
  {| user := {| user_id := uid |}; commandName := name; guild := None |}.

Definition noCooldowns : State := {| onCooldown := ∅ |}.

Definition onCooldownUntil (uid : string) (t : Z) : State :=
  {| onCooldown := {[ "help"%string := {[ uid := t ]} ]} |}.

Definition userPermsDisplay (util : Utilities) (info : CanRunInfo) : EmbedField :=
  {| field_name := userPermsField;
     field_value := codifyString util (join ", " (missingUserPerms info)) |}.

Definition botPermsDisplay (util : Utilities) (info : CanRunInfo) : EmbedField :=
  {| field_name := botPermsField;
     field_value := codifyString util (join ", " (missingBotPerms info)) |}.

Definition unknownErrorDisplay : EmbedField :=
  {| field_name := "Unknown Error";
     field_value := "Something wrong occurred. Please try again later." |}.

Definition anyOfLine : string :=
  "- You need to fulfill at least __one__ of the two missing member permissions.".

Definition allOfLine : string :=
  "- The bot needs every permission that is specified to run this command.".

Definition unknownErrorLine : string :=
  "- Unknown error occurred. Please report this.".

Definition missingPermissionsLine : string :=
  "You, or the bot, are missing permissions needed to run the command.".

(** What reaches [onInteractionEvent]: a command, or another interaction,
    for which [isCommand()] is false. *)
Inductive Interaction :=
| IsCommand (interaction : CommandInteraction)
| NotCommand.

(** Lines 103-108. *)
Definition onInteractionEvent (config : Config) (NameCommands : gmap string BaseCommand)
    (util : Utilities) (now : Z) (interaction : Interaction) (st : State)
  : State * list Effect :=
  match interaction with
  | IsCommand i => slashCommandHandler config NameCommands util now i st
  | NotCommand => (st, [])
  end.

Definition isReply (e : Effect) : bool :=
  match e with Reply _ => true | _ => false end.

Definition isRun (e : Effect) : bool :=
  match e with Run _ _ => true | _ => false end.

Definition isAddToCooldown (e : Effect) : bool :=
  match e with AddToCooldown _ _ => true | _ => false end.

End InteractionEvent.

Module EnrollData.
Import JSString GetOverallEnroll.

(** The commands of src/commands/enroll-data.  They call
    [parseCourseSubjCode] of helpers/Helper, which is not among the sources:
    the parser is a parameter of the two [run] functions. *)

(** A section of a course in the cached data. *)
Record WebRegSection := { subj_course_id : code_units; section_code : code_units }.

Record MutableConstants := {
  OVERALL_ENROLL : gmap code_units (list IGitContent);
  OVERALL_ENROLL_WIDE : gmap code_units (list IGitContent);
  OVERALL_ENROLL_FSP : gmap code_units (list IGitContent);
  SECTION_TERM_DATA : list WebRegSection;
  CACHED_DATA_TERM : code_units
}.

(** What a command does with the interaction, in order. *)
Inductive Response :=
| Reply (options : InteractionReplyOptions)       (* ctx.interaction.reply(options) *)
| DeferReply                                      (* ctx.interaction.deferReply() *)
| EditReply (options : InteractionReplyOptions)   (* ctx.interaction.editReply(options) *)
| DisplayInteractiveWebregData (data : list WebRegSection) (term parsedCode : code_units)
    (flag : bool).                                (* displayInteractiveWebregData(ctx, ...) *)

(** [s.indexOf(c)] for a string [c] of one code unit. *)
Fixpoint indexOfFrom (c : N) (s : code_units) (i : Z) : Z :=
  match s with
  | [] => (-1)%Z
  | x :: s' => if (x =? c)%N then i else indexOfFrom c s' (i + 1)%Z
  end.

Definition indexOf (s : code_units) (c : N) : Z := indexOfFrom c s 0%Z.

(** The class [GetOverallEnroll] of GetOverallEnroll.ts, the command
    "overallplot". *)
Module OverallPlot.

(** Lines 33-47: the collection that is searched and its display name. *)
Definition collection (constants : MutableConstants) (searchType : code_units)
  : gmap code_units (list IGitContent) * code_units :=
  if sameUnits searchType (lit "wide") then (OVERALL_ENROLL_WIDE constants, lit "Wide")
  else if sameUnits searchType (lit "fsp")
  then (OVERALL_ENROLL_FSP constants, lit "First/Second Pass")
  else (OVERALL_ENROLL constants, lit "Normal").

(** [run], lines 26-78.  [search_type] is [None] when the option is not
    given. *)
Definition run (parseCourseSubjCode : code_units → code_units)
    (constants : MutableConstants) (term code : code_units)
    (search_type : option code_units) : Z * list Response :=
  let searchType := default (lit "norm") search_type in
  let '(coll, display) := collection constants searchType in
  match coll !! term with
  | None =>
      ((-1)%Z,
       [Reply {| content := lit "The term, **`" ++ term ++ lit "`** (Display `" ++ display
                            ++ lit "`), could not be found. Try again.";
                 ephemeral := true; files := [] |}])
  | Some arr =>
      let parsedCode := parseCourseSubjCode code in
      match List.find (λ x, sameUnits (withoutPng x) parsedCode) arr with
      | None =>
          ((-1)%Z,
           [Reply {| content := lit "The course, **`" ++ parsedCode ++ lit "`**, (term **`"
                                ++ term ++ lit "`** & display `" ++ display
                                ++ lit "`) could not" ++ lit " be found. Try again.";
                     ephemeral := true; files := [] |}])
      | Some res =>
          (0%Z,
           [DeferReply;
            EditReply {| files := [download_url res];
                         content := lit "Course **`" ++ parsedCode ++ lit "`** (Term **`"
                                    ++ term ++ lit "`**, Display `" ++ display
                                    ++ lit "`)";
                         ephemeral := false |}])
      end
  end.

End OverallPlot.

(** The class [LookupCached], the command "lookupcached". *)
Module LookupCached.

(** [run], lines 35-59. *)
Definition run (parseCourseSubjCode : code_units → code_units)
    (constants : MutableConstants) (code : code_units) : Z * list Response :=
  let parsedCode := parseCourseSubjCode code in
  if (indexOf parsedCode 0x20 =? -1)%Z then
    ((-1)%Z,
     [Reply {| content := lit "Your input, `" ++ code
                          ++ lit "`, is improperly formatted. It should look like `SUBJ XXX`.";
               ephemeral := true; files := [] |}])
  else
    let data :=
      List.filter (λ x, sameUnits (subj_course_id x) parsedCode)
        (SECTION_TERM_DATA constants) in
    if (length data =? 0)%nat then
      (0%Z,
       [DeferReply;
        EditReply {| content := lit "No data was found for **`" ++ parsedCode
                                ++ lit "`** (Term: `" ++ CACHED_DATA_TERM constants
                                ++ lit "`).";
                     ephemeral := false; files := [] |}])
    else
      (0%Z,
       [DeferReply;
        DisplayInteractiveWebregData data (CACHED_DATA_TERM constants) parsedCode false]).

End LookupCached.

Definition isReply (r : Response) : bool :=
  match r with Reply _ => true | _ => false end.

Definition isDeferReply (r : Response) : bool :=
  match r with DeferReply => true | _ => false end.

(** A chart of the listing matches the parsed course code. *)
Definition matches (parsedCode : code_units) (x : IGitContent) : bool :=
  sameUnits (withoutPng x) parsedCode.

End EnrollData.

Module Help.
Import JSString.

(** The command "help" of src/commands/general/Help.ts. *)

Record IArgumentInfo := {
  displayName : string;
  argName : string;
  desc : string;
  required : bool;
  example : list string
}.

Record ICommandInfo := {
  formalCommandName : string;
  botCommandName : string;
  description : string;
  generalPermissions : list string;
  botPermissions : list string;
  argumentInfo : list IArgumentInfo;
  guildOnly : bool;
  botOwnerOnly : bool
}.

Record Guild := { guild_name : string }.

(** [hasPermissionToRun] returns an object, the one whose fields
    InteractionEvent.ts reads in lines 53-75. *)
Record BaseCommand := {
  commandInfo : ICommandInfo;
  hasPermissionToRun : InteractionEvent.User → option Guild → InteractionEvent.CanRunInfo
}.

(** [ToBoolean] of an object: every object is truthy. *)
Definition objectToBoolean {A : Type} (object : A) : bool := true.

(** What [run] reads of the context: the user, the guild, and the option
    "command" of the interaction, [None] when it is not given. *)
Record ICommandContext := {
  ctx_user : InteractionEvent.User;
  ctx_guild : option Guild;
  ctx_command : option string
}.

Record EmbedField := { field_name : string; field_value : string; inline : bool }.

Record MessageEmbed := {
  title : string;
  footer : option string;
  embedDescription : string;
  fields : list EmbedField
}.

Definition setTitle (e : MessageEmbed) (t : string) : MessageEmbed :=
  {| title := t; footer := footer e; embedDescription := embedDescription e;
     fields := fields e |}.
Definition setFooter (e : MessageEmbed) (text : string) : MessageEmbed :=
  {| title := title e; footer := Some text; embedDescription := embedDescription e;
     fields := fields e |}.
Definition setDescription (e : MessageEmbed) (d : string) : MessageEmbed :=
  {| title := title e; footer := footer e; embedDescription := d; fields := fields e |}.
Definition addField (e : MessageEmbed) (name value : string) (inline : bool) : MessageEmbed :=
  {| title := title e; footer := footer e; embedDescription := embedDescription e;
     fields := fields e ++ [ {| field_name := name; field_value := value;
                                inline := inline |} ] |}.

(** [StringBuilder] is not among the sources: its operations are parameters.
    [appendLine] is called without an argument and with one. *)
Class StringBuilder (SB : Type) := {
  newStringBuilder : SB;
  append : SB → string → SB;
  appendLine : SB → option nat → SB;
  toString : SB → string
}.

(** The helpers [run] calls that are not among the sources.  [codifyString]
    is called with a string and, in line 73, with an array of strings. *)
Record Utilities := {
  generateBlankEmbed : InteractionEvent.User → string → MessageEmbed;
  codifyString : string + list string → string;
  arrayToStringFields :
    list IArgumentInfo → (nat → IArgumentInfo → string) → list string
}.

Definition yesNo (b : bool) : string := if b then "Yes" else "No".

(** Lines 82-89: the text about one argument. *)
Definition argumentText `{StringBuilder SB} (elem : IArgumentInfo) : string :=
  toString
    (appendLine
       (append
          (appendLine
             (append
                (appendLine
                   (append
                      (appendLine
                         (append newStringBuilder
                            ("__Argument__: " +:+ displayName elem +:+ " (`"
                             +:+ argName elem +:+ "`)"))
                         None)
                      ("- " +:+ desc elem))
                   None)
                ("- Required? " +:+ yesNo (required elem)))
             None)
          ("- Example(s): `[" +:+ InteractionEvent.join ", " (example elem) +:+ "]`"))
       (Some 2)).

(** Lines 46-94: the embed about one command. *)
Definition commandHelpEmbed `{StringBuilder SB} (util : Utilities) (ctx : ICommandContext)
    (command : BaseCommand) : MessageEmbed :=
  let info := commandInfo command in
  let cmdHelpEmbed :=
    addField
      (addField
         (addField
            (addField
               (addField
                  (setDescription
                     (setFooter
                        (setTitle (generateBlankEmbed util (ctx_user ctx) "GREEN")
                           ("Command Help: **" +:+ formalCommandName info +:+ "**"))
                        ("Server Context: "
                         +:+ default "Direct Message"%string
                               (guild_name <$> ctx_guild ctx)))
                     (description info))
                  "Command Code" (codifyString util (inl (botCommandName info))) false)
               "Guild Only?" (codifyString util (inl (yesNo (guildOnly info)))) true)
            "Bot Owner Only?" (codifyString util (inl (yesNo (botOwnerOnly info)))) true)
         "Discord User Permissions Needed (??? 1)"
         (codifyString util
            (if (0 <? length (generalPermissions info))%nat
             then inl (InteractionEvent.join ", " (generalPermissions info))
             else inl "N/A."%string))
         false)
      "Discord Bot Permissions Needed (??? 1)"
      (codifyString util
         (if (0 <? length (botPermissions info))%nat
          then inr (botPermissions info)
          else inl "N/A."%string))
      false in
  let argDisplay :=
    arrayToStringFields util (argumentInfo info) (λ _ elem, argumentText elem) in
  fold_left
    (λ embed d,
       addField embed
         ("Argument Information (" +:+ pretty (length (argumentInfo info)) +:+ ")") d false)
    argDisplay cmdHelpEmbed.

(** Lines 106-126: the embed with the list of the commands. *)
Definition helpEmbed (util : Utilities) (Commands : list (string * list BaseCommand))
    (ctx : ICommandContext) (showCmdHelp : bool) : MessageEmbed :=
  let helpEmbed :=
    setDescription
      (setFooter
         (setTitle (generateBlankEmbed util (ctx_user ctx) "GREEN") "Command List")
         ("Server Context: "
          +:+ default "Direct Messages"%string (guild_name <$> ctx_guild ctx)))
      (if showCmdHelp
       then "The command, `" +:+ default ""%string (ctx_command ctx)
            +:+ "`, could not be found. Try looking through the list below."
       else "Below is a list of all supported commands.") in
  fold_left
    (λ embed '(category, commands),
       addField embed category
         (codifyString util
            (inl (InteractionEvent.join ", "
                    (map (λ x, botCommandName (commandInfo x))
                       (List.filter
                          (λ x, objectToBoolean
                                  (hasPermissionToRun x (ctx_user ctx) (ctx_guild ctx)))
                          commands)))))
         false)
    Commands helpEmbed.

(** [run], lines 39-132: the number it returns and the embeds it replies
    with, one list for each call of [ctx.interaction.reply].  [NameCommands]
    is [Bot.NameCommands] and [Commands] is [Bot.Commands], in its order. *)
Definition run `{StringBuilder SB} (util : Utilities)
    (NameCommands : gmap string BaseCommand) (Commands : list (string * list BaseCommand))
    (ctx : ICommandContext) : Z * list (list MessageEmbed) :=
  let cmdName := ctx_command ctx in
  if truthy cmdName then
    match NameCommands !! default ""%string cmdName with
    | Some command => (0%Z, [[commandHelpEmbed util ctx command]])
    | None => (0%Z, [[helpEmbed util Commands ctx true]])   (* showCmdHelp = true *)
    end
  else (0%Z, [[helpEmbed util Commands ctx false]]).

(** The field that lists all the commands of a category. *)
Definition fullCategoryField (util : Utilities) (entry : string * list BaseCommand)
  : EmbedField :=
  {| field_name := entry.1;
     field_value :=
       codifyString util
         (inl (InteractionEvent.join ", "
                 (map (λ x, botCommandName (commandInfo x)) entry.2)));
     inline := false |}.

(** A string builder on strings, for the examples. *)
#[global] Instance sampleStringBuilder : StringBuilder string := {
  newStringBuilder := "";
  append sb s := sb +:+ s;
  appendLine sb n := sb +:+ InteractionEvent.newline;
  toString sb := sb
}.

Definition sampleUtilities : Utilities :=
  {| generateBlankEmbed := λ _ _,
       {| title := ""; footer := None; embedDescription := ""; fields := [] |};
     codifyString := λ s,
       match s with
       | inl s => ("`" +:+ s +:+ "`")%string
       | inr l => ("`" +:+ InteractionEvent.join "," l +:+ "`")%string
       end;
     arrayToStringFields := λ l f, imap f l |}.

Definition sampleCommand (name : string) (canRun : bool) : BaseCommand :=
  {| commandInfo :=
       {| formalCommandName := name; botCommandName := name; description := "";
          generalPermissions := []; botPermissions := []; argumentInfo := [];
          guildOnly := false; botOwnerOnly := false |};
     hasPermissionToRun := λ _ _,
       {| InteractionEvent.canRun := canRun; InteractionEvent.hasAdmin := false;
          InteractionEvent.missingUserPerms := []; InteractionEvent.missingBotPerms := [];
          InteractionEvent.reason := None |} |}.

End Help.

(** * Part II: lemmas and theorems *)

Module ListFacts.

(** [Array.prototype.find] yields the first element that passes the test. *)
Lemma find_first {A : Type} (f : A → bool) (l : list A) :
  match List.find f l with
  | Some x =>
      f x = true ∧
      ∃ before after, l = before ++ x :: after ∧ Forall (λ y, f y = false) before
  | None => Forall (λ y, f y = false) l
  end.
Proof.
  induction l as [|y l IH]; cbn; [constructor|].
  destruct (f y) eqn:Hy.
  - split; [done|]. by exists [], l.
  - destruct (List.find f l) as [x|].
    + destruct IH as (Hx & before & after & -> & Hbefore). split; [done|].
      exists (y :: before), after. split; [done|]. by constructor.
    + by constructor.
Qed.

End ListFacts.

Module GetOverallEnrollSpec.
Import JSString GetOverallEnroll.

(** ** Code units *)

Ltac unit_lia :=
  unfold isDigit, isSpace, isASCIIDigit, isSurrogate, isHighSurrogate, isLowSurrogate,
    isWhiteSpace, toUpperCaseASCII in *;
  repeat case_match;
  repeat (progress rewrite ?andb_true_iff, ?orb_true_iff, ?andb_false_iff, ?orb_false_iff,
            ?negb_true_iff, ?negb_false_iff,
            ?N.leb_le, ?N.leb_gt, ?N.eqb_eq, ?N.eqb_neq, ?N.ltb_lt, ?N.ltb_ge in * );
  lia.

Lemma high_not_low c : isHighSurrogate c = true → isLowSurrogate c = false.
Proof. unit_lia. Qed.
Lemma low_not_high c : isLowSurrogate c = true → isHighSurrogate c = false.
Proof. unit_lia. Qed.
Lemma surrogate_not_white c : isSurrogate c = true → isWhiteSpace c = false.
Proof. unit_lia. Qed.
Lemma surrogate_not_digit c : isSurrogate c = true → isDigit c = false.
Proof. unit_lia. Qed.
Lemma surrogate_not_ascii c : isSurrogate c = true → (0x80 ≤ c)%N.
Proof. unit_lia. Qed.
Lemma isDigit_not_white c : isDigit c = true → isWhiteSpace c = false.
Proof. unit_lia. Qed.
Lemma isDigit_not_space c : isDigit c = true → isSpace c = false.
Proof. unit_lia. Qed.
Lemma isDigit_not_surrogate c : isDigit c = true → isSurrogate c = false.
Proof. unit_lia. Qed.
Lemma isSpace_white c : isSpace c = true → isWhiteSpace c = true.
Proof. unit_lia. Qed.
Lemma isSpace_eq c : isSpace c = true ↔ c = 0x20%N.
Proof. apply N.eqb_eq. Qed.
Lemma white_not_surrogate c : isWhiteSpace c = true → isSurrogate c = false.
Proof. unit_lia. Qed.
Lemma white_space : isWhiteSpace 0x20 = true.
Proof. done. Qed.
Lemma high_surrogate c : isHighSurrogate c = true → isSurrogate c = true.
Proof. unfold isSurrogate. by intros ->. Qed.
Lemma low_surrogate c : isLowSurrogate c = true → isSurrogate c = true.
Proof. unfold isSurrogate. intros ->. by destruct (isHighSurrogate c). Qed.
Lemma not_surrogate c :
  isSurrogate c = false → isHighSurrogate c = false ∧ isLowSurrogate c = false.
Proof. unfold isSurrogate. by destruct (isHighSurrogate c), (isLowSurrogate c). Qed.

Lemma toUpperCaseASCII_small c : (c < 0x80)%N → (toUpperCaseASCII c < 0x80)%N.
Proof. unit_lia. Qed.
Lemma toUpperCaseASCII_idem c : toUpperCaseASCII (toUpperCaseASCII c) = toUpperCaseASCII c.
Proof. unit_lia. Qed.
Lemma toUpperCaseASCII_white c : isWhiteSpace (toUpperCaseASCII c) = isWhiteSpace c.
Proof.
  unfold toUpperCaseASCII. case_match; [|done].
  destruct (isWhiteSpace c) eqn:E1, (isWhiteSpace (c - 0x20)) eqn:E2; try done; unit_lia.
Qed.
Lemma toUpperCaseASCII_digit c : isDigit (toUpperCaseASCII c) = isDigit c.
Proof.
  unfold toUpperCaseASCII. case_match; [|done].
  destruct (isDigit c) eqn:E1, (isDigit (c - 0x20)) eqn:E2; try done; unit_lia.
Qed.
Lemma toUpperCaseASCII_space c : isSpace (toUpperCaseASCII c) = isSpace c.
Proof.
  unfold toUpperCaseASCII. case_match; [|done].
  destruct (isSpace c) eqn:E1, (isSpace (c - 0x20)) eqn:E2; try done; unit_lia.
Qed.
Lemma toUpperCaseASCII_fixed c : isWhiteSpace c || isDigit c = true → toUpperCaseASCII c = c.
Proof.
  intros H. apply orb_true_iff in H. unfold toUpperCaseASCII. case_match; [|done].
  destruct H; unit_lia.
Qed.

(** ** Trimming *)

Lemma trimStart_app l m :
  trimStart (l ++ m) = match trimStart l with [] => trimStart m | _ => trimStart l ++ m end.
Proof.
  induction l as [|c l IH]; simpl; [by destruct (trimStart m)|].
  destruct (isWhiteSpace c); [done|]. done.
Qed.

Lemma trimStart_Forall (P : N → Prop) l : Forall P l → Forall P (trimStart l).
Proof.
  induction 1 as [|c l Hc Hl IH]; simpl; [done|].
  destruct (isWhiteSpace c); [done|]. by constructor.
Qed.

Lemma trimStart_head l : match trimStart l with [] => True | c :: _ => isWhiteSpace c = false end.
Proof.
  induction l as [|c l IH]; simpl; [done|].
  destruct (isWhiteSpace c) eqn:E; [done|]. done.
Qed.

Lemma trimStart_fixed c l : isWhiteSpace c = false → trimStart (c :: l) = c :: l.
Proof. intros E. simpl. by rewrite E. Qed.

Lemma trimStart_idem l : trimStart (trimStart l) = trimStart l.
Proof.
  pose proof (trimStart_head l) as H. destruct (trimStart l) as [|c m]; [done|].
  by apply trimStart_fixed.
Qed.

Lemma trimEnd_app l m :
  trimEnd (l ++ m) = match trimEnd m with [] => trimEnd l | _ => l ++ trimEnd m end.
Proof.
  unfold trimEnd. rewrite reverse_app, trimStart_app.
  destruct (trimStart (reverse m)) as [|c k] eqn:E; [done|].
  rewrite reverse_app, reverse_involutive.
  destruct (reverse (c :: k)) eqn:E'; [|done].
  apply (f_equal reverse) in E'. rewrite reverse_involutive in E'. done.
Qed.

Lemma trimEnd_nil : trimEnd [] = [].
Proof. done. Qed.

Lemma trimEnd_Forall (P : N → Prop) l : Forall P l → Forall P (trimEnd l).
Proof.
  intros H. unfold trimEnd. apply Forall_reverse, trimStart_Forall, Forall_reverse. done.
Qed.

Lemma trimEnd_idem l : trimEnd (trimEnd l) = trimEnd l.
Proof. unfold trimEnd. by rewrite reverse_involutive, trimStart_idem. Qed.

Lemma trimEnd_cons c l : isWhiteSpace c = false → trimEnd (c :: l) = c :: trimEnd l.
Proof.
  intros E. change (c :: l) with ([c] ++ l). rewrite trimEnd_app.
  destruct (trimEnd l); [|done].
  unfold trimEnd. simpl. by rewrite E.
Qed.

Lemma trimEnd_snoc_white l w : isWhiteSpace w = true → trimEnd (l ++ [w]) = trimEnd l.
Proof.
  intros E. rewrite trimEnd_app. unfold trimEnd at 1. simpl. by rewrite E.
Qed.

Lemma trimEnd_snoc l c : isWhiteSpace c = false → trimEnd (l ++ [c]) = l ++ [c].
Proof.
  intros E. unfold trimEnd. rewrite reverse_snoc. cbn [trimStart]. rewrite E.
  by rewrite reverse_cons, reverse_involutive.
Qed.

Lemma trim_idem s : trim (trim s) = trim s.
Proof.
  unfold trim.
  assert (H : trimStart (trimEnd (trimStart s)) = trimEnd (trimStart s)).
  { pose proof (trimStart_head s) as Hh.
    destruct (trimStart s) as [|c m]; [done|].
    rewrite trimEnd_cons by done. by apply trimStart_fixed. }
  by rewrite H, trimEnd_idem.
Qed.

Lemma trim_ends s :
  match trim s with
  | [] => True
  | c :: _ => isWhiteSpace c = false
  end ∧
  match reverse (trim s) with
  | [] => True
  | c :: _ => isWhiteSpace c = false
  end.
Proof.
  split.
  - unfold trim. pose proof (trimStart_head s) as H.
    destruct (trimStart s) as [|c m]; [done|]. by rewrite trimEnd_cons.
  - unfold trim, trimEnd. rewrite reverse_involutive. apply trimStart_head.
Qed.

(** ** The two loops *)

Lemma restLoop_app code s : restLoop code s = s ++ code.
Proof.
  revert s. induction code as [|c code IH]; intros s; simpl.
  - by rewrite app_nil_r.
  - by rewrite IH, <- app_assoc.
Qed.

Lemma subjLoop_clean a b s : clean a → subjLoop (a ++ b) s = subjLoop b (s ++ a).
Proof.
  intros Ha. revert s. induction Ha as [|c a [Hd Hs] _ IH]; intros s; simpl.
  - by rewrite app_nil_r.
  - rewrite Hd, Hs, IH, <- app_assoc. done.
Qed.

Lemma subjLoop_shape code s :
  ∃ a r, subjLoop code s = (s ++ a, r) ∧ clean a ∧
         match r with [] => True | d :: _ => isDigit d = true end ∧
         (Forall (λ c, isDigit c = false) code → r = []).
Proof.
  revert s. induction code as [|c code IH]; intros s; simpl.
  - exists [], []. rewrite app_nil_r. repeat split; constructor.
  - destruct (isDigit c) eqn:Hd.
    + exists [], (c :: code). rewrite app_nil_r. repeat split; try constructor; try done.
      intros H. apply Forall_cons in H as [H _]. congruence.
    + destruct (isSpace c) eqn:Hs.
      * destruct (IH s) as (a & r & -> & Ha & Hr & Hn).
        exists a, r. repeat split; try done.
        intros H. apply Forall_cons in H as [_ H]. auto.
      * destruct (IH (s ++ [c])) as (a & r & -> & Ha & Hr & Hn).
        exists (c :: a), r. rewrite <- app_assoc. repeat split; try done.
        -- by constructor.
        -- intros H. apply Forall_cons in H as [_ H]. auto.
Qed.

Lemma subjLoop_spaces a b s :
  Forall (λ c, isDigit c = false) a →
  subjLoop (a ++ b) s = subjLoop b (s ++ List.filter (λ c, negb (isSpace c)) a).
Proof.
  intros Ha. revert s. induction Ha as [|c a Hc _ IH]; intros s; cbn.
  - by rewrite app_nil_r.
  - rewrite Hc. destruct (isSpace c); cbn; [apply IH|].
    rewrite IH, <- app_assoc. done.
Qed.

(** ** Upper case *)

Section UpperCase.
Context `{M : CaseMapping}.

Lemma toUpperCase_cons c rest :
  isHighSurrogate c && startsLow rest = false →
  toUpperCase (c :: rest) = toUpperCaseUnit c ++ toUpperCase rest.
Proof.
  intros H. cbn [toUpperCase]. destruct rest as [|l rest]; [done|].
  cbn [startsLow] in H. by rewrite H.
Qed.

Lemma toUpperCase_pair h l rest :
  isHighSurrogate h = true → isLowSurrogate l = true →
  toUpperCase (h :: l :: rest)
  = (upperAstral h l).1 :: (upperAstral h l).2 :: toUpperCase rest.
Proof. intros Hh Hl. cbn [toUpperCase]. by rewrite Hh, Hl. Qed.

(** Induction along the code points of a string. *)
Lemma code_points_ind (P : code_units → Prop) :
  P [] →
  (∀ c rest, isHighSurrogate c && startsLow rest = false → P rest → P (c :: rest)) →
  (∀ h l rest, isHighSurrogate h = true → isLowSurrogate l = true → P rest →
               P (h :: l :: rest)) →
  ∀ s, P s.
Proof.
  intros Hnil Hone Hpair s.
  assert (H : P s ∧ ∀ c, P (c :: s)); [|by destruct H].
  induction s as [|l s [IH1 IH2]].
  - split; [done|]. intros c. apply Hone; [|done]. cbn. by rewrite andb_false_r.
  - split; [apply IH2|]. intros c.
    destruct (isHighSurrogate c && isLowSurrogate l) eqn:E.
    + apply andb_true_iff in E as [Hh Hl]. by apply Hpair.
    + apply Hone; [done|]. apply IH2.
Qed.

Lemma endsHigh_cons c s : s ≠ [] → endsHigh (c :: s) = endsHigh s.
Proof. intros Hs. unfold endsHigh. destruct s; [done|]. done. Qed.

Lemma startsLow_app s t : s ≠ [] → startsLow (s ++ t) = startsLow s.
Proof. by destruct s. Qed.

(** A string can be cut between two code points. *)
Lemma toUpperCase_app x y :
  endsHigh x && startsLow y = false →
  toUpperCase (x ++ y) = toUpperCase x ++ toUpperCase y.
Proof.
  induction x as [|c rest Hc IH|h l rest Hh Hl IH] using code_points_ind; intros Hcut.
  - done.
  - destruct rest as [|c' rest'].
    + cbn [app]. rewrite !toUpperCase_cons; [by rewrite app_nil_r|done|exact Hcut].
    + rewrite <- app_comm_cons.
      rewrite !toUpperCase_cons by (rewrite ?startsLow_app by done; done).
      rewrite IH, app_assoc; [done|]. by rewrite endsHigh_cons in Hcut.
  - rewrite <- !app_comm_cons. rewrite !toUpperCase_pair by done.
    destruct rest as [|c' rest']; [done|].
    rewrite IH; [done|]. by do 2 rewrite endsHigh_cons in Hcut by done.
Qed.

Lemma toUpperCase_snoc x c :
  isLowSurrogate c = false → toUpperCase (x ++ [c]) = toUpperCase x ++ toUpperCaseUnit c.
Proof.
  intros Hc. rewrite toUpperCase_app.
  - by rewrite toUpperCase_cons, app_nil_r by by rewrite andb_false_r.
  - cbn. by rewrite Hc, andb_false_r.
Qed.

Lemma toUpperCase_middle x c y :
  isSurrogate c = false →
  toUpperCase (x ++ c :: y) = toUpperCase x ++ toUpperCaseUnit c ++ toUpperCase y.
Proof.
  intros Hc. apply not_surrogate in Hc as [Hh Hl].
  rewrite toUpperCase_app by (cbn; by rewrite Hl, andb_false_r).
  by rewrite toUpperCase_cons by by rewrite Hh.
Qed.

End UpperCase.

Section UpperCaseFacts.
Context `{M : CaseMapping} (facts : CaseMappingFacts M).

Lemma toUpperCaseUnit_fixed c :
  isWhiteSpace c || isSurrogate c || isDigit c = true → toUpperCaseUnit c = [c].
Proof.
  intros H. unfold toUpperCaseUnit. destruct (c <? 0x80)%N eqn:E.
  - apply N.ltb_lt in E. f_equal. apply toUpperCaseASCII_fixed.
    destruct (isSurrogate c) eqn:Hs.
    { apply surrogate_not_ascii in Hs. lia. }
    by rewrite orb_false_r in H.
  - apply N.ltb_ge in E. apply upperBMP_caseless; [done..|].
    destruct (isDigit c) eqn:Hd; [unit_lia|]. by rewrite orb_false_r in H.
Qed.

Lemma toUpperCaseUnit_white c : isWhiteSpace c = true → toUpperCaseUnit c = [c].
Proof. intros H. apply toUpperCaseUnit_fixed. by rewrite H. Qed.

Lemma toUpperCaseUnit_surrogate c : isSurrogate c = true → toUpperCaseUnit c = [c].
Proof. intros H. apply toUpperCaseUnit_fixed. by rewrite H, orb_true_r. Qed.

Lemma toUpperCaseUnit_digit c : isDigit c = true → toUpperCaseUnit c = [c].
Proof. intros H. apply toUpperCaseUnit_fixed. by rewrite H, orb_true_r. Qed.

(** The upper case of a code point that is neither white space nor a
    surrogate. *)
Lemma toUpperCaseUnit_cased c :
  isWhiteSpace c = false → isSurrogate c = false →
  toUpperCaseUnit c ≠ [] ∧
  Forall (λ u, isWhiteSpace u = false ∧ isSurrogate u = false ∧
               isDigit u = isDigit c ∧ toUpperCaseUnit u = [u]) (toUpperCaseUnit c).
Proof.
  intros Hw Hs. unfold toUpperCaseUnit at 1 3. destruct (c <? 0x80)%N eqn:E.
  - apply N.ltb_lt in E. split; [done|]. constructor; [|done].
    split_and!.
    + by rewrite toUpperCaseASCII_white.
    + pose proof (toUpperCaseASCII_small c E).
      destruct (isSurrogate (toUpperCaseASCII c)) eqn:Hs'; [|done].
      apply surrogate_not_ascii in Hs'. lia.
    + apply toUpperCaseASCII_digit.
    + unfold toUpperCaseUnit.
      rewrite (proj2 (N.ltb_lt _ _) (toUpperCaseASCII_small c E)).
      by rewrite toUpperCaseASCII_idem.
  - apply N.ltb_ge in E.
    destruct (upperBMP_cased facts c E) as [Hne Hall]; [by rewrite Hw, Hs|].
    split; [done|]. eapply Forall_impl; [exact Hall|].
    intros u (? & ? & Hd & ?). split_and!; try done.
    unfold isDigit. rewrite Hd. symmetry. unit_lia.
Qed.

Lemma toUpperCaseUnit_not_nil c : toUpperCaseUnit c ≠ [].
Proof.
  destruct (isWhiteSpace c || isSurrogate c) eqn:E.
  - rewrite toUpperCaseUnit_fixed; [done|]. by rewrite E.
  - apply orb_false_iff in E as [Hw Hs]. by apply toUpperCaseUnit_cased.
Qed.

(** The first and the last code unit of the upper case of a code point are a
    surrogate, or white space, when the code point is. *)
Lemma toUpperCaseUnit_ends c :
  ∃ u v mid mid', toUpperCaseUnit c = u :: mid ∧ toUpperCaseUnit c = mid' ++ [v] ∧
    isLowSurrogate u = isLowSurrogate c ∧ isHighSurrogate v = isHighSurrogate c ∧
    isWhiteSpace u = isWhiteSpace c ∧ isWhiteSpace v = isWhiteSpace c.
Proof.
  destruct (isWhiteSpace c || isSurrogate c) eqn:E.
  - exists c, c, [], []. rewrite toUpperCaseUnit_fixed; [done|]. by rewrite E.
  - apply orb_false_iff in E as [Hw Hs].
    destruct (toUpperCaseUnit_cased c Hw Hs) as [Hne Hall].
    destruct (toUpperCaseUnit c) as [|u mid] eqn:Eu; [done|].
    assert (Hlast : is_Some (last (u :: mid))) by by apply last_is_Some.
    destruct Hlast as [v Hv]. apply last_Some in Hv as [mid' Hv].
    exists u, v, mid, mid'. split; [done|]. split; [done|].
    pose proof (not_surrogate c Hs) as [Hh Hl].
    assert (Hu := proj1 (Forall_cons _ _ _) Hall). destruct Hu as [(Huw & Hus & _) _].
    rewrite Hv in Hall. apply Forall_app in Hall as [_ Hvv].
    apply Forall_cons in Hvv as [(Hvw & Hvs & _) _].
    apply not_surrogate in Hus as [_ ->]. apply not_surrogate in Hvs as [-> _].
    by rewrite Hh, Hl, Huw, Hvw, Hw.
Qed.

Lemma toUpperCase_starts c rest :
  ∃ u tail, toUpperCase (c :: rest) = u :: tail ∧
    isLowSurrogate u = isLowSurrogate c ∧ isWhiteSpace u = isWhiteSpace c.
Proof.
  destruct (isHighSurrogate c && startsLow rest) eqn:E.
  - apply andb_true_iff in E as [Hh Hl]. destruct rest as [|l rest]; [done|].
    cbn [startsLow] in Hl. rewrite toUpperCase_pair by done.
    destruct (upperAstral_pair facts c l Hh Hl) as (Hh' & _ & _).
    eexists _, _. split; [done|].
    rewrite (high_not_low _ Hh), (high_not_low _ Hh').
    by rewrite !surrogate_not_white by by apply high_surrogate.
  - rewrite toUpperCase_cons by done.
    destruct (toUpperCaseUnit_ends c) as (u & v & mid & mid' & -> & _ & Hl & _ & Hw & _).
    by eexists _, _.
Qed.

Lemma startsLow_toUpperCase s : startsLow (toUpperCase s) = startsLow s.
Proof.
  destruct s as [|c rest]; [done|].
  destruct (toUpperCase_starts c rest) as (u & tail & -> & Hl & _). done.
Qed.

Lemma toUpperCase_nil s : toUpperCase s = [] → s = [].
Proof.
  destruct s as [|c rest]; [done|].
  destruct (toUpperCase_starts c rest) as (u & tail & -> & _). done.
Qed.

Lemma toUpperCase_ends x c :
  ∃ front v, toUpperCase (x ++ [c]) = front ++ [v] ∧
    isHighSurrogate v = isHighSurrogate c ∧ isWhiteSpace v = isWhiteSpace c.
Proof.
  destruct (endsHigh x && isLowSurrogate c) eqn:E.
  - apply andb_true_iff in E as [Hh Hl]. unfold endsHigh in Hh.
    destruct (last x) as [h|] eqn:Hlast; [|done].
    apply last_Some in Hlast as [x' ->].
    rewrite <- app_assoc. cbn [app].
    rewrite toUpperCase_app by (cbn; by rewrite (high_not_low _ Hh), andb_false_r).
    rewrite toUpperCase_pair by done. cbn [toUpperCase].
    destruct (upperAstral_pair facts h c Hh Hl) as (_ & Hl' & _).
    exists (toUpperCase x' ++ [(upperAstral h c).1]), (upperAstral h c).2.
    split; [by rewrite <- app_assoc|].
    rewrite (low_not_high _ Hl), (low_not_high _ Hl').
    by rewrite !surrogate_not_white by by apply low_surrogate.
  - rewrite toUpperCase_app by (cbn; done).
    rewrite toUpperCase_cons, app_nil_r by by rewrite andb_false_r.
    destruct (toUpperCaseUnit_ends c) as (u & v & mid & mid' & _ & -> & _ & Hh & _ & Hw).
    exists (toUpperCase x ++ mid'), v. by rewrite app_assoc.
Qed.

Lemma endsHigh_toUpperCase s : endsHigh (toUpperCase s) = endsHigh s.
Proof.
  destruct s as [|c s _] using rev_ind; [done|].
  destruct (toUpperCase_ends s c) as (front & v & -> & Hh & _).
  unfold endsHigh. by rewrite !last_snoc.
Qed.

(** A string whose code units are their own upper case. *)
Lemma toUpperCase_fixed s :
  Forall (λ u, isSurrogate u = false ∧ toUpperCaseUnit u = [u]) s → toUpperCase s = s.
Proof.
  induction 1 as [|u s [Hs Hu] _ IH]; [done|].
  apply not_surrogate in Hs as [Hh _].
  by rewrite toUpperCase_cons, Hu, IH by by rewrite Hh.
Qed.

Lemma toUpperCaseUnit_idem c : toUpperCase (toUpperCaseUnit c) = toUpperCaseUnit c.
Proof.
  destruct (isWhiteSpace c || isSurrogate c) eqn:E.
  - assert (Hc : toUpperCaseUnit c = [c]) by (apply toUpperCaseUnit_fixed; by rewrite E).
    rewrite Hc. rewrite toUpperCase_cons by by rewrite andb_false_r.
    by rewrite Hc.
  - apply orb_false_iff in E as [Hw Hs].
    destruct (toUpperCaseUnit_cased c Hw Hs) as [_ Hall].
    apply toUpperCase_fixed. eapply Forall_impl; [exact Hall|]. by intros u (_ & ? & _ & ?).
Qed.

Lemma endsHigh_toUpperCaseUnit c : endsHigh (toUpperCaseUnit c) = isHighSurrogate c.
Proof.
  destruct (toUpperCaseUnit_ends c) as (u & v & mid & mid' & _ & -> & _ & Hh & _).
  unfold endsHigh. by rewrite last_snoc.
Qed.

(** [toUpperCase] is idempotent. *)
Lemma toUpperCase_idem s : toUpperCase (toUpperCase s) = toUpperCase s.
Proof.
  induction s as [|c rest Hc IH|h l rest Hh Hl IH] using code_points_ind.
  - done.
  - rewrite toUpperCase_cons by done.
    rewrite toUpperCase_app.
    + by rewrite toUpperCaseUnit_idem, IH.
    + by rewrite endsHigh_toUpperCaseUnit, startsLow_toUpperCase.
  - rewrite toUpperCase_pair by done.
    destruct (upperAstral_pair facts h l Hh Hl) as (Hh' & Hl' & Hfix).
    rewrite toUpperCase_pair by done. by rewrite Hfix, IH.
Qed.

(** What holds of every code unit of the upper case of a string. *)
Lemma toUpperCase_Forall (P Q : N → Prop) (s : code_units) :
  (∀ c, Q c → Forall P (toUpperCaseUnit c)) →
  (∀ c, isSurrogate c = true → P c) →
  Forall Q s → Forall P (toUpperCase s).
Proof.
  intros Hunit Hsurrogate.
  induction s as [|c rest Hc IH|h l rest Hh Hl IH] using code_points_ind; intros Hs.
  - done.
  - apply Forall_cons in Hs as [Hq Hs].
    rewrite toUpperCase_cons by done. apply Forall_app. split; [by apply Hunit|by apply IH].
  - apply Forall_cons in Hs as [_ Hs]. apply Forall_cons in Hs as [_ Hs].
    rewrite toUpperCase_pair by done.
    destruct (upperAstral_pair facts h l Hh Hl) as (Hh' & Hl' & _).
    constructor; [by apply Hsurrogate, high_surrogate|].
    constructor; [by apply Hsurrogate, low_surrogate|]. by apply IH.
Qed.

Lemma toUpperCase_clean s : clean s → clean (toUpperCase s).
Proof.
  apply toUpperCase_Forall.
  - intros c [Hd Hs].
    destruct (isWhiteSpace c || isSurrogate c) eqn:E.
    + rewrite toUpperCaseUnit_fixed by by rewrite E. by constructor.
    + apply orb_false_iff in E as [Hw Hsu].
      destruct (toUpperCaseUnit_cased c Hw Hsu) as [_ Hall].
      eapply Forall_impl; [exact Hall|]. intros u (Huw & _ & Hud & _).
      split; [congruence|]. destruct (isSpace u) eqn:E; [|done].
      apply isSpace_white in E. congruence.
  - intros c Hc. split; [by apply surrogate_not_digit|].
    destruct (isSpace c) eqn:E; [|done]. apply isSpace_white in E.
    by rewrite surrogate_not_white in E.
Qed.

(** ** Upper case and trimming *)

Lemma trimStart_toUpperCase s : trimStart (toUpperCase s) = toUpperCase (trimStart s).
Proof.
  induction s as [|c rest IH]; [done|].
  cbn [trimStart]. destruct (isWhiteSpace c) eqn:Hw.
  - pose proof (white_not_surrogate c Hw) as Hs. apply not_surrogate in Hs as [Hh _].
    rewrite toUpperCase_cons by by rewrite Hh.
    rewrite toUpperCaseUnit_white by done. cbn [app trimStart]. by rewrite Hw.
  - destruct (toUpperCase_starts c rest) as (u & tail & -> & _ & Hu).
    apply trimStart_fixed. congruence.
Qed.

Lemma trimEnd_toUpperCase s : trimEnd (toUpperCase s) = toUpperCase (trimEnd s).
Proof.
  induction s as [|c s IH] using rev_ind; [done|].
  destruct (isWhiteSpace c) eqn:Hw.
  - pose proof (white_not_surrogate c Hw) as Hs. apply not_surrogate in Hs as [_ Hl].
    rewrite toUpperCase_snoc by done. rewrite toUpperCaseUnit_white by done.
    by rewrite !trimEnd_snoc_white.
  - rewrite (trimEnd_snoc s c Hw).
    destruct (toUpperCase_ends s c) as (front & v & -> & _ & Hv).
    apply trimEnd_snoc. congruence.
Qed.

Lemma trim_toUpperCase s : trim (toUpperCase s) = toUpperCase (trim s).
Proof. unfold trim. by rewrite trimStart_toUpperCase, trimEnd_toUpperCase. Qed.

End UpperCaseFacts.

(** ** The sample of the table *)

Lemma sampleCaseMapping_facts : CaseMappingFacts sampleCaseMapping.
Proof.
  split.
  - intros c Hc H. cbn. unfold sampleUpperBMP.
    repeat case_match; try done; exfalso; unit_lia.
  - intros c Hc H. apply orb_false_iff in H as [Hw Hs].
    cbn [upperBMP sampleCaseMapping]. unfold sampleUpperBMP.
    assert (Hunit : ∀ u, isWhiteSpace u = false → isSurrogate u = false →
              isASCIIDigit u = false →
              (if (u <? 0x80)%N then toUpperCaseASCII u = u else sampleUpperBMP u = [u]) →
              isWhiteSpace u = false ∧ isSurrogate u = false ∧ isASCIIDigit u = false ∧
              toUpperCaseUnit (M := sampleCaseMapping) u = [u]).
    { intros u ? ? ? Hu. split_and!; try done. unfold toUpperCaseUnit.
      destruct (u <? 0x80)%N; [by rewrite Hu|done]. }
    destruct (c =? 0xDF)%N eqn:E1.
    { split; [done|]. by repeat constructor. }
    destruct (c =? 0xFF)%N eqn:E2.
    { split; [done|]. by repeat constructor. }
    destruct ((0xE0 <=? c) && (c <=? 0xFE) && negb (c =? 0xF7))%N eqn:E3.
    + split; [done|]. constructor; [|done]. apply Hunit.
      * unit_lia.
      * unit_lia.
      * unit_lia.
      * unfold sampleUpperBMP. repeat case_match; try done; exfalso; unit_lia.
    + split; [done|]. constructor; [|done]. apply Hunit; try done.
      * unit_lia.
      * unfold sampleUpperBMP. rewrite E1, E2, E3.
        destruct (c <? 0x80)%N eqn:E4; [|done]. exfalso. unit_lia.
  - intros h l Hh Hl. cbn. unfold sampleUpperAstral.
    destruct ((h =? 0xD801) && (0xDC28 <=? l) && (l <=? 0xDC4F))%N eqn:E; cbn [fst snd].
    + split_and!; [done|unit_lia|].
      destruct ((h =? 0xD801) && (0xDC28 <=? l - 0x28) && (l - 0x28 <=? 0xDC4F))%N eqn:E';
        [|done].
      exfalso. unit_lia.
    + by rewrite E.
Qed.

(** ** The parser *)

Section Parser.
Context `{M : CaseMapping} (facts : CaseMappingFacts M).

(** The string that the two loops build, before it is put in upper case and
    trimmed. *)
Lemma parseCourseSubjCode_loops code :
  ∃ a r, subjLoop code [] = (a, r) ∧
         parseCourseSubjCode code = trim (toUpperCase a ++ 0x20%N :: toUpperCase r) ∧
         clean a ∧
         match r with [] => True | d :: _ => isDigit d = true end ∧
         (Forall (λ c, isDigit c = false) code → r = []).
Proof.
  unfold parseCourseSubjCode.
  destruct (subjLoop_shape code []) as (a & r & -> & Ha & Hr & Hn).
  exists a, r. cbn [app]. split_and!; try done.
  rewrite restLoop_app, <- app_assoc. change (lit " " ++ r) with (0x20%N :: r).
  rewrite (toUpperCase_middle a 0x20 r) by done.
  by rewrite (toUpperCaseUnit_white facts 0x20) by done.
Qed.

Lemma toUpperCase_digit d e :
  isDigit d = true → toUpperCase (d :: e) = d :: toUpperCase e.
Proof.
  intros Hd. pose proof (isDigit_not_surrogate d Hd) as Hs.
  apply not_surrogate in Hs as [Hh _].
  by rewrite toUpperCase_cons, (toUpperCaseUnit_digit facts d Hd) by by rewrite Hh.
Qed.

Lemma toUpperCase_space e : toUpperCase (0x20%N :: e) = 0x20%N :: toUpperCase e.
Proof. by rewrite toUpperCase_cons, (toUpperCaseUnit_white facts 0x20) by done. Qed.

(** The result of [s.toUpperCase().trim()] is in upper case. *)
Lemma upper_trim_toUpperCase s : upper (trim (toUpperCase s)).
Proof.
  unfold upper. by rewrite <- (trim_toUpperCase facts), (toUpperCase_idem facts).
Qed.

Lemma trim_snoc_space a : trim (a ++ [0x20%N]) = trim a.
Proof.
  unfold trim. rewrite trimStart_app.
  destruct (trimStart a) as [|c m] eqn:E; [done|].
  cbv beta iota. by rewrite trimEnd_snoc_white.
Qed.

Lemma trim_subject_number a d e :
  isDigit d = true →
  trim (a ++ 0x20%N :: d :: e)
  = match trimStart a with
    | [] => d :: trimEnd e
    | _ => trimStart a ++ 0x20%N :: d :: trimEnd e
    end.
Proof.
  intros Hd. pose proof (isDigit_not_white d Hd) as Hw.
  unfold trim. rewrite trimStart_app.
  destruct (trimStart a) as [|c m] eqn:E.
  - cbn [trimStart]. rewrite white_space, Hw. by apply trimEnd_cons.
  - cbv beta iota. rewrite trimEnd_app.
    change (0x20%N :: d :: e) with ([0x20%N] ++ d :: e).
    rewrite (trimEnd_app [0x20%N] (d :: e)).
    rewrite (trimEnd_cons d) by done. done.
Qed.

Lemma parseCourseSubjCode_normal code : normal (parseCourseSubjCode code).
Proof.
  destruct (parseCourseSubjCode_loops code) as (a & r & _ & Heq & Ha & Hr & _).
  pose proof (upper_trim_toUpperCase (a ++ 0x20%N :: r)) as Hup.
  rewrite (toUpperCase_middle a 0x20 r), (toUpperCaseUnit_white facts 0x20) in Hup by done.
  cbn [app] in Hup. rewrite Heq. clear Heq.
  apply (toUpperCase_clean facts) in Ha.
  set (a' := toUpperCase a) in *.
  destruct r as [|d r].
  - cbn [toUpperCase] in *. rewrite trim_snoc_space in *.
    apply normal_subject; [|done|apply trim_idem].
    by apply trimEnd_Forall, trimStart_Forall.
  - rewrite (toUpperCase_digit d r Hr) in *.
    rewrite (trim_subject_number a' d _ Hr) in *.
    pose proof (trimStart_Forall _ _ Ha) as Ha'.
    pose proof (trimStart_idem a') as Hi.
    destruct (trimStart a') as [|c m] eqn:E.
    + apply normal_number; [done|done|apply trimEnd_idem].
    + apply normal_both; try done. apply trimEnd_idem.
Qed.

Lemma normal_trimmed r : normal r → trim r = r.
Proof.
  destruct 1 as [a Ha Hu Ht | d e Hd Hu He | a d e Ha Hne Hs Hd Hu He]; [done| |].
  - unfold trim. cbn [trimStart]. rewrite (isDigit_not_white _ Hd).
    rewrite trimEnd_cons by by apply isDigit_not_white. by rewrite He.
  - rewrite trim_subject_number by done. rewrite Hs, He. by destruct a.
Qed.

Lemma normal_upper r : normal r → toUpperCase r = r.
Proof. by destruct 1. Qed.

Lemma normal_fixed r : normal r → parseCourseSubjCode r = r.
Proof.
  intros Hn. pose proof (normal_trimmed r Hn) as Htrim.
  pose proof (normal_upper r Hn) as Hupper.
  unfold parseCourseSubjCode.
  destruct Hn as [a Ha Hu Ht | d e Hd Hu He | a d e Ha Hne Hs Hd Hu He].
  - replace a with (a ++ []) at 1 by apply app_nil_r.
    rewrite subjLoop_clean by done. cbn [subjLoop restLoop app].
    change (lit " ") with [0x20%N].
    rewrite toUpperCase_snoc, (toUpperCaseUnit_white facts 0x20), Hupper by done.
    by rewrite trim_snoc_space.
  - cbn [subjLoop]. rewrite Hd. rewrite restLoop_app. cbn [app].
    change (lit " " ++ d :: e) with (0x20%N :: d :: e).
    rewrite toUpperCase_space, Hupper.
    unfold trim in *. cbn [trimStart] in *. by rewrite white_space.
  - rewrite subjLoop_clean by done. cbn [subjLoop app].
    change (isDigit 0x20%N) with false. change (isSpace 0x20%N) with true.
    cbv iota. rewrite Hd.
    rewrite restLoop_app, <- app_assoc. change (lit " " ++ d :: e) with (0x20%N :: d :: e).
    by rewrite Hupper.
Qed.

Lemma no_digit_no_space code :
  Forall (λ c, isDigit c = false) code →
  Forall (λ c, isSpace c = false) (parseCourseSubjCode code).
Proof.
  intros Hn.
  destruct (parseCourseSubjCode_loops code) as (a & r & _ & -> & Ha & _ & Hr).
  rewrite (Hr Hn). cbn [toUpperCase]. rewrite trim_snoc_space.
  apply trimEnd_Forall, trimStart_Forall.
  eapply Forall_impl; [exact (toUpperCase_clean facts a Ha)|]. by intros c [_ ?].
Qed.

(** C10: the result of [parseCourseSubjCode] is in upper case and neither
    starts nor ends with white space; parsing a result again gives it back;
    and when the input has no decimal digit the result has no space
    character. *)
Theorem parseCourseSubjCode_normal_form (code : code_units) :
  let r := parseCourseSubjCode code in
  toUpperCase r = r ∧
  (∀ c, head r = Some c → isWhiteSpace c = false) ∧
  (∀ c, last r = Some c → isWhiteSpace c = false) ∧
  parseCourseSubjCode (parseCourseSubjCode code) = parseCourseSubjCode code ∧
  (Forall (λ c, isDigit c = false) code → Forall (λ c, c ≠ 0x20%N) r).
Proof.
  cbv zeta. pose proof (parseCourseSubjCode_normal code) as Hn.
  split_and!.
  - by apply normal_upper.
  - intros c Hc. rewrite <- (normal_trimmed _ Hn) in Hc.
    pose proof (trim_ends (parseCourseSubjCode code)) as [H _].
    destruct (trim _); [done|]. simpl in Hc. by injection Hc as <-.
  - intros c Hc. rewrite <- (normal_trimmed _ Hn) in Hc.
    pose proof (trim_ends (parseCourseSubjCode code)) as [_ H].
    rewrite <- head_reverse in Hc.
    destruct (reverse (trim _)); [done|]. simpl in Hc. by injection Hc as <-.
  - by rewrite normal_fixed.
  - intros Hd. eapply Forall_impl; [by apply no_digit_no_space|].
    intros c Hc ->. done.
Qed.

End Parser.

Lemma parseCourseSubjCode_normal_form_witness :
  let code := [0xA0; 0xE9; 0x63; 0x20; 0x6F; 0x6C; 0x65; 0x20]%N in
  let r := parseCourseSubjCode (M := sampleCaseMapping) code in
  r = [0xC9; 0x43; 0x4F; 0x4C; 0x45]%N ∧
  toUpperCase (M := sampleCaseMapping) r = r ∧
  parseCourseSubjCode (M := sampleCaseMapping) r = r ∧
  Forall (λ c, c ≠ 0x20%N) r.
Proof.
  intros code r.
  destruct (parseCourseSubjCode_normal_form sampleCaseMapping_facts code)
    as (Hupper & _ & _ & Hidem & Hspace).
  split_and!; [reflexivity|exact Hupper|exact Hidem|].
  apply Hspace. repeat constructor.
Defined.

Example parseCourseSubjCode_cse100 :
  parseCourseSubjCode (M := sampleCaseMapping) (lit "cse 100") = lit "CSE 100".
Proof. reflexivity. Qed.
Example parseCourseSubjCode_math100a :
  parseCourseSubjCode (M := sampleCaseMapping) (lit "  math100a ") = lit "MATH 100A".
Proof. reflexivity. Qed.
Example parseCourseSubjCode_no_digit :
  parseCourseSubjCode (M := sampleCaseMapping) (lit " c s e ") = lit "CSE".
Proof. reflexivity. Qed.
(** U+00E9 becomes U+00C9, a no-break space at the start is trimmed, and
    U+00DF becomes "SS". *)
Example parseCourseSubjCode_latin1 :
  parseCourseSubjCode (M := sampleCaseMapping) (0xE9%N :: lit "cole 1")
  = 0xC9%N :: lit "COLE 1" ∧
  parseCourseSubjCode (M := sampleCaseMapping) (0xA0%N :: lit "cse 100") = lit "CSE 100" ∧
  parseCourseSubjCode (M := sampleCaseMapping) (0xA0%N :: lit "100") = lit "100" ∧
  parseCourseSubjCode (M := sampleCaseMapping) [0xDF%N] = lit "SS".
Proof. by split_and!. Qed.
(** A space between the two halves of a surrogate pair is left out by the
    first loop, and the pair is then mapped as one code point. *)
Example parseCourseSubjCode_surrogates :
  parseCourseSubjCode (M := sampleCaseMapping) [0xD801; 0x20; 0xDC28]%N
  = [0xD801; 0xDC00]%N.
Proof. reflexivity. Qed.

(** ** The parser: further properties *)

Section ParserMore.
Context `{M : CaseMapping} (facts : CaseMappingFacts M).

(** Two strings with the same upper case have the same upper case after the
    same string, and before it. *)
Lemma toUpperCase_after_unit c z z' :
  toUpperCase z = toUpperCase z' → toUpperCase (c :: z) = toUpperCase (c :: z').
Proof.
  intros Hz.
  assert (Hlow : startsLow z = startsLow z').
  { by rewrite <- (startsLow_toUpperCase facts z), Hz, (startsLow_toUpperCase facts). }
  destruct (isHighSurrogate c && startsLow z) eqn:E.
  - apply andb_true_iff in E as [Hh Hl]. rewrite Hl in Hlow.
    destruct z as [|l z]; [done|]. destruct z' as [|l' z']; [done|].
    cbn [startsLow] in Hl, Hlow.
    rewrite !toUpperCase_cons in Hz by by rewrite low_not_high.
    rewrite !(toUpperCaseUnit_surrogate facts) in Hz by by apply low_surrogate.
    injection Hz as <- Hz. rewrite !toUpperCase_pair by done. by rewrite Hz.
  - rewrite !toUpperCase_cons by (by rewrite <- ?Hlow). by rewrite Hz.
Qed.

Lemma toUpperCase_after g z z' :
  toUpperCase z = toUpperCase z' → toUpperCase (g ++ z) = toUpperCase (g ++ z').
Proof.
  intros Hz. induction g as [|c g IH]; [done|]. by apply toUpperCase_after_unit.
Qed.

Lemma toUpperCase_before x x' y :
  toUpperCase x = toUpperCase x' → toUpperCase (x ++ y) = toUpperCase (x' ++ y).
Proof.
  intros Hx.
  assert (Hhigh : endsHigh x = endsHigh x').
  { by rewrite <- (endsHigh_toUpperCase facts x), Hx, (endsHigh_toUpperCase facts). }
  destruct (endsHigh x && startsLow y) eqn:E.
  - apply andb_true_iff in E as [Hh Hl]. rewrite Hh in Hhigh. unfold endsHigh in Hh, Hhigh.
    destruct (last x) as [h|] eqn:Hlast; [|done].
    destruct (last x') as [h'|] eqn:Hlast'; [|done].
    apply last_Some in Hlast as [x0 ->]. apply last_Some in Hlast' as [x0' ->].
    rewrite !toUpperCase_snoc in Hx by by apply high_not_low.
    rewrite !(toUpperCaseUnit_surrogate facts) in Hx by by apply high_surrogate.
    apply app_inj_tail in Hx as [Hx <-].
    rewrite <- !app_assoc. cbn [app].
    rewrite !(toUpperCase_app _ (h :: y))
      by (cbn [startsLow]; by rewrite (high_not_low h), andb_false_r).
    by rewrite Hx.
  - rewrite !toUpperCase_app by (by rewrite <- ?Hhigh). by rewrite Hx.
Qed.

Lemma filter_toUpperCaseUnit c :
  isSpace c = false →
  List.filter (λ u, negb (isSpace u)) (toUpperCaseUnit c) = toUpperCaseUnit c.
Proof.
  intros Hc. destruct (isWhiteSpace c || isSurrogate c) eqn:E.
  - rewrite (toUpperCaseUnit_fixed facts c) by by rewrite E. cbn. by rewrite Hc.
  - apply orb_false_iff in E as [Hw Hs].
    destruct (toUpperCaseUnit_cased facts c Hw Hs) as [_ Hall].
    induction Hall as [|u l (Hu & _) _ IH]; [done|]. cbn.
    destruct (isSpace u) eqn:Hsp; [|cbn; by rewrite IH].
    apply isSpace_white in Hsp. congruence.
Qed.

Lemma surrogate_not_space c : isSurrogate c = true → isSpace c = false.
Proof. unit_lia. Qed.

(** Upper case before or after the spaces are left out. *)
Lemma toUpperCase_filter_space s :
  toUpperCase (List.filter (λ u, negb (isSpace u)) (toUpperCase s))
  = toUpperCase (List.filter (λ u, negb (isSpace u)) s).
Proof.
  induction s as [|c rest Hc IH|h l rest Hh Hl IH] using code_points_ind.
  - done.
  - rewrite toUpperCase_cons by done. rewrite List.filter_app.
    cbn [List.filter]. destruct (isSpace c) eqn:Hsp; cbn [negb].
    + rewrite (toUpperCaseUnit_white facts c) by by apply isSpace_white.
      cbn [List.filter]. by rewrite Hsp.
    + rewrite filter_toUpperCaseUnit by done.
      rewrite (toUpperCase_after _ _ _ IH).
      apply (toUpperCase_before (toUpperCaseUnit c) [c]).
      rewrite (toUpperCaseUnit_idem facts).
      by rewrite toUpperCase_cons, app_nil_r by by rewrite andb_false_r.
  - rewrite toUpperCase_pair by done.
    destruct (upperAstral_pair facts h l Hh Hl) as (Hh' & Hl' & Hfix).
    cbn [List.filter].
    rewrite (surrogate_not_space h), (surrogate_not_space (upperAstral h l).1)
      by by apply high_surrogate.
    rewrite (surrogate_not_space l), (surrogate_not_space (upperAstral h l).2)
      by by apply low_surrogate.
    cbn [negb]. rewrite !toUpperCase_pair by done. by rewrite Hfix, IH.
Qed.

(** The input cut before its first digit. *)
Lemma parseCourseSubjCode_cut pre r :
  Forall (λ c, isDigit c = false) pre →
  match r with [] => True | d :: _ => isDigit d = true end →
  parseCourseSubjCode (pre ++ r)
  = trim (toUpperCase (List.filter (λ u, negb (isSpace u)) pre)
          ++ 0x20%N :: toUpperCase r).
Proof.
  intros Hpre Hr. unfold parseCourseSubjCode.
  rewrite (subjLoop_spaces pre r [] Hpre). cbn [app].
  assert (Hloop : subjLoop r (List.filter (λ u, negb (isSpace u)) pre)
                  = (List.filter (λ u, negb (isSpace u)) pre, r)).
  { destruct r as [|d r]; [done|]. cbn [subjLoop]. by rewrite Hr. }
  rewrite Hloop, restLoop_app, <- app_assoc. change (lit " " ++ r) with (0x20%N :: r).
  rewrite toUpperCase_middle by done.
  by rewrite (toUpperCaseUnit_white facts 0x20) by done.
Qed.

Lemma first_digit code :
  ∃ pre r, code = pre ++ r ∧ Forall (λ c, isDigit c = false) pre ∧
           match r with [] => True | d :: _ => isDigit d = true end.
Proof.
  induction code as [|c code (pre & r & -> & Hpre & Hr)].
  - by exists [], [].
  - destruct (isDigit c) eqn:Hc.
    + by exists [], (c :: pre ++ r).
    + exists (c :: pre), r. split_and!; try done. by constructor.
Qed.

Lemma toUpperCase_no_digit (s : code_units) :
  Forall (λ c, isDigit c = false) s → Forall (λ c, isDigit c = false) (toUpperCase s).
Proof.
  apply (toUpperCase_Forall facts).
  - intros c Hc. destruct (isWhiteSpace c || isSurrogate c) eqn:E.
    + rewrite (toUpperCaseUnit_fixed facts c) by by rewrite E. by constructor.
    + apply orb_false_iff in E as [Hw Hs].
      destruct (toUpperCaseUnit_cased facts c Hw Hs) as [_ Hall].
      eapply Forall_impl; [exact Hall|]. intros u (_ & _ & Hd & _). congruence.
  - apply surrogate_not_digit.
Qed.

(** X20: [parseCourseSubjCode] does not see letter case, nor the spaces
    before the first digit: the input in upper case, and the input with any
    of the spaces before its first digit left out, have the same result. *)
Theorem parseCourseSubjCode_insensitive (code : code_units) :
  parseCourseSubjCode (toUpperCase code) = parseCourseSubjCode code ∧
  ∀ a b, code = a ++ b → Forall (λ c, isDigit c = false) a →
         parseCourseSubjCode (List.filter (λ c, negb (isSpace c)) a ++ b)
         = parseCourseSubjCode code.
Proof.
  split.
  - destruct (first_digit code) as (pre & r & -> & Hpre & Hr).
    assert (Hcut : endsHigh pre && startsLow r = false).
    { destruct r as [|d r]; cbn [startsLow]; [apply andb_false_r|].
      pose proof (isDigit_not_surrogate d Hr) as Hs. apply not_surrogate in Hs as [_ ->].
      apply andb_false_r. }
    rewrite toUpperCase_app by done.
    rewrite !parseCourseSubjCode_cut; try done.
    + by rewrite toUpperCase_filter_space, (toUpperCase_idem facts).
    + by apply toUpperCase_no_digit.
    + destruct r as [|d r]; [done|]. by rewrite (toUpperCase_digit facts).
  - intros a b -> Ha. unfold parseCourseSubjCode.
    rewrite (subjLoop_spaces a b [] Ha).
    assert (Hclean : Forall (λ c, isDigit c = false)
                       (List.filter (λ c, negb (isSpace c)) a)).
    { apply Forall_forall. intros c Hc. apply list_elem_of_In, List.filter_In in Hc as [Hc _].
      apply list_elem_of_In in Hc. by apply (proj1 (Forall_forall _ _) Ha). }
    rewrite (subjLoop_spaces _ b [] Hclean).
    assert (Hidem : List.filter (λ c, negb (isSpace c))
                      (List.filter (λ c, negb (isSpace c)) a)
                    = List.filter (λ c, negb (isSpace c)) a).
    { clear. induction a as [|c a IH]; [done|]. cbn.
      destruct (isSpace c) eqn:Hc; cbn; [done|]. by rewrite Hc, IH. }
    by rewrite Hidem.
Qed.

(** X21: an input made of a subject, with or without spaces in it and after
    it, and of a number that starts with a digit and does not end with white
    space, is parsed to the subject and the number in upper case with one
    space between them. *)
Theorem parseCourseSubjCode_canonical (spaced subj num : code_units) :
  List.filter (λ c, negb (isSpace c)) spaced = subj →
  subj ≠ [] →
  Forall (λ c, isDigit c = false ∧ isWhiteSpace c = false) subj →
  match num with d :: _ => isDigit d = true | [] => False end →
  trimEnd num = num →
  parseCourseSubjCode (spaced ++ num) = toUpperCase subj ++ lit " " ++ toUpperCase num ∧
  toUpperCase subj ≠ [] ∧
  match toUpperCase num with d :: _ => isDigit d = true | [] => False end.
Proof.
  intros Hsubj Hne Hclean Hnum Hend. split_and!.
  2: { intros E. by apply (toUpperCase_nil facts) in E. }
  2: { destruct num as [|d e]; [done|]. by rewrite (toUpperCase_digit facts). }
  change (lit " " ++ toUpperCase num) with (0x20%N :: toUpperCase num).
  assert (Hspaced : Forall (λ c, isDigit c = false) spaced).
  { apply Forall_forall. intros c Hc.
    destruct (isSpace c) eqn:Hs.
    - destruct (isDigit c) eqn:Hd; [|done]. by rewrite (isDigit_not_space c Hd) in Hs.
    - assert (Hin : c ∈ subj).
      { subst subj. apply list_elem_of_In, List.filter_In. split.
        - by apply list_elem_of_In.
        - by rewrite Hs. }
      by destruct (proj1 (Forall_forall _ _) Hclean c Hin). }
  destruct num as [|d e]; [done|].
  rewrite parseCourseSubjCode_cut, Hsubj by done.
  rewrite (toUpperCase_digit facts d e Hnum).
  rewrite trim_subject_number by done.
  rewrite (trimStart_toUpperCase facts), (trimEnd_toUpperCase facts).
  rewrite trimEnd_cons in Hend by by apply isDigit_not_white.
  injection Hend as ->.
  destruct subj as [|c subj]; [done|].
  apply Forall_cons in Hclean as [[_ Hw] _].
  rewrite (trimStart_fixed c subj Hw).
  destruct (toUpperCase (c :: subj)) eqn:E; [|done].
  by apply (toUpperCase_nil facts) in E.
Qed.

End ParserMore.

Lemma parseCourseSubjCode_insensitive_witness :
  parseCourseSubjCode (M := sampleCaseMapping)
    (toUpperCase (M := sampleCaseMapping) (0xE9%N :: lit "cole 1a"))
  = parseCourseSubjCode (M := sampleCaseMapping) (0xE9%N :: lit "cole 1a") ∧
  parseCourseSubjCode (M := sampleCaseMapping) (lit "cse" ++ lit "100")
  = parseCourseSubjCode (M := sampleCaseMapping) (lit "c s e 100").
Proof.
  split.
  - apply (parseCourseSubjCode_insensitive sampleCaseMapping_facts).
  - apply (proj2 (parseCourseSubjCode_insensitive sampleCaseMapping_facts (lit "c s e 100"))
             (lit "c s e ") (lit "100")).
    + reflexivity.
    + repeat constructor.
Defined.

Lemma parseCourseSubjCode_canonical_witness :
  parseCourseSubjCode (M := sampleCaseMapping) (0xE9%N :: lit " c o l e 100a")
  = 0xC9%N :: lit "COLE 100A".
Proof.
  refine (proj1 (parseCourseSubjCode_canonical sampleCaseMapping_facts
                   (0xE9%N :: lit " c o l e ") (0xE9%N :: lit "cole") (lit "100a") _ _ _ _ _)).
  - reflexivity.
  - discriminate.
  - repeat constructor.
  - reflexivity.
  - reflexivity.
Defined.

(** ** The command [GetOverallEnroll] of Help.ts *)

Lemma sameUnits_eq a b : sameUnits a b = true ↔ a = b.
Proof. unfold sameUnits. apply bool_decide_eq_true. Qed.

Lemma sameUnits_neq a b : sameUnits a b = false ↔ a ≠ b.
Proof. unfold sameUnits. apply bool_decide_eq_false. Qed.

Lemma removeFirst_suffix pattern l :
  pattern ≠ [] →
  (∀ k, k `suffix_of` l → k ≠ [] → ¬ pattern `prefix_of` k ++ pattern) →
  removeFirst pattern (l ++ pattern) = l.
Proof.
  intros Hne. induction l as [|c l IH]; intros Hfree.
  - destruct pattern as [|p pattern]; [done|]. cbn [app removeFirst].
    rewrite bool_decide_eq_true_2 by done. cbn [length drop]. by rewrite drop_all.
  - cbn [app removeFirst]. rewrite bool_decide_eq_false_2.
    + f_equal. apply IH. intros k Hk. apply Hfree. by apply suffix_cons_r.
    + by apply (Hfree (c :: l)).
Qed.

Lemma removeFirst_png l :
  Forall (λ c, c ≠ 0x70%N) l → removeFirst (lit ".png") (l ++ lit ".png") = l.
Proof.
  intros Hl. apply removeFirst_suffix; [done|].
  intros k [h ->] Hne [t Ht].
  apply Forall_app in Hl as [_ Hk].
  destruct k as [|c k]; [done|]. cbn in Ht. injection Ht as -> Ht.
  destruct k as [|c k]; cbn in Ht; [discriminate|]. injection Ht as -> _.
  apply Forall_cons in Hk as [_ Hk]. by apply Forall_cons in Hk as [Hp _].
Qed.

Section Run.
Context `{M : CaseMapping}.

(** No string in upper case holds the letter p. *)
Lemma toUpperCase_no_p (facts : CaseMappingFacts M) (s : code_units) :
  Forall (λ c, c ≠ 0x70%N) (toUpperCase s).
Proof.
  apply (toUpperCase_Forall facts _ (λ _, True)).
  - intros c _. destruct (isWhiteSpace c || isSurrogate c) eqn:E.
    + rewrite (toUpperCaseUnit_fixed facts c) by by rewrite E.
      constructor; [|done]. intros ->. done.
    + apply orb_false_iff in E as [Hw Hs].
      destruct (toUpperCaseUnit_cased facts c Hw Hs) as [_ Hall].
      eapply Forall_impl; [exact Hall|]. intros u (_ & _ & _ & Hu) ->. done.
  - intros c Hc ->. done.
  - by apply Forall_true.
Qed.

(** A chart stored under the name of a result of the parser matches that
    result. *)
Lemma withoutPng_chartOf (facts : CaseMappingFacts M) code url :
  withoutPng (chartOf (parseCourseSubjCode code) url) = parseCourseSubjCode code.
Proof.
  unfold withoutPng, chartOf. cbn [name]. apply removeFirst_png.
  unfold parseCourseSubjCode. destruct (subjLoop code []) as [s rest].
  apply trimEnd_Forall, trimStart_Forall, (toUpperCase_no_p facts).
Qed.

(** X22: [run] of the class [GetOverallEnroll] of Help.ts replies once on
    every path and returns 0 or -1.  It returns 0 exactly when the term is
    known and the listing of the term has an entry whose name, without the
    first ".png" in it, is the parsed course code; its reply then holds the
    address of the first such entry and is not ephemeral.  Otherwise it
    returns -1 and its reply is ephemeral and holds no file. *)
Theorem run_outcome (OVERALL_ENROLL : gmap code_units (list IGitContent))
    (term code : code_units) :
  let parsedCode := parseCourseSubjCode code in
  let result := run OVERALL_ENROLL term code in
  (result.1 = 0 ↔
   ∃ arr res, OVERALL_ENROLL !! term = Some arr ∧ res ∈ arr ∧ withoutPng res = parsedCode)%Z ∧
  ∃ o, result.2 = [o] ∧
       ((result.1 = -1)%Z ∧ ephemeral o = true ∧ files o = [] ∨
        (result.1 = 0)%Z ∧ ephemeral o = false ∧
        ∃ arr before res after,
          OVERALL_ENROLL !! term = Some arr ∧ arr = before ++ res :: after ∧
          Forall (λ x, withoutPng x ≠ parsedCode) before ∧
          withoutPng res = parsedCode ∧ files o = [download_url res]).
Proof.
  intros parsedCode result. subst result. unfold run. fold parsedCode.
  destruct (OVERALL_ENROLL !! term) as [arr|] eqn:Hterm; cbn [fst snd].
  2: { split; [|eexists; split; [reflexivity|left; done]].
       split; [done|]. by intros (arr & res & [=] & _). }
  pose proof (ListFacts.find_first (λ x, sameUnits (withoutPng x) parsedCode) arr)
    as Hfind.
  destruct (List.find _ arr) as [res|]; cbn [fst snd].
  - destruct Hfind as (Hres & before & after & -> & Hbefore).
    apply sameUnits_eq in Hres. split.
    + split; [|done]. intros _. exists (before ++ res :: after), res.
      split_and!; try done. apply elem_of_app. right. apply list_elem_of_here.
    + eexists. split; [reflexivity|]. right. split_and!; try done.
      exists (before ++ res :: after), before, res, after. split_and!; try done.
      eapply Forall_impl; [exact Hbefore|]. intros x Hx. by apply sameUnits_neq.
  - split; [|eexists; split; [reflexivity|left; done]].
    split; [done|]. intros (arr' & res & [= <-] & Hin & Hres).
    pose proof (proj1 (Forall_forall _ _) Hfind res Hin) as Hno. cbn in Hno.
    apply sameUnits_neq in Hno. done.
Qed.

(** X23: a chart stored under the parsed course code followed by ".png" is
    found, whatever the input that parses to that code: [run] returns 0 and
    replies with the address of an entry of that name; when the listing has
    no other entry that matches, with the address of that chart. *)
Theorem run_finds_stored_chart (facts : CaseMappingFacts M)
    (OVERALL_ENROLL : gmap code_units (list IGitContent))
    (term code url : code_units) arr :
  OVERALL_ENROLL !! term = Some arr →
  chartOf (parseCourseSubjCode code) url ∈ arr →
  ∃ o res,
    run OVERALL_ENROLL term code = (0%Z, [o]) ∧
    ephemeral o = false ∧
    res ∈ arr ∧ withoutPng res = parseCourseSubjCode code ∧
    files o = [download_url res] ∧
    ((∀ x, x ∈ arr → withoutPng x = parseCourseSubjCode code → download_url x = url) →
     files o = [url]).
Proof.
  intros Hterm Hin. unfold run. rewrite Hterm.
  pose proof (ListFacts.find_first
                (λ x, sameUnits (withoutPng x) (parseCourseSubjCode code)) arr) as Hfind.
  destruct (List.find _ arr) as [res|].
  - destruct Hfind as (Hres & before & after & -> & _). apply sameUnits_eq in Hres.
    eexists _, res. split; [reflexivity|]. cbn [ephemeral files].
    assert (Hel : res ∈ before ++ res :: after).
    { apply elem_of_app. right. apply list_elem_of_here. }
    split_and!; try done. intros Honly. f_equal. by apply Honly.
  - pose proof (proj1 (Forall_forall _ _) Hfind _ Hin) as Hno. cbn in Hno.
    apply sameUnits_neq in Hno. by destruct (Hno (withoutPng_chartOf facts code url)).
Qed.

End Run.

Lemma run_finds_stored_chart_witness :
  let arr := [chartOf (lit "MATH 20C") (lit "math");
              chartOf (0xC9%N :: lit "COLE 100") (lit "ecole")] in
  ∃ o res,
    run (M := sampleCaseMapping) {[ lit "SP22" := arr ]} (lit "SP22") (0xE9%N :: lit "cole100")
    = (0%Z, [o]) ∧
    ephemeral o = false ∧
    res ∈ arr ∧
    withoutPng res = parseCourseSubjCode (M := sampleCaseMapping) (0xE9%N :: lit "cole100") ∧
    files o = [download_url res] ∧
    ((∀ x, x ∈ arr →
           withoutPng x = parseCourseSubjCode (M := sampleCaseMapping) (0xE9%N :: lit "cole100") →
           download_url x = lit "ecole") →
     files o = [lit "ecole"]).
Proof.
  intros arr.
  apply (run_finds_stored_chart sampleCaseMapping_facts {[ lit "SP22" := arr ]}
           (lit "SP22") (0xE9%N :: lit "cole100") (lit "ecole") arr).
  - apply lookup_singleton_eq.
  - apply list_elem_of_In. vm_compute. tauto.
Defined.

End GetOverallEnrollSpec.

Module EnrollDataSpec.
Import JSString GetOverallEnroll EnrollData.

Lemma indexOfFrom_none c s i :
  (0 ≤ i)%Z → (indexOfFrom c s i = -1)%Z ↔ Forall (λ x, x ≠ c) s.
Proof.
  revert i. induction s as [|x s IH]; intros i Hi; cbn.
  - split; [constructor|done].
  - destruct (x =? c)%N eqn:Hx.
    + apply N.eqb_eq in Hx as ->. split; [lia|].
      intros H. by apply Forall_cons in H as [? _].
    + apply N.eqb_neq in Hx. rewrite IH by lia. split.
      * intros H. by constructor.
      * intros H. by apply Forall_cons in H as [_ ?].
Qed.

Lemma collection_default constants search_type :
  search_type ≠ Some (lit "wide") → search_type ≠ Some (lit "fsp") →
  OverallPlot.collection constants (default (lit "norm") search_type)
  = (OVERALL_ENROLL constants, lit "Normal").
Proof.
  intros Hwide Hfsp. destruct search_type as [s|]; [|done].
  change (default (lit "norm") (Some s)) with s.
  unfold OverallPlot.collection.
  rewrite (proj2 (GetOverallEnrollSpec.sameUnits_neq s (lit "wide"))) by congruence.
  by rewrite (proj2 (GetOverallEnrollSpec.sameUnits_neq s (lit "fsp"))) by congruence.
Qed.

(** X24: [run] of the command "overallplot".  A search type other than
    "wide" and "fsp" is not rejected: it searches the normal charts, as when
    no search type is given.  The command returns 0 exactly when the
    collection that is searched knows the term and lists for it an entry
    whose name, without the first ".png" in it, is the parsed course code;
    it then defers the reply and edits it once, with the address of the
    first such entry.  Otherwise it returns -1 after one ephemeral reply
    without a file, and defers nothing. *)
Theorem overallPlot_run_outcome (parseCourseSubjCode : code_units → code_units) constants
    (term code : code_units) (search_type : option code_units) :
  let result := OverallPlot.run parseCourseSubjCode constants term code search_type in
  let coll := (OverallPlot.collection constants (default (lit "norm") search_type)).1 in
  let parsedCode := parseCourseSubjCode code in
  (search_type ≠ Some (lit "wide") → search_type ≠ Some (lit "fsp") →
   coll = OVERALL_ENROLL constants ∧
   result = OverallPlot.run parseCourseSubjCode constants term code None) ∧
  (result.1 = 0%Z ↔
   ∃ arr res, coll !! term = Some arr ∧ res ∈ arr ∧ withoutPng res = parsedCode) ∧
  ((result.1 = (-1)%Z ∧ ∃ o, result.2 = [Reply o] ∧ ephemeral o = true ∧ files o = []) ∨
   (result.1 = 0%Z ∧
    ∃ o arr before res after,
      result.2 = [DeferReply; EditReply o] ∧ ephemeral o = false ∧
      coll !! term = Some arr ∧ arr = before ++ res :: after ∧
      Forall (λ x, withoutPng x ≠ parsedCode) before ∧
      withoutPng res = parsedCode ∧ files o = [download_url res])).
Proof.
  intros result coll parsedCode. split.
  { intros Hwide Hfsp. subst coll result. unfold OverallPlot.run.
    rewrite (collection_default constants search_type Hwide Hfsp). done. }
  subst result coll. unfold OverallPlot.run. fold parsedCode.
  destruct (OverallPlot.collection constants (default (lit "norm") search_type))
    as [coll display]. cbn [fst snd].
  destruct (coll !! term) as [arr|] eqn:Hterm; cbn [fst snd].
  2: { split; [|left; split; [done|]; eexists; split_and!; done].
       split; [done|]. by intros (arr & res & [=] & _). }
  pose proof (ListFacts.find_first (λ x, sameUnits (withoutPng x) parsedCode) arr)
    as Hfind.
  destruct (List.find _ arr) as [res|]; cbn [fst snd].
  - destruct Hfind as (Hres & before & after & -> & Hbefore).
    apply GetOverallEnrollSpec.sameUnits_eq in Hres. split.
    + split; [|done]. intros _. exists (before ++ res :: after), res.
      split_and!; try done. apply elem_of_app. right. apply list_elem_of_here.
    + right. split; [done|].
      eexists _, (before ++ res :: after), before, res, after.
      split_and!; try done.
      eapply Forall_impl; [exact Hbefore|]. intros x Hx.
      by apply GetOverallEnrollSpec.sameUnits_neq.
  - split; [|left; split; [done|]; eexists; split_and!; done].
    split; [done|]. intros (arr' & res & [= <-] & Hin & Hres).
    pose proof (proj1 (Forall_forall _ _) Hfind res Hin) as Hno. cbn in Hno.
    apply GetOverallEnrollSpec.sameUnits_neq in Hno. done.
Qed.

Lemma overallPlot_run_outcome_witness :
  let constants :=
    {| OVERALL_ENROLL := {[ lit "SP22" := [chartOf (lit "CSE 100") (lit "normal")] ]};
       OVERALL_ENROLL_WIDE := {[ lit "SP22" := [chartOf (lit "CSE 100") (lit "wide")] ]};
       OVERALL_ENROLL_FSP := ∅;
       SECTION_TERM_DATA := []; CACHED_DATA_TERM := lit "SP22" |} in
  OverallPlot.run (GetOverallEnroll.parseCourseSubjCode (M := sampleCaseMapping)) constants
    (lit "SP22") (lit "cse100") (Some (lit "broad"))
  = OverallPlot.run (GetOverallEnroll.parseCourseSubjCode (M := sampleCaseMapping)) constants
      (lit "SP22") (lit "cse100") None.
Proof.
  intros constants.
  apply (overallPlot_run_outcome (GetOverallEnroll.parseCourseSubjCode (M := sampleCaseMapping))
           constants (lit "SP22") (lit "cse100") (Some (lit "broad"))); discriminate.
Defined.

(** X25: [run] of the command "lookupcached" rejects the input exactly when
    the parsed course code holds no space character: it then sends one
    ephemeral reply, defers nothing and returns -1.  Otherwise it defers the
    reply first and returns 0, whether or not the cached data has a section
    of that course: without one it edits the reply, and with some it passes
    all of them on, in the order of the cached data. *)
Theorem lookupCached_run_format_check constants
    (parseCourseSubjCode : code_units → code_units) (code : code_units) :
  let result := LookupCached.run parseCourseSubjCode constants code in
  let parsedCode := parseCourseSubjCode code in
  let data := List.filter (λ x, sameUnits (subj_course_id x) parsedCode)
                (SECTION_TERM_DATA constants) in
  (result.1 = (-1)%Z ↔ Forall (λ c, c ≠ 0x20%N) parsedCode) ∧
  (result.1 = (-1)%Z → ∃ o, result.2 = [Reply o] ∧ ephemeral o = true) ∧
  (result.1 ≠ (-1)%Z →
   result.1 = 0%Z ∧
   (data = [] → ∃ o, result.2 = [DeferReply; EditReply o]) ∧
   (data ≠ [] →
    result.2 = [DeferReply;
                DisplayInteractiveWebregData data (CACHED_DATA_TERM constants)
                  parsedCode false])).
Proof.
  intros result parsedCode data. subst result. unfold LookupCached.run, indexOf.
  fold parsedCode. fold data.
  pose proof (indexOfFrom_none 0x20%N parsedCode 0) as Hnone.
  destruct (indexOfFrom _ _ _ =? -1)%Z eqn:Hidx; cbn [fst snd].
  - apply Z.eqb_eq in Hidx. split_and!; [|intros _; eexists; by split|done].
    split; [|done]. intros _. by apply Hnone.
  - apply Z.eqb_neq in Hidx.
    assert (Hspace : ¬ Forall (λ c, c ≠ 0x20%N) parsedCode).
    { intros Hall. apply Hnone in Hall; [done|lia]. }
    destruct data as [|x data']; cbn [length Nat.eqb fst snd].
    + split_and!; [by split|done|]. intros _. split_and!; [done| |done].
      intros _. by eexists.
    + split_and!; [by split|done|]. intros _. by split_and!.
Qed.

End EnrollDataSpec.

Module HelpSpec.
Import JSString Help.

Lemma fold_left_addField (A : Type) (name value : A → string) (l : list A) embed :
  let result := fold_left (λ e x, addField e (name x) (value x) false) l embed in
  title result = title embed ∧ footer result = footer embed ∧
  embedDescription result = embedDescription embed ∧
  fields result
  = fields embed
    ++ map (λ x, {| field_name := name x; field_value := value x; inline := false |}) l.
Proof.
  revert embed. induction l as [|x l IH]; intros embed; cbn.
  - by rewrite app_nil_r.
  - destruct (IH (addField embed (name x) (value x) false)) as (-> & -> & -> & ->).
    cbn. by rewrite <- app_assoc.
Qed.

Lemma filter_objectToBoolean {A B : Type} (f : A → B) (l : list A) :
  List.filter (λ x, objectToBoolean (f x)) l = l.
Proof. induction l as [|x l IH]; [done|]. cbn. by rewrite IH. Qed.

Lemma helpEmbed_shape util Commands ctx showCmdHelp :
  let embed := helpEmbed util Commands ctx showCmdHelp in
  title embed = "Command List"%string ∧
  embedDescription embed
  = (if showCmdHelp
     then "The command, `" +:+ default ""%string (ctx_command ctx)
          +:+ "`, could not be found. Try looking through the list below."
     else "Below is a list of all supported commands.")%string ∧
  fields embed
  = fields (generateBlankEmbed util (ctx_user ctx) "GREEN")
    ++ map (fullCategoryField util) Commands.
Proof.
  cbn zeta. unfold helpEmbed.
  set (blank := setDescription _ _).
  set (value := λ entry : string * list BaseCommand,
         codifyString util
           (inl (InteractionEvent.join ", "
                   (map (λ x, botCommandName (commandInfo x))
                      (List.filter
                         (λ x, objectToBoolean
                                 (hasPermissionToRun x (ctx_user ctx) (ctx_guild ctx)))
                         entry.2))))).
  assert (Hfold : ∀ l e,
            fold_left
              (λ embed '(category, commands),
                 addField embed category
                   (codifyString util
                      (inl (InteractionEvent.join ", "
                              (map (λ x, botCommandName (commandInfo x))
                                 (List.filter
                                    (λ x, objectToBoolean
                                            (hasPermissionToRun x (ctx_user ctx)
                                               (ctx_guild ctx)))
                                    commands)))))
                   false) l e
            = fold_left (λ e x, addField e x.1 (value x) false) l e).
  { induction l as [|[category commands] l IH]; intros e; [done|]. cbn. apply IH. }
  rewrite Hfold.
  destruct (fold_left_addField _ fst value Commands blank) as (Ht & _ & Hd & Hf).
  split_and!; [exact Ht | exact Hd |].
  rewrite Hf. subst blank. cbn [fields setDescription setFooter setTitle]. f_equal.
  apply map_ext. intros [category commands]. unfold fullCategoryField, value.
  cbn [fst snd]. by rewrite filter_objectToBoolean.
Qed.

(** X26: [run] of the command "help" replies once, with one embed, and
    returns 0 on every path.  When no command name is given, or the empty
    name, or a name that is not registered, the embed is the list of the
    commands: after the fields of the blank embed it has one field for each
    category of [Bot.Commands], in the order of [Bot.Commands], and the
    field lists every command of the category, whatever [hasPermissionToRun]
    says, since the object it returns is truthy.  The description says that
    the command could not be found exactly when a name that is not empty was
    given. *)
Theorem run_lists_every_command `{StringBuilder SB} util NameCommands Commands ctx :
  (∃ embed, run util NameCommands Commands ctx = (0%Z, [[embed]])) ∧
  (truthy (ctx_command ctx) = false ∨
   NameCommands !! default ""%string (ctx_command ctx) = None →
   ∃ embed,
     run util NameCommands Commands ctx = (0%Z, [[embed]]) ∧
     title embed = "Command List"%string ∧
     fields embed
     = fields (generateBlankEmbed util (ctx_user ctx) "GREEN")
       ++ map (fullCategoryField util) Commands ∧
     embedDescription embed
     = (if truthy (ctx_command ctx)
        then "The command, `" +:+ default ""%string (ctx_command ctx)
             +:+ "`, could not be found. Try looking through the list below."
        else "Below is a list of all supported commands.")%string).
Proof.
  split.
  - unfold run. destruct (truthy (ctx_command ctx)); [|by eexists].
    destruct (NameCommands !! _); by eexists.
  - intros Hlist. unfold run.
    destruct (truthy (ctx_command ctx)) eqn:Htruthy.
    + destruct Hlist as [? | Hnone]; [done|]. rewrite Hnone.
      destruct (helpEmbed_shape util Commands ctx true) as (Ht & Hd & Hf).
      eexists. by split_and!.
    + destruct (helpEmbed_shape util Commands ctx false) as (Ht & Hd & Hf).
      eexists. by split_and!.
Qed.

Lemma run_lists_every_command_witness :
  let ctx := {| ctx_user := {| InteractionEvent.user_id := "alice" |};
                ctx_guild := None; ctx_command := Some "nosuchcommand"%string |} in
  let Commands := [("General"%string, [sampleCommand "help" true; sampleCommand "ban" false])] in
  ∃ embed,
    run sampleUtilities ∅ Commands ctx = (0%Z, [[embed]]) ∧
    title embed = "Command List"%string ∧
    fields embed
    = fields (generateBlankEmbed sampleUtilities (ctx_user ctx) "GREEN")
      ++ map (fullCategoryField sampleUtilities) Commands ∧
    embedDescription embed
    = (if truthy (ctx_command ctx)
       then "The command, `" +:+ default ""%string (ctx_command ctx)
            +:+ "`, could not be found. Try looking through the list below."
       else "Below is a list of all supported commands.")%string.
Proof.
  intros ctx Commands.
  apply (run_lists_every_command sampleUtilities ∅ Commands ctx).
  right. reflexivity.
Defined.

End HelpSpec.

Module AdvancedCollectorSpec.
Import AdvancedCollector.

Lemma selectMenuLoop_spec selectMenus i rows rowsUsed :
  selectMenuLoop selectMenus i rows rowsUsed =
    Some (rows ++ (singleRow <$> take (Nat.min (length selectMenus) MAX_ACTION_ROWS - i)
                                      (drop i selectMenus)),
          rowsUsed + (Nat.min (length selectMenus) MAX_ACTION_ROWS - i)).
Proof.
  funelim (selectMenuLoop selectMenus i rows rowsUsed).
  - replace (Nat.min (length selectMenus) MAX_ACTION_ROWS - i) with 0 by lia.
    rewrite take_0, app_nil_r. do 2 f_equal. lia.
  - match goal with IH : selectMenuLoop _ _ _ _ = Some _ |- _ => rewrite IH end.
    f_equal. f_equal; [|lia].
    rewrite <- app_assoc. f_equal.
    replace (Nat.min (length selectMenus) MAX_ACTION_ROWS - i)
      with (S (Nat.min (length selectMenus) MAX_ACTION_ROWS - S i)) by lia.
    match goal with E : _ !! _ = Some _ |- _ => rewrite (drop_S _ _ _ E) end. reflexivity.
  - match goal with E : _ !! _ = None |- _ => apply lookup_ge_None in E end. lia.
Qed.

Lemma buttonRowLoop_spec buttons i j actionRow :
  buttonRowLoop buttons i j actionRow =
    Some {| components := components actionRow ++ take (5 - j) (drop (i + j) buttons) |}.
Proof.
  funelim (buttonRowLoop buttons i j actionRow).
  - destruct actionRow as [cs]. simpl. do 2 f_equal.
    destruct (decide (j < 5)).
    + rewrite drop_ge by lia. rewrite take_nil, app_nil_r. done.
    + replace (5 - j) with 0 by lia. rewrite take_0, app_nil_r. done.
  - match goal with IH : buttonRowLoop _ _ _ _ = Some _ |- _ => rewrite IH end.
    do 2 f_equal. simpl. rewrite <- app_assoc. f_equal.
    replace (5 - j) with (S (5 - S j)) by lia.
    match goal with E : _ !! _ = Some _ |- _ => rewrite (drop_S _ _ _ E) end. simpl. do 3 f_equal. lia.
  - match goal with E : _ !! _ = None |- _ => apply lookup_ge_None in E end. lia.
Qed.


Lemma buttonLoop_spec buttons rowsUsed i rows :
  ∀ q, i = 5 * q →
  buttonLoop buttons rowsUsed i rows =
    Some (rows ++ chunks (MAX_ACTION_ROWS - rowsUsed - q) (drop i buttons)).
Proof.
  funelim (buttonLoop buttons rowsUsed i rows); intros q Hq.
  - f_equal.
    destruct (decide (i < length buttons)).
    + replace (MAX_ACTION_ROWS - rowsUsed - q) with 0 by lia.
      simpl. by rewrite app_nil_r.
    + rewrite drop_ge by lia.
      destruct (MAX_ACTION_ROWS - rowsUsed - q); simpl; by rewrite app_nil_r.
  - match goal with IH : ∀ _, _ → buttonLoop _ _ _ _ = Some _ |- _ =>
      rewrite (IH (S q)) by lia end.
    match goal with E : buttonRowLoop _ _ _ _ = Some _ |- _ =>
      rewrite buttonRowLoop_spec in E; injection E as <- end.
    f_equal. rewrite <- app_assoc. f_equal.
    replace (MAX_ACTION_ROWS - rowsUsed - q)
      with (S (MAX_ACTION_ROWS - rowsUsed - S q)) by lia.
    destruct (drop i buttons) as [|b bs] eqn:Hd.
    { apply (f_equal length) in Hd. rewrite length_drop in Hd. simpl in Hd. lia. }
    cbn [chunks app components newMessageActionRow]. rewrite <- Hd.
    rewrite Nat.add_0_r, ?Nat.sub_0_r, drop_drop. done.
  - match goal with E : buttonRowLoop _ _ _ _ = None |- _ =>
      rewrite buttonRowLoop_spec in E; discriminate E end.
Qed.

Lemma chunks_length k l : length (chunks k l) ≤ k.
Proof.
  revert l. induction k as [|k IH]; intros [|b l]; simpl; try lia.
  specialize (IH (drop 4 l)). lia.
Qed.

Lemma chunks_lookup k l i r :
  chunks k l !! i = Some r →
  components r = take 5 (drop (5 * i) l) ∧ 1 ≤ length (components r) ≤ 5.
Proof.
  revert l i. induction k as [|k IH]; intros [|b l] i; try done.
  destruct i as [|i]; cbn [chunks lookup list_lookup].
  - intros [= <-]. simpl. split; [done|]. rewrite length_take. lia.
  - intros Hi. apply IH in Hi. destruct Hi as [-> Hlen].
    rewrite drop_drop in *.
    replace (5 * S i) with (5 + 5 * i) by lia. done.
Qed.

Lemma chunks_concat k l : concat (components <$> chunks k l) = take (5 * k) l.
Proof.
  revert l. induction k as [|k IH]; intros l.
  - by destruct l.
  - destruct l as [|b l]; [done|].
    cbn [chunks]. rewrite fmap_cons, concat_cons, IH. cbn [components]. replace (5 * S k) with (5 + 5 * k) by lia.
    by rewrite take_take_drop.
Qed.

Lemma singleRow_concat l : concat (components <$> (singleRow <$> l)) = l.
Proof. induction l as [|c l IH]; [done|]. rewrite !fmap_cons, concat_cons, IH. done. Qed.

(** C5: for every list of components, [getActionRowsFromComponents] returns
    (it never fails) at most [MAX_ACTION_ROWS] rows: one row per select menu
    for the first five select menus, then the buttons in consecutive groups
    of at most five, one group per remaining row; what does not fit is left
    out. *)
Theorem getActionRowsFromComponents_packing (options : list BaseMessageComponent) :
  let selectMenus := filter (λ x, type x = SELECT_MENU) options in
  let buttons := filter (λ x, type x = BUTTON) options in
  let rowsUsed := Nat.min (length selectMenus) MAX_ACTION_ROWS in
  ∃ rows,
    getActionRowsFromComponents options = Some rows ∧
    length rows ≤ MAX_ACTION_ROWS ∧
    rows = (singleRow <$> take MAX_ACTION_ROWS selectMenus)
             ++ chunks (MAX_ACTION_ROWS - rowsUsed) buttons ∧
    length (chunks (MAX_ACTION_ROWS - rowsUsed) buttons) ≤ MAX_ACTION_ROWS - rowsUsed ∧
    (∀ i r, chunks (MAX_ACTION_ROWS - rowsUsed) buttons !! i = Some r →
            components r = take 5 (drop (5 * i) buttons) ∧
            1 ≤ length (components r) ≤ 5) ∧
    concat (components <$> rows) =
      take MAX_ACTION_ROWS selectMenus ++ take (5 * (MAX_ACTION_ROWS - rowsUsed)) buttons.
Proof.
  intros selectMenus buttons rowsUsed.
  eexists. split.
  { unfold getActionRowsFromComponents. fold selectMenus. fold buttons.
    rewrite selectMenuLoop_spec. simpl.
    rewrite (buttonLoop_spec _ _ _ _ 0) by lia. reflexivity. }
  rewrite ?Nat.sub_0_r, ?Nat.add_0_l, ?Nat.add_0_r, ?drop_0. fold rowsUsed.
  assert (Hm : singleRow <$> take rowsUsed selectMenus
               = singleRow <$> take MAX_ACTION_ROWS selectMenus).
  { f_equal. unfold rowsUsed.
    destruct (decide (length selectMenus ≤ MAX_ACTION_ROWS)).
    - rewrite Nat.min_l by done. by rewrite !take_ge by lia.
    - by rewrite Nat.min_r by lia. }
  rewrite Hm.
  split_and!.
  - rewrite length_app, length_fmap, length_take.
    pose proof (chunks_length (MAX_ACTION_ROWS - rowsUsed) buttons). lia.
  - done.
  - apply chunks_length.
  - apply chunks_lookup.
  - rewrite fmap_app, concat_app, singleRow_concat, chunks_concat. done.
Qed.


(** ** The collectors *)

Import JSString.

Section NormalCollector.

Context {T : Type}.
Variable truthyValue : T → bool.
Variable options : Options.
Variable func : Message → option T.
Variable botMsg : option BotMessage.

Local Abbreviation step := (normalStep truthyValue options func botMsg).
Local Abbreviation run := (normalRun truthyValue options func botMsg).

Lemma normalRun_app st es1 es2 : run st (es1 ++ es2) = run (run st es1) es2.
Proof. apply fold_left_app. Qed.

Lemma normalRun_snoc st es e : run st (es ++ [e]) = step (run st es) e.
Proof. by rewrite normalRun_app. Qed.

(** The handler that was put last in the list of waiting handlers goes on. *)
Lemma normalResume_last st a :
  step (normalAwait a st) (NormalResume (length (normalAwaits st)))
  = normalContinue truthyValue options func botMsg a st.
Proof.
  unfold normalStep, normalAwait. cbn [normalAwaits].
  rewrite list_lookup_middle by done.
  rewrite (delete_middle (normalAwaits st) [] a), app_nil_r.
  by destruct st.
Qed.

Lemma normalDeliver_eq c st :
  normalEnded st = false →
  author c = targetAuthor options →
  (deleteResponseMessage options = true → deleteFails c = false) →
  normalDeliver truthyValue options func botMsg c st
  = normalCheckCancel options func c
      (if deleteResponseMessage options then normalCall (DeleteResponse c) st else st).
Proof.
  intros Hend Hauthor Hdelete. unfold normalDeliver, normalRun.
  destruct (deleteResponseMessage options) eqn:Hd; cbn [fold_left].
  - unfold normalStep at 2. rewrite Hend. unfold strictEquals.
    rewrite (proj2 (String.eqb_eq _ _) Hauthor).
    unfold normalOnCollect. rewrite Hd.
    change (normalAwaits st) with (normalAwaits (normalCall (DeleteResponse c) st)).
    rewrite normalResume_last. cbn [normalContinue]. by rewrite Hdelete.
  - unfold normalStep. rewrite Hend. unfold strictEquals.
    rewrite (proj2 (String.eqb_eq _ _) Hauthor).
    unfold normalOnCollect. by rewrite Hd.
Qed.

Lemma normalDeliver_cancel c st :
  normalEnded st = false →
  author c = targetAuthor options →
  (deleteResponseMessage options = true → deleteFails c = false) →
  isCancel options c = true →
  normalDeliver truthyValue options func botMsg c st
  = normalResolve Null
      (if deleteResponseMessage options then normalCall (DeleteResponse c) st else st).
Proof.
  intros Hend Hauthor Hdelete Hcancel.
  rewrite normalDeliver_eq by done. unfold normalCheckCancel. by rewrite Hcancel.
Qed.

Lemma normalOrigin_mono events e st :
  normalOrigin options func events st → normalOrigin options func (events ++ [e]) st.
Proof.
  intros [Hawaits Hpromise]. split.
  - eapply Forall_impl; [exact Hawaits|]. intros [c|c attempt].
    + intros ?. apply elem_of_app. by left.
    + intros (? & ? & ?). split_and!; try done. apply elem_of_app. by left.
  - intros v Hv. destruct (Hpromise v Hv) as (c & ? & ? & ?).
    exists c. split_and!; try done. apply elem_of_app. by left.
Qed.

Lemma normalOrigin_stop events r st :
  normalOrigin options func events st → normalOrigin options func events (normalStop options botMsg r st).
Proof.
  intros [Hawaits Hpromise]. unfold normalStop, normalOnEnd, normalResolve, normalCall.
  repeat case_match; split; cbn; try done;
    intros v Hv; apply Hpromise; destruct (normalPromise st); by simplify_eq/=.
Qed.

Lemma normalOrigin_checkCancel events c st :
  NormalMessage c ∈ events →
  normalOrigin options func events st → normalOrigin options func events (normalCheckCancel options func c st).
Proof.
  intros Hc [Hawaits Hpromise]. unfold normalCheckCancel, normalResolve, normalAwait, normalCall.
  destruct (isCancel options c) eqn:Hcancel; split; cbn; try done.
  - intros v Hv; apply Hpromise; destruct (normalPromise st); by simplify_eq/=.
  - apply Forall_app. split; [done|]. by repeat constructor.
Qed.

Lemma normalOrigin_step events e st :
  normalOrigin options func events st → normalOrigin options func (events ++ [e]) (step st e).
Proof.
  intros Hinv. pose proof (normalOrigin_mono events e st Hinv) as [Hawaits Hpromise].
  assert (He : e ∈ events ++ [e]) by (apply elem_of_app; right; apply list_elem_of_here).
  destruct e as [m | | k]; cbn [normalStep].
  - destruct (normalEnded st); [done|].
    destruct (strictEquals _ _); [|done].
    unfold normalOnCollect. destruct (deleteResponseMessage options).
    + split; cbn; [|done]. apply Forall_app. split; [done|]. by repeat constructor.
    + by apply normalOrigin_checkCancel.
  - by apply normalOrigin_stop.
  - destruct (normalAwaits st !! k) as [a|] eqn:Hk; [|done].
    pose proof (Forall_lookup_1 _ _ _ _ Hawaits Hk) as Ha.
    set (st' := {| normalPromise := normalPromise st; normalEnded := normalEnded st;
                   normalAwaits := delete k (normalAwaits st);
                   normalCalls := normalCalls st |}).
    assert (Hst' : normalOrigin options func (events ++ [NormalResume k]) st').
    { split; [by apply Forall_delete|done]. }
    destruct a as [c | c attempt]; cbn [normalContinue].
    + destruct (deleteFails c); [done|]. by apply normalOrigin_checkCancel.
    + destruct Ha as (Hc & Hcancel & ->).
      destruct (func c) as [v|] eqn:Hf; [|done].
      destruct (truthyValue v); [|done].
      pose proof (normalOrigin_stop _ user _ Hst') as [Hawaits' Hpromise'].
      split; [done|]. cbn. intros w Hw.
      destruct (normalPromise (normalStop options botMsg user st')) eqn:Hp.
      * apply Hpromise'. by simplify_eq/=.
      * exists c. by simplify_eq/=.
Qed.

Lemma normalOrigin_run events : normalOrigin options func events (run normalInit events).
Proof.
  induction events as [|e events IH] using rev_ind.
  - split; [constructor|]. intros v [=].
  - rewrite normalRun_snoc. by apply normalOrigin_step.
Qed.


End NormalCollector.

(** Without a bot message the text-only wait deletes none. *)
Lemma normalRun_no_bot_message {T : Type} (truthyValue : T → bool) options
    (func : Message → option T) events st :
  DeleteBase ∉ normalCalls st →
  DeleteBase ∉ normalCalls (normalRun truthyValue options func None st events).
Proof.
  revert st. induction events as [|e events IH]; intros st Hst; [done|].
  cbn. apply IH. clear IH.
  destruct st as [p d a c]. cbn in *.
  unfold normalStep, normalOnCollect, normalContinue, normalCheckCancel, normalStop,
    normalOnEnd, normalResolve, normalCall, normalAwait.
  rewrite andb_false_r.
  repeat (case_match; simplify_eq/=; try done);
    rewrite ?elem_of_app, ?list_elem_of_singleton; try tauto;
    (intros [? | ?]; [done | discriminate]).
Qed.

Lemma elem_of_delete_or {A} (l : list A) k a x :
  l !! k = Some a → x ∈ l → x = a ∨ x ∈ delete k l.
Proof.
  intros Hk Hx. rewrite (delete_Permutation l k a Hk) in Hx.
  by apply elem_of_cons in Hx.
Qed.

Section DoubleCollector.

Context {T : Type}.
Variable options : Options.
Variable func : Message → option T.
Variable botMsg : BotMessage.

Local Abbreviation step := (doubleStep options func botMsg).
Local Abbreviation run := (doubleRun options func botMsg).

Lemma doubleRun_app st es1 es2 : run st (es1 ++ es2) = run (run st es1) es2.
Proof. apply fold_left_app. Qed.

Lemma doubleRun_snoc st es e : run st (es ++ [e]) = step (run st es) e.
Proof. by rewrite doubleRun_app. Qed.

Lemma doubleResume_last st a :
  step (doubleAwait a st) (DoubleResume (length (doubleAwaits st)))
  = doubleContinue options func botMsg a st.
Proof.
  unfold doubleStep, doubleAwait. cbn [doubleAwaits].
  rewrite list_lookup_middle by done.
  rewrite (delete_middle (doubleAwaits st) [] a), app_nil_r.
  by destruct st.
Qed.

Lemma doubleDeliver_eq c st :
  msgEnded st = false →
  author c = targetAuthor options →
  doubleDeliver options func botMsg c st
  = doubleCheckCancel options func botMsg c
      (if deleteResponseMessage options then doubleCall (DeleteResponse c) st else st).
Proof.
  intros Hend Hauthor. unfold doubleDeliver, doubleRun.
  destruct (deleteResponseMessage options) eqn:Hd; cbn [fold_left].
  - unfold doubleStep at 2. rewrite Hend. unfold strictEquals.
    rewrite (proj2 (String.eqb_eq _ _) Hauthor).
    unfold doubleOnMessage. rewrite Hd.
    change (doubleAwaits st) with (doubleAwaits (doubleCall (DeleteResponse c) st)).
    by rewrite doubleResume_last.
  - unfold doubleStep. rewrite Hend. unfold strictEquals.
    rewrite (proj2 (String.eqb_eq _ _) Hauthor).
    unfold doubleOnMessage. by rewrite Hd.
Qed.

(** *** The one-shot guard *)

Ltac double_unfold :=
  unfold doubleStep, doubleOnMessage, doubleOnClick, doubleAfterDefer, doubleContinue,
    doubleCheckCancel, msgCollectorStop, interactionCollectorStop, acknowledgeDeletion,
    doubleResolve, doubleCall, doubleAwait in *.

Lemma doubleGuard_init : doubleGuard options botMsg (doubleInit (T := T)).
Proof. done. Qed.

Lemma doubleGuard_same (st st' : DoubleState T) :
  hasCalled st' = hasCalled st → msgEnded st' = msgEnded st →
  interactionEnded st' = interactionEnded st → cleanups st' = cleanups st →
  cleanupCalls st' = cleanupCalls st →
  doubleGuard options botMsg st → doubleGuard options botMsg st'.
Proof. unfold doubleGuard. by intros -> -> -> -> ->. Qed.

Lemma doubleGuard_resolve r (st : DoubleState T) :
  doubleGuard options botMsg st → doubleGuard options botMsg (doubleResolve r st).
Proof. by apply (doubleGuard_same st). Qed.

Lemma doubleGuard_await a (st : DoubleState T) :
  doubleGuard options botMsg st → doubleGuard options botMsg (doubleAwait a st).
Proof. by apply (doubleGuard_same st). Qed.

Lemma doubleGuard_call c (st : DoubleState T) :
  isCleanupCall c = false →
  doubleGuard options botMsg st → doubleGuard options botMsg (doubleCall c st).
Proof.
  intros Hc. apply (doubleGuard_same st); try done.
  unfold cleanupCalls. cbn. rewrite List.filter_app. cbn. rewrite Hc. apply app_nil_r.
Qed.

Lemma doubleGuard_msgCollectorStop r (st : DoubleState T) :
  doubleGuard options botMsg st →
  doubleGuard options botMsg (msgCollectorStop options botMsg r st).
Proof.
  unfold doubleGuard, cleanupCalls, configuredCleanup, msgCollectorStop, acknowledgeDeletion.
  destruct st as [p h m i a c n]. cbn. intros (-> & -> & Hc).
  destruct m; [done|]. cbn in *.
  destruct i; [done|]. cbn in *.
  destruct (_ && _); [|destruct (_ && _)]; destruct (decide _); cbn;
    rewrite ?List.filter_app, ?Hc; done.
Qed.

Lemma doubleGuard_interactionCollectorStop r (st : DoubleState T) :
  doubleGuard options botMsg st →
  doubleGuard options botMsg (interactionCollectorStop options botMsg r st).
Proof.
  unfold doubleGuard, cleanupCalls, configuredCleanup, interactionCollectorStop,
    acknowledgeDeletion.
  destruct st as [p h m i a c n]. cbn. intros (-> & -> & Hc).
  destruct i; [done|]. cbn in *.
  destruct m; [done|]. cbn in *.
  destruct (_ && _); [|destruct (_ && _)]; destruct (decide _); cbn;
    rewrite ?List.filter_app, ?Hc; done.
Qed.

Lemma doubleGuard_checkCancel c st :
  doubleGuard options botMsg st →
  doubleGuard options botMsg (doubleCheckCancel options func botMsg c st).
Proof.
  intros Hst. unfold doubleCheckCancel. destruct (isCancel options c).
  - by apply doubleGuard_resolve, doubleGuard_interactionCollectorStop.
  - by apply doubleGuard_await, doubleGuard_call.
Qed.

Lemma doubleGuard_afterDefer i (st : DoubleState T) :
  doubleGuard options botMsg st →
  doubleGuard options botMsg (doubleAfterDefer options botMsg i st).
Proof.
  intros Hst. by apply doubleGuard_msgCollectorStop, doubleGuard_resolve.
Qed.

Lemma doubleGuard_step st e :
  doubleGuard options botMsg st → doubleGuard options botMsg (step st e).
Proof.
  intros Hst. destruct e as [m | i | | | k]; cbn [doubleStep].
  - destruct (msgEnded st); [done|]. destruct (strictEquals _ _); [|done].
    unfold doubleOnMessage. destruct (deleteResponseMessage options).
    + by apply doubleGuard_await, doubleGuard_call.
    + by apply doubleGuard_checkCancel.
  - destruct (interactionEnded st); [done|]. destruct (strictEquals _ _); [|done].
    apply doubleGuard_interactionCollectorStop.
    unfold doubleOnClick. destruct (acknowledgeImmediately options).
    + by apply doubleGuard_await, doubleGuard_call.
    + by apply doubleGuard_afterDefer.
  - by apply doubleGuard_msgCollectorStop.
  - by apply doubleGuard_interactionCollectorStop.
  - destruct (doubleAwaits st !! k) as [a|]; [|done].
    set (st' := Build_DoubleState _ _ _ _ _ _ _).
    assert (Hst' : doubleGuard options botMsg st') by by apply (doubleGuard_same st).
    destruct a as [c | c [v|] | i]; cbn [doubleContinue].
    + by apply doubleGuard_checkCancel.
    + by apply doubleGuard_msgCollectorStop, doubleGuard_interactionCollectorStop,
        doubleGuard_resolve.
    + done.
    + destruct (deferUpdateFails i); [done|]. by apply doubleGuard_afterDefer.
Qed.

(** *** What a step keeps *)

Lemma doubleExtends_refl (st : DoubleState T) : doubleExtends st st.
Proof. by split_and!. Qed.

Lemma doubleExtends_trans (st1 st2 st3 : DoubleState T) :
  doubleExtends st1 st2 → doubleExtends st2 st3 → doubleExtends st1 st3.
Proof. intros (? & ? & ? & ?) (? & ? & ? & ?). split_and!; auto. Qed.

Lemma doubleExtends_resolve r (st : DoubleState T) : doubleExtends st (doubleResolve r st).
Proof. split_and!; try done. cbn. by intros x ->. Qed.

Lemma doubleExtends_call c (st : DoubleState T) : doubleExtends st (doubleCall c st).
Proof. by split_and!. Qed.

Lemma doubleExtends_await a (st : DoubleState T) : doubleExtends st (doubleAwait a st).
Proof. split_and!; try done. cbn. intros x Hx. apply elem_of_app. by left. Qed.

(** What [acknowledgeDeletion] does to the flags, the waiting handlers and
    the promise. *)
Lemma acknowledgeDeletion_fields r (st : DoubleState T) :
  let st' := acknowledgeDeletion options botMsg r st in
  msgEnded st' = msgEnded st ∧ interactionEnded st' = interactionEnded st ∧
  doubleAwaits st' = doubleAwaits st ∧ hasCalled st' = true ∧
  doublePromise st'
  = if hasCalled st then doublePromise st
    else if decide (r = time) then resolvePromise Null (doublePromise st)
    else doublePromise st.
Proof.
  destruct st as [p h m i a c n]. unfold acknowledgeDeletion. cbn.
  destruct h; [done|].
  destruct (_ && _); [|destruct (_ && _)]; by destruct (decide _).
Qed.

Lemma doubleExtends_acknowledgeDeletion r (st : DoubleState T) :
  doubleExtends st (acknowledgeDeletion options botMsg r st).
Proof.
  destruct (acknowledgeDeletion_fields r st) as (Hm & Hi & Ha & _ & Hp).
  unfold doubleExtends. rewrite Hm, Hi, Ha, Hp. split_and!; try done.
  intros x ->. by repeat case_match.
Qed.

Lemma msgCollectorStop_fields r (st : DoubleState T) :
  let st' := msgCollectorStop options botMsg r st in
  msgEnded st' = true ∧ interactionEnded st' = interactionEnded st ∧
  doubleAwaits st' = doubleAwaits st.
Proof.
  cbn. unfold msgCollectorStop. destruct (msgEnded st) eqn:Hm; [done|].
  by destruct (acknowledgeDeletion_fields r
                 (Build_DoubleState (doublePromise st) (hasCalled st) true (interactionEnded st)
                    (doubleAwaits st) (doubleCalls st) (cleanups st)))
    as (-> & -> & -> & _).
Qed.

Lemma interactionCollectorStop_fields r (st : DoubleState T) :
  let st' := interactionCollectorStop options botMsg r st in
  msgEnded st' = msgEnded st ∧ interactionEnded st' = true ∧
  doubleAwaits st' = doubleAwaits st.
Proof.
  cbn. unfold interactionCollectorStop. destruct (interactionEnded st) eqn:Hi; [done|].
  by destruct (acknowledgeDeletion_fields r
                 (Build_DoubleState (doublePromise st) (hasCalled st) (msgEnded st) true
                    (doubleAwaits st) (doubleCalls st) (cleanups st)))
    as (-> & -> & -> & _).
Qed.

Lemma acknowledgeDeletion_calls r (st : DoubleState T) x :
  x ∈ doubleCalls (acknowledgeDeletion options botMsg r st) →
  x ∈ doubleCalls st ∨ isCleanupCall x = true.
Proof.
  destruct st as [p h m i a c n]. unfold acknowledgeDeletion. cbn.
  destruct h; [by left|].
  destruct (_ && _); [|destruct (_ && _)]; destruct (decide _); cbn;
    rewrite ?elem_of_app, ?list_elem_of_singleton; intros H; try (by left);
    destruct H as [? | ->]; auto.
Qed.

(** A collector that is stopped by a handler leaves the promise as it is,
    and calls nothing but the clean-up of the bot message. *)
Lemma interactionCollectorStop_user (st : DoubleState T) :
  let st' := interactionCollectorStop options botMsg user st in
  doublePromise st' = doublePromise st ∧
  ∀ x, x ∈ doubleCalls st' → x ∈ doubleCalls st ∨ isCleanupCall x = true.
Proof.
  cbn. unfold interactionCollectorStop.
  destruct (interactionEnded st); [split; [done | by left]|].
  set (st1 := Build_DoubleState _ _ _ _ _ _ _).
  destruct (acknowledgeDeletion_fields user st1) as (_ & _ & _ & _ & Hp).
  split.
  - rewrite Hp, decide_False by done. by destruct (hasCalled st1).
  - intros x Hx. by apply (acknowledgeDeletion_calls user st1).
Qed.

Lemma doubleExtends_msgCollectorStop r (st : DoubleState T) :
  doubleExtends st (msgCollectorStop options botMsg r st).
Proof.
  unfold msgCollectorStop. destruct (msgEnded st); [apply doubleExtends_refl|].
  eapply doubleExtends_trans; [|apply doubleExtends_acknowledgeDeletion]. by split_and!.
Qed.

Lemma doubleExtends_interactionCollectorStop r (st : DoubleState T) :
  doubleExtends st (interactionCollectorStop options botMsg r st).
Proof.
  unfold interactionCollectorStop. destruct (interactionEnded st); [apply doubleExtends_refl|].
  eapply doubleExtends_trans; [|apply doubleExtends_acknowledgeDeletion]. by split_and!.
Qed.

Lemma doubleExtends_checkCancel c st :
  doubleExtends st (doubleCheckCancel options func botMsg c st).
Proof.
  unfold doubleCheckCancel. destruct (isCancel options c).
  - eapply doubleExtends_trans; [apply doubleExtends_interactionCollectorStop|].
    apply doubleExtends_resolve.
  - eapply doubleExtends_trans; [apply doubleExtends_call|]. apply doubleExtends_await.
Qed.

Lemma doubleExtends_afterDefer i (st : DoubleState T) :
  doubleExtends st (doubleAfterDefer options botMsg i st).
Proof.
  eapply doubleExtends_trans; [apply doubleExtends_resolve|].
  apply doubleExtends_msgCollectorStop.
Qed.

Lemma doubleExtends_continue a st :
  doubleExtends st (doubleContinue options func botMsg a st).
Proof.
  destruct a as [c | c [v|] | i]; cbn [doubleContinue].
  - apply doubleExtends_checkCancel.
  - eapply doubleExtends_trans; [apply doubleExtends_resolve|].
    eapply doubleExtends_trans; [apply doubleExtends_interactionCollectorStop|].
    apply doubleExtends_msgCollectorStop.
  - apply doubleExtends_refl.
  - destruct (deferUpdateFails i); [apply doubleExtends_refl|].
    apply doubleExtends_afterDefer.
Qed.

(** A step undoes nothing; a handler that goes on leaves the list of the
    handlers that wait. *)
Lemma doubleExtends_step st e :
  (msgEnded st = true → msgEnded (step st e) = true) ∧
  (interactionEnded st = true → interactionEnded (step st e) = true) ∧
  (∀ r, doublePromise st = Some r → doublePromise (step st e) = Some r) ∧
  ((∀ k, e ≠ DoubleResume k) → ∀ x, x ∈ doubleAwaits st → x ∈ doubleAwaits (step st e)).
Proof.
  assert (Hall : doubleExtends st (step st e) →
            (msgEnded st = true → msgEnded (step st e) = true) ∧
            (interactionEnded st = true → interactionEnded (step st e) = true) ∧
            (∀ r, doublePromise st = Some r → doublePromise (step st e) = Some r) ∧
            ((∀ k, e ≠ DoubleResume k) →
             ∀ x, x ∈ doubleAwaits st → x ∈ doubleAwaits (step st e))).
  { intros (? & ? & ? & ?). by split_and!. }
  destruct e as [m | i | | | k]; cbn [doubleStep] in *.
  - apply Hall. destruct (msgEnded st); [apply doubleExtends_refl|].
    destruct (strictEquals _ _); [|apply doubleExtends_refl].
    unfold doubleOnMessage. destruct (deleteResponseMessage options).
    + eapply doubleExtends_trans; [apply doubleExtends_call|]. apply doubleExtends_await.
    + apply doubleExtends_checkCancel.
  - apply Hall. destruct (interactionEnded st); [apply doubleExtends_refl|].
    destruct (strictEquals _ _); [|apply doubleExtends_refl].
    eapply doubleExtends_trans; [|apply doubleExtends_interactionCollectorStop].
    unfold doubleOnClick. destruct (acknowledgeImmediately options).
    + eapply doubleExtends_trans; [apply doubleExtends_call|]. apply doubleExtends_await.
    + apply doubleExtends_afterDefer.
  - apply Hall, doubleExtends_msgCollectorStop.
  - apply Hall, doubleExtends_interactionCollectorStop.
  - clear Hall. destruct (doubleAwaits st !! k) as [a|].
    + destruct (doubleExtends_continue a
                  (Build_DoubleState (doublePromise st) (hasCalled st) (msgEnded st)
                     (interactionEnded st) (delete k (doubleAwaits st)) (doubleCalls st)
                     (cleanups st)))
        as (Hm & Hi & Hp & _).
      split_and!; try done; intros Hk; by destruct (Hk k).
    + split_and!; try done; intros Hk; by destruct (Hk k).
Qed.

Lemma msgEnded_step st e : msgEnded st = true → msgEnded (step st e) = true.
Proof. apply doubleExtends_step. Qed.

Lemma interactionEnded_step st e :
  interactionEnded st = true → interactionEnded (step st e) = true.
Proof. apply doubleExtends_step. Qed.

Lemma doubleAwaits_step st e x :
  x ∈ doubleAwaits st →
  (∀ k, e ≠ DoubleResume k) →
  x ∈ doubleAwaits (step st e).
Proof. intros Hx Hk. by apply doubleExtends_step. Qed.

(** *** What the events leave behind *)

Lemma acknowledged_mono events e :
  acknowledged options (events ++ [e]) → acknowledged options events.
Proof.
  intros H Hack i Hi. apply (H Hack). apply elem_of_app. by left.
Qed.

Lemma doubleSettles_resolved (st : DoubleState T) :
  doublePromise st ≠ None → doubleSettles st.
Proof. by intros Hp ?. Qed.

Lemma doubleSettles_waiting (st : DoubleState T) i :
  DoubleAwaitDefer i ∈ doubleAwaits st → deferUpdateFails i = false → doubleSettles st.
Proof. intros ? ? _ _. by exists i. Qed.

Lemma doubleResolved_extends (st st' : DoubleState T) :
  doubleExtends st st' → doublePromise st ≠ None → doublePromise st' ≠ None.
Proof.
  intros (_ & _ & Hp & _) Hst. destruct (doublePromise st) as [r|]; [|done].
  by rewrite (Hp r).
Qed.

Lemma doubleResolve_resolved r (st : DoubleState T) :
  doublePromise (doubleResolve r st) ≠ None.
Proof. cbn. by destruct (doublePromise st). Qed.

Lemma doubleSettles_same (st st' : DoubleState T) :
  doublePromise st' = doublePromise st → hasCalled st' = hasCalled st →
  (∀ x, x ∈ doubleAwaits st → x ∈ doubleAwaits st') →
  doubleSettles st → doubleSettles st'.
Proof.
  unfold doubleSettles. intros -> -> Ha Hst Hp Hh.
  destruct (Hst Hp Hh) as (i & ? & ?). exists i. auto.
Qed.

(** When the time of a collector is over, the promise is resolved unless
    the clean-up has been made before. *)
Lemma doubleSettles_acknowledgeDeletion (st : DoubleState T) :
  doubleSettles st → doubleSettles (acknowledgeDeletion options botMsg time st).
Proof.
  destruct (acknowledgeDeletion_fields time st) as (_ & _ & Ha & _ & Hp).
  unfold doubleSettles. rewrite Ha, Hp. intros Hst.
  destruct (hasCalled st); [auto|]. rewrite decide_True by done.
  by destruct (doublePromise st).
Qed.

Lemma doubleSettles_msgCollectorStop (st : DoubleState T) :
  doubleSettles st → doubleSettles (msgCollectorStop options botMsg time st).
Proof.
  intros Hst. unfold msgCollectorStop. destruct (msgEnded st); [done|].
  apply doubleSettles_acknowledgeDeletion. by apply (doubleSettles_same st).
Qed.

Lemma doubleSettles_interactionCollectorStop (st : DoubleState T) :
  doubleSettles st → doubleSettles (interactionCollectorStop options botMsg time st).
Proof.
  intros Hst. unfold interactionCollectorStop. destruct (interactionEnded st); [done|].
  apply doubleSettles_acknowledgeDeletion. by apply (doubleSettles_same st).
Qed.

Lemma doubleSettles_checkCancel c st :
  doubleSettles st → doubleSettles (doubleCheckCancel options func botMsg c st).
Proof.
  intros Hst. unfold doubleCheckCancel. destruct (isCancel options c).
  - apply doubleSettles_resolved, doubleResolve_resolved.
  - apply (doubleSettles_same st); try done.
    cbn. intros x Hx. apply elem_of_app. by left.
Qed.

Lemma doubleSettles_afterDefer i (st : DoubleState T) :
  doubleSettles (doubleAfterDefer options botMsg i st).
Proof.
  apply doubleSettles_resolved.
  eapply doubleResolved_extends; [apply doubleExtends_msgCollectorStop|].
  apply doubleResolve_resolved.
Qed.

Lemma doubleSettles_step st e :
  (acknowledgeImmediately options = true →
   ∀ i, e = DoubleClick i → deferUpdateFails i = false) →
  doubleSettles st → doubleSettles (step st e).
Proof.
  intros Hack Hst. destruct e as [m | i | | | k]; cbn [doubleStep].
  - destruct (msgEnded st); [done|]. destruct (strictEquals _ _); [|done].
    unfold doubleOnMessage. destruct (deleteResponseMessage options).
    + apply (doubleSettles_same st); try done.
      cbn. intros x Hx. apply elem_of_app. by left.
    + by apply doubleSettles_checkCancel.
  - destruct (interactionEnded st); [done|]. destruct (strictEquals _ _); [|done].
    unfold doubleOnClick. destruct (acknowledgeImmediately options).
    + apply (doubleSettles_waiting _ i); [|by apply Hack].
      destruct (interactionCollectorStop_fields limit
                  (doubleAwait (DoubleAwaitDefer i) (doubleCall (DeferUpdate i) st)))
        as (_ & _ & ->).
      cbn. apply elem_of_app. right. apply list_elem_of_here.
    + apply doubleSettles_resolved.
      eapply doubleResolved_extends; [apply doubleExtends_interactionCollectorStop|].
      eapply doubleResolved_extends; [apply doubleExtends_msgCollectorStop|].
      apply doubleResolve_resolved.
  - by apply doubleSettles_msgCollectorStop.
  - by apply doubleSettles_interactionCollectorStop.
  - destruct (doubleAwaits st !! k) as [w|] eqn:Hk; [|done].
    set (st' := Build_DoubleState _ _ _ _ _ _ _).
    assert (Hkeep : doublePromise st = None → hasCalled st = true →
              ∃ j, (DoubleAwaitDefer j = w ∨ DoubleAwaitDefer j ∈ doubleAwaits st')
                   ∧ deferUpdateFails j = false).
    { intros Hp Hh. destruct (Hst Hp Hh) as (j & Hj & Hok).
      exists j. split; [|done]. by apply elem_of_delete_or. }
    destruct w as [c | c [v|] | i]; cbn [doubleContinue].
    + apply doubleSettles_checkCancel. intros Hp Hh.
      destruct (Hkeep Hp Hh) as (j & [Hj | Hj] & Hok); [done|]. by exists j.
    + apply doubleSettles_resolved.
      eapply doubleResolved_extends; [apply doubleExtends_msgCollectorStop|].
      eapply doubleResolved_extends; [apply doubleExtends_interactionCollectorStop|].
      apply doubleResolve_resolved.
    + intros Hp Hh.
      destruct (Hkeep Hp Hh) as (j & [Hj | Hj] & Hok); [done|]. by exists j.
    + destruct (deferUpdateFails i) eqn:Hi; [|apply doubleSettles_afterDefer].
      intros Hp Hh.
      destruct (Hkeep Hp Hh) as (j & [Hj | Hj] & Hok); [congruence|]. by exists j.
Qed.

Lemma doubleProgress_step events e st :
  doubleProgress options func events st →
  doubleProgress options func (events ++ [e]) (step st e).
Proof.
  intros (Hdefer & Hmsg & Hclick).
  assert (He : e ∈ events ++ [e]) by (apply elem_of_app; right; apply list_elem_of_here).
  split_and!.
  - (* a pending promise after the clean-up is resolved by a waiting click handler *)
    intros Hack. apply doubleSettles_step.
    + intros Hai i ->. by apply Hack.
    + exact (Hdefer (acknowledged_mono events e Hack)).
  - (* a qualifying message is being handled, or the message collector has ended *)
    intros msg v Hin [Hauthor [Hcancel Hfunc]].
    apply elem_of_app in Hin as [Hold | Hnew].
    + specialize (Hmsg msg v Hold (conj Hauthor (conj Hcancel Hfunc))).
      destruct Hmsg as [Hended | Hwait]; [left; by apply msgEnded_step|].
      destruct e as [m' | click | | | k];
        try (right; destruct Hwait; [left | right]; by apply doubleAwaits_step).
      cbn [doubleStep]. destruct (doubleAwaits st !! k) as [w|] eqn:Hk; [|by right].
      set (st' := Build_DoubleState _ _ _ _ _ _ _).
      assert (Hkeep : (DoubleAwaitDelete msg = w ∨ DoubleAwaitFunc msg (Some v) = w)
                      ∨ (DoubleAwaitDelete msg ∈ doubleAwaits st'
                         ∨ DoubleAwaitFunc msg (Some v) ∈ doubleAwaits st')).
      { destruct Hwait as [Hw | Hw]; destruct (elem_of_delete_or _ _ _ _ Hk Hw); auto. }
      destruct Hkeep as [[<- | <-] | Hkeep]; cbn [doubleContinue].
      * unfold doubleCheckCancel. rewrite Hcancel, Hfunc. right. right. cbn.
        apply elem_of_app. right. apply list_elem_of_here.
      * left. apply msgCollectorStop_fields.
      * right. destruct (doubleExtends_continue w st') as (_ & _ & _ & Hx).
        destruct Hkeep; [left | right]; by apply Hx.
    + apply list_elem_of_singleton in Hnew as <-. cbn [doubleStep].
      destruct (msgEnded st) eqn:Hm; [by left|]. unfold strictEquals.
      rewrite (proj2 (String.eqb_eq _ _) Hauthor).
      unfold doubleOnMessage, doubleCheckCancel. rewrite Hcancel, Hfunc.
      destruct (deleteResponseMessage options); cbn; right; rewrite !elem_of_app;
        [left | right]; right; apply list_elem_of_here.
  - (* the interaction collector ends with the first click of the target author *)
    intros click Hin Huser.
    apply elem_of_app in Hin as [Hold | Hnew].
    + apply interactionEnded_step. by apply (Hclick click).
    + apply list_elem_of_singleton in Hnew as <-. cbn [doubleStep].
      destruct (interactionEnded st) eqn:Hi; [done|]. unfold strictEquals.
      rewrite (proj2 (String.eqb_eq _ _) Huser).
      apply interactionCollectorStop_fields.
Qed.

Lemma doubleProgress_run events :
  doubleProgress options func events (run doubleInit events).
Proof.
  induction events as [|e events IH] using rev_ind.
  - split_and!.
    + intros _ _ [=].
    + intros c v Hc. by apply elem_of_nil in Hc.
    + intros i Hi. by apply elem_of_nil in Hi.
  - rewrite doubleRun_snoc. by apply doubleProgress_step.
Qed.

Lemma doubleGuard_run events : doubleGuard options botMsg (run doubleInit events).
Proof.
  induction events as [|e events IH] using rev_ind.
  - apply doubleGuard_init.
  - rewrite doubleRun_snoc. by apply doubleGuard_step.
Qed.


(** *** Where a matched value comes from *)

Lemma doubleOrigin_mono events e st :
  doubleOrigin options func events st → doubleOrigin options func (events ++ [e]) st.
Proof.
  intros [Hawaits Hpromise]. split.
  - eapply Forall_impl; [exact Hawaits|]. intros [c | c attempt | i].
    + intros ?. apply elem_of_app. by left.
    + intros (? & ? & ?). split_and!; try done. apply elem_of_app. by left.
    + intros ?. apply elem_of_app. by left.
  - intros v Hv. destruct (Hpromise v Hv) as (c & ? & ? & ?).
    exists c. split_and!; try done. apply elem_of_app. by left.
Qed.

Lemma doubleOrigin_msgCollectorStop events r st :
  doubleOrigin options func events st →
  doubleOrigin options func events (msgCollectorStop options botMsg r st).
Proof.
  intros [Hawaits Hpromise]. destruct st as [p h m i a c n]. cbn in *. double_unfold.
  repeat (case_match; simplify_eq/=; try done); split; cbn; try done;
    intros v Hv; apply Hpromise; destruct p; by simplify_eq/=.
Qed.

Lemma doubleOrigin_interactionCollectorStop events r st :
  doubleOrigin options func events st →
  doubleOrigin options func events (interactionCollectorStop options botMsg r st).
Proof.
  intros [Hawaits Hpromise]. destruct st as [p h m i a c n]. cbn in *. double_unfold.
  repeat (case_match; simplify_eq/=; try done); split; cbn; try done;
    intros v Hv; apply Hpromise; destruct p; by simplify_eq/=.
Qed.

Lemma doubleOrigin_resolve events r st :
  (∀ v, r = Matched v →
        ∃ c, DoubleMessage c ∈ events ∧ isCancel options c = false ∧ func c = Some v) →
  doubleOrigin options func events st →
  doubleOrigin options func events (doubleResolve r st).
Proof.
  intros Hr [Hawaits Hpromise]. split; [done|]. cbn. intros v Hv.
  destruct (doublePromise st); cbn in Hv; [by apply Hpromise|].
  apply Hr. congruence.
Qed.

Lemma doubleOrigin_await events a st :
  match a with
  | DoubleAwaitDelete c => DoubleMessage c ∈ events
  | DoubleAwaitFunc c attempt =>
      DoubleMessage c ∈ events ∧ isCancel options c = false ∧ attempt = func c
  | DoubleAwaitDefer i => DoubleClick i ∈ events
  end →
  doubleOrigin options func events st →
  doubleOrigin options func events (doubleAwait a st).
Proof.
  intros Ha [Hawaits Hpromise]. split; [|done]. cbn.
  apply Forall_app. split; [done|]. by repeat constructor.
Qed.

Lemma doubleOrigin_call events c st :
  doubleOrigin options func events st → doubleOrigin options func events (doubleCall c st).
Proof. by intros [Hawaits Hpromise]. Qed.

Lemma doubleOrigin_checkCancel events c st :
  DoubleMessage c ∈ events →
  doubleOrigin options func events st →
  doubleOrigin options func events (doubleCheckCancel options func botMsg c st).
Proof.
  intros Hc Hinv. unfold doubleCheckCancel.
  destruct (isCancel options c) eqn:Hcancel.
  - apply doubleOrigin_resolve; [intros v [=]|].
    by apply doubleOrigin_interactionCollectorStop.
  - apply doubleOrigin_await; [done|]. by apply doubleOrigin_call.
Qed.

Lemma doubleOrigin_step events e st :
  doubleOrigin options func events st →
  doubleOrigin options func (events ++ [e]) (step st e).
Proof.
  intros Hinv. pose proof (doubleOrigin_mono events e st Hinv) as Hinv'.
  assert (He : e ∈ events ++ [e]) by (apply elem_of_app; right; apply list_elem_of_here).
  destruct e as [m | i | | | k]; cbn [doubleStep].
  - destruct (msgEnded st); [done|].
    destruct (strictEquals _ _); [|done].
    unfold doubleOnMessage. destruct (deleteResponseMessage options).
    + apply doubleOrigin_await; [done|]. by apply doubleOrigin_call.
    + by apply doubleOrigin_checkCancel.
  - destruct (interactionEnded st); [done|].
    destruct (strictEquals _ _); [|done].
    apply doubleOrigin_interactionCollectorStop.
    unfold doubleOnClick, doubleAfterDefer. destruct (acknowledgeImmediately options).
    + apply doubleOrigin_await; [done|]. by apply doubleOrigin_call.
    + apply doubleOrigin_msgCollectorStop. by apply doubleOrigin_resolve.
  - by apply doubleOrigin_msgCollectorStop.
  - by apply doubleOrigin_interactionCollectorStop.
  - destruct (doubleAwaits st !! k) as [a|] eqn:Hk; [|done].
    destruct Hinv' as [Hawaits Hpromise].
    pose proof (Forall_lookup_1 _ _ _ _ Hawaits Hk) as Ha.
    set (st' := {| doublePromise := doublePromise st; hasCalled := hasCalled st;
                   msgEnded := msgEnded st; interactionEnded := interactionEnded st;
                   doubleAwaits := delete k (doubleAwaits st);
                   doubleCalls := doubleCalls st; cleanups := cleanups st |}).
    assert (Hst' : doubleOrigin options func (events ++ [DoubleResume k]) st').
    { split; [by apply Forall_delete|done]. }
    destruct a as [c | c attempt | i]; cbn [doubleContinue].
    + by apply doubleOrigin_checkCancel.
    + destruct Ha as (Hc & Hcancel & ->).
      destruct (func c) as [v|] eqn:Hf; [|done].
      apply doubleOrigin_msgCollectorStop, doubleOrigin_interactionCollectorStop.
      apply doubleOrigin_resolve; [|done].
      intros w [= <-]. by exists c.
    + destruct (deferUpdateFails i); [done|].
      unfold doubleAfterDefer. apply doubleOrigin_msgCollectorStop.
      by apply doubleOrigin_resolve.
Qed.

Lemma doubleOrigin_run events : doubleOrigin options func events (run doubleInit events).
Proof.
  induction events as [|e events IH] using rev_ind.
  - split; [constructor|]. intros v [=].
  - rewrite doubleRun_snoc. by apply doubleOrigin_step.
Qed.

(** *** The race of the two collectors *)

Lemma doublePromise_step st e r :
  doublePromise st = Some r → doublePromise (step st e) = Some r.
Proof. apply doubleExtends_step. Qed.

Lemma doublePromise_run st es r :
  doublePromise st = Some r → doublePromise (run st es) = Some r.
Proof.
  revert st. induction es as [|e es IH]; intros st Hr; [done|].
  cbn. apply IH. by apply doublePromise_step.
Qed.

(** When both collectors have ended and no handler waits, nothing happens
    any more. *)
Lemma doubleStep_finished st e :
  msgEnded st = true → interactionEnded st = true → doubleAwaits st = [] →
  step st e = st.
Proof.
  destruct st as [p h m i a c n]. cbn. intros -> -> ->.
  by destruct e.
Qed.

Lemma doubleRun_finished st es :
  msgEnded st = true → interactionEnded st = true → doubleAwaits st = [] →
  run st es = st.
Proof.
  intros Hm Hi Ha. induction es as [|e es IH]; [done|].
  cbn. by rewrite doubleStep_finished.
Qed.

(** C1: whatever the order in which a click of the target author and a
    qualifying message arrive, and however the handlers that wait at an
    [await] are interleaved with them and with the timers, once no handler
    waits any more the promise is resolved, and resolved once: what it was
    resolved with at any earlier moment is what it is resolved with at the
    end.  Both collectors have ended, so that nothing that happens later
    changes anything, and the body of [acknowledgeDeletion] has run exactly
    once, behind the flag [hasCalled]: the bot message is deleted, or its
    components cleared, at most once. *)
Theorem startDoubleCollector_race events send c v i :
  initSendCollectorMessage options send = Some botMsg →
  DoubleMessage c ∈ events → qualifying options func c v →
  DoubleClick i ∈ events → interactionUser i = targetAuthor options →
  acknowledged options events →
  let st := run doubleInit events in
  doubleAwaits st = [] →
  (∃ r, startDoubleCollector options func send events = Some r) ∧
  (∀ es r, es `prefix_of` events →
           startDoubleCollector options func send es = Some r →
           startDoubleCollector options func send events = Some r) ∧
  msgEnded st = true ∧ interactionEnded st = true ∧
  (∀ es, run st es = st) ∧
  hasCalled st = true ∧ cleanups st = 1 ∧
  cleanupCalls st = configuredCleanup options botMsg ∧
  (∀ es, es `prefix_of` events → cleanups (run doubleInit es) ≤ 1).
Proof.
  intros Hsend Hc Hqual Hi Huser Hack st Hquiet.
  unfold startDoubleCollector. rewrite Hsend. fold st.
  destruct (doubleProgress_run events) as (Hdefer & Hmsg & Hclick).
  destruct (doubleGuard_run events) as (Hcount & Hflag & Hcalls).
  fold st in Hdefer, Hmsg, Hclick, Hcount, Hflag, Hcalls.
  assert (Hm : msgEnded st = true).
  { destruct (Hmsg c v Hc Hqual) as [? | [Hw | Hw]]; [done| |];
      rewrite Hquiet in Hw; by apply elem_of_nil in Hw. }
  assert (Hint : interactionEnded st = true) by by apply (Hclick i).
  assert (Hh : hasCalled st = true) by by rewrite Hflag, Hm.
  rewrite Hh in Hcount, Hcalls.
  split_and!; try done.
  - destruct (doublePromise st) as [r|] eqn:Hp; [by exists r|].
    destruct (Hdefer Hack eq_refl Hh) as (j & Hj & _).
    rewrite Hquiet in Hj. by apply elem_of_nil in Hj.
  - intros es r [es' ->] Hr. subst st. rewrite doubleRun_app.
    by apply doublePromise_run.
  - intros es. by apply doubleRun_finished.
  - intros es _. destruct (doubleGuard_run es) as (-> & _). case_match; lia.
Qed.

End DoubleCollector.

Section Cancellation.

Context {T : Type}.
Variable truthyValue : T → bool.
Variable options : Options.
Variable func : Message → option T.

Lemma isCancel_token flag c :
  cancelFlag options = Some flag → flag ≠ ""%string →
  toLowerCase flag = toLowerCase (content c) →
  isCancel options c = true.
Proof.
  intros Hflag Hne Heq. unfold isCancel, truthy, strictEquals. rewrite Hflag, Heq.
  rewrite String.eqb_refl, andb_true_r.
  apply negb_true_iff, String.eqb_neq, Hne.
Qed.

(** C2, amended: in the text-only wait, a message of the target author whose
    body equals the non-empty cancel token, letter case apart, resolves the
    pending promise with [null].  The end of the time resolves it with
    [null] too, so that the two outcomes are the same value; a matched value
    is a different one. *)
Theorem startNormalCollector_cancel_is_null botMsg flag c st :
  cancelFlag options = Some flag → flag ≠ ""%string →
  toLowerCase flag = toLowerCase (content c) →
  author c = targetAuthor options →
  (deleteResponseMessage options = true → deleteFails c = false) →
  normalEnded st = false →
  normalPromise st = None →
  normalPromise (normalDeliver truthyValue options func botMsg c st) = Some Null ∧
  normalPromise (normalStep truthyValue options func botMsg st NormalTime) = Some Null ∧
  (∀ c' v,
     author c' = targetAuthor options →
     (deleteResponseMessage options = true → deleteFails c' = false) →
     isCancel options c' = false → func c' = Some v → truthyValue v = true →
     normalPromise
       (normalStep truthyValue options func botMsg
          (normalDeliver truthyValue options func botMsg c' st)
          (NormalResume (length (normalAwaits st))))
     = Some (Matched v) ∧
     Some (Matched v) ≠ Some (Null (T := T))).
Proof.
  intros Hflag Hne Heq Hauthor Hdelete Hend Hpending.
  split_and!.
  - rewrite normalDeliver_cancel by eauto using isCancel_token.
    destruct (deleteResponseMessage options); cbn; by rewrite Hpending.
  - cbn. unfold normalStop. rewrite Hend. unfold normalOnEnd.
    rewrite decide_True by done. cbn.
    by destruct (_ && _); cbn; rewrite Hpending.
  - intros c' v Hauthor' Hdelete' Hcancel' Hfunc Htruthy. split; [|done].
    rewrite normalDeliver_eq by done. unfold normalCheckCancel.
    rewrite Hcancel', Hfunc.
    set (st' := normalCall (Extract c') _).
    replace (length (normalAwaits st)) with (length (normalAwaits st'))
      by (subst st'; by destruct (deleteResponseMessage options)).
    rewrite normalResume_last. cbn [normalContinue]. rewrite Htruthy.
    cbn. unfold normalStop.
    replace (normalEnded st') with false
      by (subst st'; by destruct (deleteResponseMessage options)).
    unfold normalOnEnd. rewrite decide_False by done.
    subst st'. destruct (deleteResponseMessage options), (_ && _); cbn; by rewrite Hpending.
Qed.

(** C3, amended: in the text-only wait and in the message branch of the
    combined wait, the handler of a message whose body equals the non-empty
    cancel token, letter case apart, resolves the promise with [null] and
    stops there: [func] is not applied to the message and no handler is left
    waiting for it.  A matched value the promise is resolved with was always
    extracted from a message that does not equal the cancel token. *)
Theorem cancel_before_extractor flag c :
  cancelFlag options = Some flag → flag ≠ ""%string →
  toLowerCase flag = toLowerCase (content c) →
  author c = targetAuthor options →
  (∀ botMsg st,
     normalEnded st = false →
     (deleteResponseMessage options = true → deleteFails c = false) →
     let st' := normalDeliver truthyValue options func botMsg c st in
     normalPromise st' = resolvePromise Null (normalPromise st) ∧
     (normalPromise st = None → normalPromise st' = Some Null) ∧
     normalAwaits st' = normalAwaits st ∧
     (Extract c ∈ normalCalls st' → Extract c ∈ normalCalls st)) ∧
  (∀ botMsg st,
     msgEnded st = false →
     let st' := doubleDeliver options func botMsg c st in
     doublePromise st' = resolvePromise Null (doublePromise st) ∧
     (doublePromise st = None → doublePromise st' = Some Null) ∧
     doubleAwaits st' = doubleAwaits st ∧
     (Extract c ∈ doubleCalls st' → Extract c ∈ doubleCalls st)) ∧
  (∀ send events v,
     startNormalCollector truthyValue options func send events = Some (Matched v) →
     ∃ c', NormalMessage c' ∈ events ∧ isCancel options c' = false ∧ func c' = Some v) ∧
  (∀ send events v,
     startDoubleCollector options func send events = Some (Matched v) →
     ∃ c', DoubleMessage c' ∈ events ∧ isCancel options c' = false ∧ func c' = Some v).
Proof.
  intros Hflag Hne Heq Hauthor.
  pose proof (isCancel_token flag c Hflag Hne Heq) as Hcancel.
  split_and!.
  - intros botMsg st Hend Hdelete st'. subst st'.
    rewrite normalDeliver_cancel by done.
    destruct (deleteResponseMessage options); cbn; split_and!; try done.
    + by intros ->.
    + intros Hin. apply elem_of_app in Hin as [? | Hin]; [done|].
      by apply list_elem_of_singleton in Hin.
    + by intros ->.
  - intros botMsg st Hend st'. subst st'.
    rewrite doubleDeliver_eq by done. unfold doubleCheckCancel. rewrite Hcancel.
    set (st1 := if deleteResponseMessage options then _ else _).
    destruct (interactionCollectorStop_user options botMsg st1) as [Hp Hcalls].
    destruct (interactionCollectorStop_fields options botMsg user st1) as (_ & _ & Ha).
    assert (Hp1 : doublePromise st1 = doublePromise st)
      by (subst st1; by destruct (deleteResponseMessage options)).
    assert (Ha1 : doubleAwaits st1 = doubleAwaits st)
      by (subst st1; by destruct (deleteResponseMessage options)).
    assert (Hc1 : ∀ x, x ∈ doubleCalls st1 → x ∈ doubleCalls st ∨ x = DeleteResponse c).
    { subst st1. destruct (deleteResponseMessage options); cbn; [|by left].
      intros x Hx. apply elem_of_app in Hx as [? | Hx]; [by left|].
      right. by apply list_elem_of_singleton in Hx. }
    cbn [doublePromise doubleAwaits doubleCalls doubleResolve].
    rewrite Hp, Ha, Hp1, Ha1. split_and!; try done.
    + by intros ->.
    + intros Hx. destruct (Hcalls _ Hx) as [Hx1 | ?]; [|discriminate].
      by destruct (Hc1 _ Hx1).
  - intros send events v Hv. unfold startNormalCollector in Hv.
    destruct (normalOrigin_run truthyValue options func
                (initSendCollectorMessage options send) events) as [_ Hpromise].
    by apply Hpromise.
  - intros send events v Hv. unfold startDoubleCollector in Hv.
    destruct (initSendCollectorMessage options send) as [botMsg|]; [|discriminate].
    destruct (doubleOrigin_run options func botMsg events) as [_ Hpromise].
    by apply Hpromise.
Qed.

End Cancellation.

(** C1 on an interleaving in which the click comes first and is awaiting
    [deferUpdate] when the message arrives and is matched. *)
Lemma startDoubleCollector_race_witness :
  let options := sampleOptions (Some "cancel") false in
  let events := [DoubleClick sampleClick; DoubleMessage (sampleMessage "42" false);
                 DoubleResume 1; DoubleResume 0] in
  startDoubleCollector options acceptSeven (Fulfilled sampleBotMessage) events
  = Some (Matched 7%nat) ∧
  cleanups (doubleRun options acceptSeven sampleBotMessage doubleInit events) = 1.
Proof.
  intros options events.
  pose proof (startDoubleCollector_race options acceptSeven sampleBotMessage events
                (Fulfilled sampleBotMessage) (sampleMessage "42" false) 7%nat sampleClick)
    as H.
  destruct H as ([r Hr] & _ & _ & _ & _ & _ & Hcleanups & _).
  - reflexivity.
  - apply list_elem_of_In. vm_compute. tauto.
  - split_and!; reflexivity.
  - apply list_elem_of_In. vm_compute. tauto.
  - reflexivity.
  - intros _ j Hj. apply list_elem_of_In in Hj. vm_compute in Hj.
    destruct Hj as [Hj | [Hj | [Hj | [Hj | []]]]]; try discriminate Hj.
    by injection Hj as <-.
  - reflexivity.
  - split; [reflexivity | exact Hcleanups].
Defined.

(** ** C2 *)

(** C2, as stated, fails: the text-only wait resolves with [null] both when
    the cancel token is typed and when the time is over, so that the two
    outcomes cannot be told apart.  Moreover an empty cancel token is never
    tested, and when the deletion of the message is asked for and fails the
    handler ends before it tests the token. *)
Lemma cancel_same_as_timeout_counterexample :
  let options := sampleOptions (Some "cancel") false in
  let c := sampleMessage "CANCEL" false in
  (toLowerCase "cancel" = toLowerCase (content c) ∧
   startNormalCollector truthyNumber options acceptSeven (Fulfilled sampleBotMessage)
     [NormalMessage c]
   = startNormalCollector truthyNumber options acceptSeven (Fulfilled sampleBotMessage)
       [NormalTime]) ∧
  startNormalCollector truthyNumber (sampleOptions (Some "") false) acceptSeven
    (Fulfilled sampleBotMessage) [NormalMessage (sampleMessage "" false); NormalResume 0]
  = Some (Matched 7%nat) ∧
  startNormalCollector truthyNumber (sampleOptions (Some "cancel") true) acceptSeven
    (Fulfilled sampleBotMessage) [NormalMessage (sampleMessage "cancel" true); NormalResume 0]
  = None.
Proof. vm_compute. done. Qed.

Lemma startNormalCollector_cancel_is_null_witness :
  let options := sampleOptions (Some "cancel") true in
  let c := sampleMessage "Cancel" false in
  normalPromise
    (normalDeliver truthyNumber options acceptSeven (Some sampleBotMessage) c normalInit)
  = Some Null.
Proof.
  intros options c.
  refine (proj1 (startNormalCollector_cancel_is_null truthyNumber options acceptSeven
                   (Some sampleBotMessage) "cancel" c normalInit _ _ _ _ _ _ _)).
  - reflexivity.
  - discriminate.
  - reflexivity.
  - reflexivity.
  - reflexivity.
  - reflexivity.
  - reflexivity.
Defined.

(** ** C3 *)

(** C3, as stated, fails.  An empty cancel token is falsy, so that the flag
    is not tested: a message with an empty body is matched.  And in the
    text-only wait, when the deletion of the message is asked for and
    fails, the handler ends before it tests the flag: the promise stays
    pending. *)
Lemma cancel_token_counterexample :
  let c := sampleMessage "" false in
  let d := sampleMessage "cancel" true in
  (cancelFlag (sampleOptions (Some "") false) = Some ""%string ∧
   toLowerCase "" = toLowerCase (content c) ∧
   startNormalCollector truthyNumber (sampleOptions (Some "") false) acceptSeven
     (Fulfilled sampleBotMessage) [NormalMessage c; NormalResume 0]
   = Some (Matched 7%nat) ∧
   startDoubleCollector (sampleOptions (Some "") false) acceptSeven
     (Fulfilled sampleBotMessage) [DoubleMessage c; DoubleResume 0]
   = Some (Matched 7%nat)) ∧
  (toLowerCase "cancel" = toLowerCase (content d) ∧
   startNormalCollector truthyNumber (sampleOptions (Some "cancel") true) acceptSeven
     (Fulfilled sampleBotMessage) [NormalMessage d; NormalResume 0]
   = None).
Proof. vm_compute. done. Qed.

Lemma cancel_before_extractor_witness :
  let options := sampleOptions (Some "cancel") false in
  let c := sampleMessage "CaNcEl" false in
  acceptSeven c = Some 7%nat ∧
  normalPromise
    (normalDeliver truthyNumber options acceptSeven (Some sampleBotMessage) c normalInit)
  = Some Null ∧
  doublePromise (doubleDeliver options acceptSeven sampleBotMessage c doubleInit)
  = Some Null.
Proof.
  intros options c.
  destruct (cancel_before_extractor truthyNumber options acceptSeven "cancel" c)
    as (Hnormal & Hdouble & _).
  - reflexivity.
  - discriminate.
  - reflexivity.
  - reflexivity.
  - split; [reflexivity|]. split.
    + apply (Hnormal (Some sampleBotMessage) normalInit); [reflexivity | discriminate | reflexivity].
    + apply (Hdouble sampleBotMessage doubleInit); reflexivity.
Defined.

(** ** C4 *)

(** C4, as stated, fails for the text-only wait: when the bot message cannot
    be sent the collector is made all the same, and a message is matched. *)
Lemma send_failure_counterexample :
  let options := sampleOptions (Some "cancel") false in
  initSendCollectorMessage options Rejected = None ∧
  startNormalCollector truthyNumber options acceptSeven Rejected
    [NormalMessage (sampleMessage "42" false); NormalResume 0]
  = Some (Matched 7%nat).
Proof. vm_compute. done. Qed.

(** C4, amended: an error thrown while the bot message is sent is swallowed.
    The owned component wait and the combined wait then yield [null]; the
    text-only wait goes on without a bot message, as if none had been asked
    for, and never deletes one.  When the time of [awaitMessageComponent] is
    over, both component waits catch the error and yield [null], the owned
    one as long as the clean-up of its bot message does not fail. *)
Theorem send_failure_and_timeout (options : Options) (text : string) :
  msgOptions options = Some text →
  initSendCollectorMessage options Rejected = None ∧
  (∀ incoming, startInteractionCollector options Rejected incoming = (Fulfilled None, [])) ∧
  (∀ T (func : Message → option T) events,
     startDoubleCollector options func Rejected events = Some Null) ∧
  (∀ T truthyValue (func : Message → option T) events,
     startNormalCollector truthyValue options func Rejected events
     = normalPromise (normalRun truthyValue options func None normalInit events) ∧
     DeleteBase ∉ normalCalls (normalRun truthyValue options func None normalInit events)) ∧
  (∀ uniqueIdentifier incoming,
     Forall (λ i, interactionUser i ≠ targetAuthor options) incoming →
     startInteractionEphemeralCollector options uniqueIdentifier incoming = (None, [])) ∧
  (∀ botMsg incoming,
     Forall (λ i, interactionUser i ≠ targetAuthor options) incoming →
     botDeleteFails botMsg = false → botEditFails botMsg = false →
     (startInteractionCollector options (Fulfilled botMsg) incoming).1 = Fulfilled None).
Proof.
  intros Hsend.
  assert (Hinit : initSendCollectorMessage options Rejected = None).
  { unfold initSendCollectorMessage. by rewrite Hsend. }
  assert (Hfind : ∀ (g : MessageComponentInteraction → bool) incoming,
            Forall (λ i, interactionUser i ≠ targetAuthor options) incoming →
            (∀ i, g i = true → interactionUser i = targetAuthor options) →
            awaitMessageComponent g incoming = Rejected).
  { intros g incoming Hall Hg. unfold awaitMessageComponent.
    destruct (List.find g incoming) as [i|] eqn:Hi; [|done].
    apply List.find_some in Hi as [Hin Hgi].
    apply list_elem_of_In in Hin.
    by destruct (proj1 (Forall_forall _ _) Hall i Hin (Hg i Hgi)). }
  split_and!.
  - done.
  - intros incoming. unfold startInteractionCollector. by rewrite Hinit.
  - intros T func events. unfold startDoubleCollector. by rewrite Hinit.
  - intros T truthyValue func events. unfold startNormalCollector. rewrite Hinit.
    split; [done|].
    apply normalRun_no_bot_message. cbn. apply not_elem_of_nil.
  - intros uid incoming Hall. unfold startInteractionEphemeralCollector.
    rewrite Hfind; [done|done|].
    intros i Hi. apply andb_true_iff in Hi as [Hi _]. by apply String.eqb_eq.
  - intros botMsg incoming Hall Hdel Hedit. unfold startInteractionCollector.
    unfold initSendCollectorMessage. rewrite Hsend. cbn.
    rewrite Hfind; [|done|intros i Hi; by apply String.eqb_eq].
    rewrite Hdel, Hedit. by repeat case_match.
Qed.

Lemma send_failure_and_timeout_witness :
  startDoubleCollector (sampleOptions (Some "cancel") false) acceptSeven Rejected
    [DoubleMessage (sampleMessage "42" false); DoubleResume 0]
  = Some Null.
Proof.
  destruct (send_failure_and_timeout (sampleOptions (Some "cancel") false)
              "Type a number, or press a button." eq_refl)
    as (_ & _ & Hdouble & _).
  apply Hdouble.
Defined.

(** ** The text-only wait: further properties *)

Section NormalCollectorMore.

Context {T : Type}.
Variable truthyValue : T → bool.
Variable options : Options.
Variable func : Message → option T.
Variable botMsg : option BotMessage.

Local Abbreviation step := (normalStep truthyValue options func botMsg).
Local Abbreviation run := (normalRun truthyValue options func botMsg).

(** *** The promise is resolved once *)

Lemma normalPromise_stop r (st : NormalState T) x :
  normalPromise st = Some x → normalPromise (normalStop options botMsg r st) = Some x.
Proof.
  intros H. unfold normalStop, normalOnEnd. destruct (normalEnded st); [done|].
  destruct (_ && _), (decide _); cbn; by rewrite ?H.
Qed.

Lemma normalPromise_checkCancel c st x :
  normalPromise st = Some x → normalPromise (normalCheckCancel options func c st) = Some x.
Proof. intros H. unfold normalCheckCancel. destruct (isCancel _ _); cbn; by rewrite ?H. Qed.

Lemma normalPromise_step st e x :
  normalPromise st = Some x → normalPromise (step st e) = Some x.
Proof.
  intros H. destruct e as [m | | k]; cbn [normalStep].
  - destruct (normalEnded st); [done|]. destruct (strictEquals _ _); [|done].
    unfold normalOnCollect. destruct (deleteResponseMessage options); [done|].
    by apply normalPromise_checkCancel.
  - by apply normalPromise_stop.
  - destruct (normalAwaits st !! k) as [a|]; [|done].
    destruct a as [c | c [v|]]; cbn [normalContinue].
    + destruct (deleteFails c); [done|]. by apply normalPromise_checkCancel.
    + destruct (truthyValue v); [|done]. cbn.
      by rewrite (normalPromise_stop user _ x).
    + done.
Qed.

Lemma normalPromise_run st es x :
  normalPromise st = Some x → normalPromise (run st es) = Some x.
Proof.
  revert st. induction es as [|e es IH]; intros st Hx; [done|].
  cbn. apply IH. by apply normalPromise_step.
Qed.

(** *** The clean-up is made when the collector ends *)

Lemma normalGuard_same (st st' : NormalState T) :
  normalEnded st' = normalEnded st →
  (normalPromise st ≠ None → normalPromise st' ≠ None) →
  List.filter isCleanupCall (normalCalls st') = List.filter isCleanupCall (normalCalls st) →
  normalGuard options botMsg st → normalGuard options botMsg st'.
Proof. unfold normalGuard. intros -> Hp -> [H1 H2]. split; auto. Qed.

Lemma normalGuard_call c (st : NormalState T) :
  isCleanupCall c = false →
  normalGuard options botMsg st → normalGuard options botMsg (normalCall c st).
Proof.
  intros Hc. apply normalGuard_same; try done.
  cbn. rewrite List.filter_app. cbn. rewrite Hc. apply app_nil_r.
Qed.

Lemma normalGuard_await a (st : NormalState T) :
  normalGuard options botMsg st → normalGuard options botMsg (normalAwait a st).
Proof. by apply normalGuard_same. Qed.

Lemma normalGuard_resolve r (st : NormalState T) :
  List.filter isCleanupCall (normalCalls st)
  = (if normalEnded st then normalCleanup options botMsg else []) →
  normalGuard options botMsg (normalResolve r st).
Proof. intros H. split; [|done]. intros _. cbn. by destruct (normalPromise st). Qed.

Lemma normalStop_ended r (st : NormalState T) :
  normalEnded (normalStop options botMsg r st) = true.
Proof.
  unfold normalStop, normalOnEnd. destruct (normalEnded st) eqn:He; [done|].
  by destruct (_ && _), (decide _).
Qed.

Lemma normalStop_cleanup r (st : NormalState T) :
  List.filter isCleanupCall (normalCalls st)
  = (if normalEnded st then normalCleanup options botMsg else []) →
  List.filter isCleanupCall (normalCalls (normalStop options botMsg r st))
  = normalCleanup options botMsg.
Proof.
  unfold normalStop, normalOnEnd, normalCleanup. destruct (normalEnded st); [done|].
  intros H. destruct (_ && _), (decide _); cbn; rewrite ?List.filter_app, H; done.
Qed.

Lemma normalGuard_checkCancel c st :
  normalGuard options botMsg st →
  normalGuard options botMsg (normalCheckCancel options func c st).
Proof.
  intros Hst. unfold normalCheckCancel. destruct (isCancel options c).
  - apply normalGuard_resolve, Hst.
  - by apply normalGuard_await, normalGuard_call.
Qed.

Lemma normalGuard_step st e :
  normalGuard options botMsg st → normalGuard options botMsg (step st e).
Proof.
  intros Hst. destruct e as [m | | k]; cbn [normalStep].
  - destruct (normalEnded st); [done|]. destruct (strictEquals _ _); [|done].
    unfold normalOnCollect. destruct (deleteResponseMessage options).
    + by apply normalGuard_await, normalGuard_call.
    + by apply normalGuard_checkCancel.
  - split.
    + intros _. unfold normalStop, normalOnEnd.
      destruct (normalEnded st) eqn:He; [by apply Hst|].
      rewrite decide_True by done. cbn.
      by destruct (_ && _); cbn; destruct (normalPromise st).
    + rewrite normalStop_ended. apply normalStop_cleanup, Hst.
  - destruct (normalAwaits st !! k) as [a|]; [|done].
    set (st' := Build_NormalState _ _ _ _).
    assert (Hst' : normalGuard options botMsg st') by by apply (normalGuard_same st).
    destruct a as [c | c [v|]]; cbn [normalContinue]; [| |done].
    + destruct (deleteFails c); [done|]. by apply normalGuard_checkCancel.
    + destruct (truthyValue v); [|done].
      apply normalGuard_resolve. rewrite normalStop_ended.
      apply normalStop_cleanup, Hst'.
Qed.

Lemma normalGuard_run events : normalGuard options botMsg (run normalInit events).
Proof.
  induction events as [|e events IH] using rev_ind; [done|].
  rewrite normalRun_snoc. by apply normalGuard_step.
Qed.

(** *** What does not qualify *)

Lemma normalIdling_checkCancel c st :
  normalUnqualified truthyValue options func c = true →
  normalIdling truthyValue options func st →
  normalCheckCancel options func c st
  = normalAwait (NormalAwaitFunc c (func c)) (normalCall (Extract c) st) ∧
  normalIdling truthyValue options func (normalCheckCancel options func c st).
Proof.
  unfold normalUnqualified. intros Hc Hst.
  apply andb_true_iff in Hc as [Hcancel Hfunc]. apply negb_true_iff in Hcancel.
  unfold normalCheckCancel. rewrite Hcancel. split; [done|].
  unfold normalIdling. cbn. apply Forall_app. split; [done|].
  constructor; [|constructor].
  destruct (func c) as [v|]; [|done]. by apply negb_true_iff.
Qed.

(** An event that does not qualify leaves the promise, the collector and the
    clean-up as they are. *)
Lemma normalIdle_step st e :
  normalIdle truthyValue options func e = true →
  normalIdling truthyValue options func st →
  let st' := step st e in
  normalIdling truthyValue options func st' ∧ normalPromise st' = normalPromise st ∧
  normalEnded st' = normalEnded st ∧
  List.filter isCleanupCall (normalCalls st') = List.filter isCleanupCall (normalCalls st).
Proof.
  assert (Hcalls : ∀ c (st : NormalState T), isCleanupCall c = false →
            List.filter isCleanupCall (normalCalls st ++ [c])
            = List.filter isCleanupCall (normalCalls st)).
  { intros c st0 Hc. rewrite List.filter_app. cbn. rewrite Hc. apply app_nil_r. }
  intros He Hst. destruct e as [m | | k]; cbn [normalStep normalIdle] in *; [| done |].
  - destruct (normalEnded st) eqn:Hend; [done|].
    destruct (strictEquals _ _); [|done]. cbn in He.
    unfold normalOnCollect. destruct (deleteResponseMessage options).
    + cbn. split_and!; [|done|done|by apply Hcalls].
      unfold normalIdling. cbn. apply Forall_app. split; [done|]. by repeat constructor.
    + destruct (normalIdling_checkCancel m st He Hst) as [Heq Hidle].
      split_and!; [exact Hidle|rewrite Heq..]; [done|done|]. cbn. by apply Hcalls.
  - destruct (normalAwaits st !! k) as [a|] eqn:Hk; [|done].
    pose proof (Forall_lookup_1 _ _ _ _ Hst Hk) as Ha.
    set (st' := Build_NormalState _ _ _ _).
    assert (Hst' : normalIdling truthyValue options func st') by by apply Forall_delete.
    destruct a as [c | c [v|]]; cbn [normalContinue]; cbn beta iota in Ha.
    + destruct (deleteFails c); [done|].
      destruct (normalIdling_checkCancel c st' Ha Hst') as [Heq Hidle].
      split_and!; [exact Hidle|rewrite Heq..]; [done|done|]. cbn. by apply Hcalls.
    + by rewrite Ha.
    + done.
Qed.

Lemma normalIdle_run events :
  Forall (λ e, normalIdle truthyValue options func e = true) events →
  let st := run normalInit events in
  normalIdling truthyValue options func st ∧ normalPromise st = None ∧ normalEnded st = false ∧
  List.filter isCleanupCall (normalCalls st) = [].
Proof.
  induction events as [|e events IH] using rev_ind; intros Hall.
  - cbn. split_and!; try done. constructor.
  - apply Forall_app in Hall as [Hall He]. apply (proj1 (Forall_singleton _ _)) in He.
    destruct (IH Hall) as (Hidle & Hp & Hend & Hcalls).
    cbv zeta. rewrite normalRun_snoc.
    pose proof (normalIdle_step _ _ He Hidle) as Hstep. cbv zeta in Hstep.
    destruct Hstep as (? & -> & -> & ->). done.
Qed.

(** *** What the collector hears *)

Lemma normalHeard_run st events :
  run st (List.filter (normalHeard options) events) = run st events.
Proof.
  revert st. induction events as [|e events IH]; intros st; [done|].
  cbn [List.filter]. unfold normalRun in *.
  destruct (normalHeard options e) eqn:He; cbn [fold_left]; [apply IH|].
  rewrite IH. f_equal.
  destruct e as [m | | k]; try discriminate He. cbn in He.
  cbn [normalStep]. rewrite He. by destruct (normalEnded st).
Qed.

End NormalCollectorMore.

(** X2: when the time of the text-only wait is over, the promise is
    resolved: with what it was resolved with before, and with [null] when it
    was pending.  So after the end of the time the promise is never
    pending. *)
Theorem startNormalCollector_time_settles {T : Type} (truthyValue : T → bool) options
    (func : Message → option T) send events :
  startNormalCollector truthyValue options func send (events ++ [NormalTime])
  = Some (default Null (startNormalCollector truthyValue options func send events)) ∧
  ∀ later, ∃ r,
    startNormalCollector truthyValue options func send (events ++ NormalTime :: later)
    = Some r.
Proof.
  assert (Hfirst :
    startNormalCollector truthyValue options func send (events ++ [NormalTime])
    = Some (default Null (startNormalCollector truthyValue options func send events))).
  { unfold startNormalCollector. rewrite normalRun_snoc.
    destruct (normalGuard_run truthyValue options func
                (initSendCollectorMessage options send) events) as [Hend _].
    set (st := normalRun _ _ _ _ _ _) in *. cbn [normalStep].
    unfold normalStop, normalOnEnd. destruct (normalEnded st).
    - destruct (normalPromise st); [done|]. by destruct Hend.
    - rewrite decide_True by done. cbn.
      by destruct (_ && _); cbn; destruct (normalPromise st). }
  split; [done|]. intros later. eexists.
  replace (events ++ NormalTime :: later) with ((events ++ [NormalTime]) ++ later)
    by (by rewrite <- app_assoc).
  unfold startNormalCollector in *. rewrite normalRun_app.
  apply normalPromise_run. exact Hfirst.
Qed.

Lemma startNormalCollector_time_settles_witness :
  ∃ r, startNormalCollector truthyNumber (sampleOptions None true) acceptSeven
         (Fulfilled sampleBotMessage)
         ([NormalMessage (sampleMessage "42" true)] ++
          NormalTime :: [NormalResume 0; NormalMessage (sampleMessage "43" false)])
       = Some r.
Proof.
  apply (startNormalCollector_time_settles truthyNumber (sampleOptions None true) acceptSeven
           (Fulfilled sampleBotMessage) [NormalMessage (sampleMessage "42" true)]).
Defined.

(** X3: the text-only wait deletes its bot message at most once, when the
    collector ends and not before, and only when the deletion is asked for
    and there is a bot message that can be deleted; it never clears
    components.  A collector that has ended has resolved the promise. *)
Theorem startNormalCollector_deletes_once {T : Type} (truthyValue : T → bool) options
    (func : Message → option T) send events :
  let botMsg := initSendCollectorMessage options send in
  let st := normalRun truthyValue options func botMsg normalInit events in
  List.filter isCleanupCall (normalCalls st)
  = (if normalEnded st
        && deleteBaseMsgAfterComplete options
        && match botMsg with Some b => deletable b | None => false end
     then [DeleteBase] else []) ∧
  (normalEnded st = true →
   ∃ r, startNormalCollector truthyValue options func send events = Some r).
Proof.
  intros botMsg st.
  destruct (normalGuard_run truthyValue options func botMsg events) as [Hp Hc].
  fold st in Hp, Hc. split.
  - rewrite Hc. unfold normalCleanup. destruct (normalEnded st); [|done].
    by rewrite andb_true_l.
  - intros Hend. unfold startNormalCollector. fold botMsg st.
    destruct (normalPromise st) as [r|]; [by exists r|]. by destruct Hp.
Qed.

Lemma startNormalCollector_deletes_once_witness :
  ∃ r, startNormalCollector truthyNumber (sampleOptions None false) acceptSeven
         (Fulfilled sampleBotMessage)
         [NormalMessage (sampleMessage "42" false); NormalResume 0; NormalTime]
       = Some r.
Proof.
  apply (startNormalCollector_deletes_once truthyNumber (sampleOptions None false) acceptSeven
           (Fulfilled sampleBotMessage)
           [NormalMessage (sampleMessage "42" false); NormalResume 0; NormalTime]).
  reflexivity.
Defined.

(** X4: the text-only wait without qualifying input.  As long as all that
    happens are messages of other users and messages of the target author
    that do not cancel and from which [func] extracts nothing truthy, the
    promise stays pending and nothing is cleaned up.  When the time is then
    over, the promise is resolved with [null] and the bot message is
    deleted, once, when that is asked for and possible. *)
Theorem startNormalCollector_timeout {T : Type} (truthyValue : T → bool) options
    (func : Message → option T) send events :
  Forall (λ e, normalIdle truthyValue options func e = true) events →
  let botMsg := initSendCollectorMessage options send in
  let st := normalRun truthyValue options func botMsg normalInit events in
  let st' := normalRun truthyValue options func botMsg normalInit (events ++ [NormalTime]) in
  startNormalCollector truthyValue options func send events = None ∧
  List.filter isCleanupCall (normalCalls st) = [] ∧
  startNormalCollector truthyValue options func send (events ++ [NormalTime]) = Some Null ∧
  List.filter isCleanupCall (normalCalls st') = normalCleanup options botMsg.
Proof.
  intros Hall botMsg st st'.
  destruct (normalIdle_run truthyValue options func botMsg events Hall)
    as (_ & Hp & Hend & Hcalls).
  fold st in Hp, Hend, Hcalls. unfold startNormalCollector. fold botMsg st st'.
  split_and!; try done.
  - subst st'. rewrite normalRun_snoc. fold st. cbn [normalStep].
    unfold normalStop, normalOnEnd. rewrite Hend, decide_True by done. cbn.
    by destruct (_ && _); cbn; rewrite Hp.
  - subst st'. rewrite normalRun_snoc. fold st. cbn [normalStep].
    apply normalStop_cleanup. by rewrite Hend.
Qed.

Lemma startNormalCollector_timeout_witness :
  startNormalCollector truthyNumber (sampleOptions (Some "cancel") false)
    (λ _ : Message, Some 0%nat) (Fulfilled sampleBotMessage)
    ([NormalMessage (sampleMessage "zero" false); NormalResume 0] ++ [NormalTime])
  = Some Null.
Proof.
  apply (startNormalCollector_timeout truthyNumber (sampleOptions (Some "cancel") false)
           (λ _ : Message, Some 0%nat) (Fulfilled sampleBotMessage)
           [NormalMessage (sampleMessage "zero" false); NormalResume 0]).
  repeat constructor.
Defined.

(** ** The combined wait: further properties *)

Section DoubleCollectorMore.

Context {T : Type}.
Variable options : Options.
Variable func : Message → option T.
Variable botMsg : BotMessage.

Local Abbreviation step := (doubleStep options func botMsg).
Local Abbreviation run := (doubleRun options func botMsg).

(** The flags, the promise and the clean-up are the same in two states. *)
Local Abbreviation unchanged st st' :=
  (doublePromise st' = doublePromise st ∧ hasCalled st' = hasCalled st ∧
   msgEnded st' = msgEnded st ∧ interactionEnded st' = interactionEnded st ∧
   cleanupCalls st' = cleanupCalls st ∧ cleanups st' = cleanups st).

Lemma doubleHeard_run st events :
  run st (List.filter (doubleHeard options) events) = run st events.
Proof.
  revert st. induction events as [|e events IH]; intros st; [done|].
  cbn [List.filter]. unfold doubleRun in *.
  destruct (doubleHeard options e) eqn:He; cbn [fold_left]; [apply IH|].
  rewrite IH. f_equal.
  destruct e as [m | i | | | k]; try discriminate He; cbn in He; cbn [doubleStep]; rewrite He.
  - by destruct (msgEnded st).
  - by destruct (interactionEnded st).
Qed.

Lemma cleanupCalls_call c (st : DoubleState T) :
  isCleanupCall c = false → cleanupCalls (doubleCall c st) = cleanupCalls st.
Proof.
  intros Hc. unfold cleanupCalls. cbn. rewrite List.filter_app. cbn. rewrite Hc.
  apply app_nil_r.
Qed.

(** *** What does not qualify *)

Lemma doubleUnqualified_checkCancel c st :
  doubleUnqualified options func c = true →
  doubleCheckCancel options func botMsg c st
  = doubleAwait (DoubleAwaitFunc c None) (doubleCall (Extract c) st).
Proof.
  unfold doubleUnqualified. intros Hc.
  apply andb_true_iff in Hc as [Hcancel Hfunc]. apply negb_true_iff in Hcancel.
  unfold doubleCheckCancel. rewrite Hcancel. by destruct (func c).
Qed.

Lemma doubleIdling_await a (st : DoubleState T) :
  match a with
  | DoubleAwaitDelete c => doubleUnqualified options func c = true
  | DoubleAwaitFunc c attempt => attempt = None
  | DoubleAwaitDefer i => deferUpdateFails i = true
  end →
  doubleIdling options func st → doubleIdling options func (doubleAwait a st).
Proof.
  intros Ha Hst. unfold doubleIdling. cbn. apply Forall_app. split; [done|].
  by repeat constructor.
Qed.

Lemma doubleFruitless_message st m :
  doubleFruitless options func (DoubleMessage m) = true →
  doubleIdling options func st →
  doubleIdling options func (step st (DoubleMessage m)) ∧
  unchanged st (step st (DoubleMessage m)).
Proof.
  intros He Hst. cbn [doubleStep doubleFruitless] in *.
  destruct (msgEnded st) eqn:Hm; [done|]. destruct (strictEquals _ _); [|done]. cbn in He.
  unfold doubleOnMessage. destruct (deleteResponseMessage options).
  - split; [by apply doubleIdling_await|]. split_and!; try done.
    by apply cleanupCalls_call.
  - rewrite doubleUnqualified_checkCancel by done.
    split; [by apply doubleIdling_await|]. split_and!; try done.
    by apply cleanupCalls_call.
Qed.

Lemma doubleIdling_resume st k :
  doubleIdling options func st →
  doubleIdling options func (step st (DoubleResume k)) ∧
  unchanged st (step st (DoubleResume k)).
Proof.
  intros Hst. cbn [doubleStep].
  destruct (doubleAwaits st !! k) as [a|] eqn:Hk; [|done].
  pose proof (Forall_lookup_1 _ _ _ _ Hst Hk) as Ha.
  set (st' := Build_DoubleState _ _ _ _ _ _ _).
  assert (Hst' : doubleIdling options func st') by by apply Forall_delete.
  destruct a as [c | c attempt | i]; cbn [doubleContinue]; cbn beta iota in Ha.
  - rewrite doubleUnqualified_checkCancel by done.
    split; [by apply doubleIdling_await|]. split_and!; try done.
    by apply (cleanupCalls_call (Extract c) st').
  - by subst attempt.
  - by rewrite Ha.
Qed.

Lemma doubleIdle_run events :
  Forall (λ e, doubleIdle options func e = true) events →
  let st := run doubleInit events in
  doubleIdling options func st ∧ unchanged (doubleInit (T := T)) st.
Proof.
  induction events as [|e events IH] using rev_ind; intros Hall.
  - cbn. split_and!; try done. constructor.
  - apply Forall_app in Hall as [Hall He]. apply (proj1 (Forall_singleton _ _)) in He.
    destruct (IH Hall) as (Hidle & Hp & Hh & Hm & Hi & Hc & Hn).
    cbv zeta. rewrite doubleRun_snoc.
    set (st := doubleRun _ _ _ _ _) in *.
    assert (Hstep : doubleIdling options func (step st e) ∧ unchanged st (step st e)).
    { destruct e as [m | i | | | k]; try discriminate He.
      - by apply doubleFruitless_message.
      - cbn in He. apply negb_true_iff in He. cbn [doubleStep]. rewrite He.
        by destruct (interactionEnded st) eqn:Hi'.
      - by apply doubleIdling_resume. }
    destruct Hstep as (? & -> & -> & -> & -> & -> & ->). done.
Qed.

(** The first timer that fires resolves the promise with [null] and makes
    the clean-up. *)
Lemma doubleTimer_first (st : DoubleState T) e :
  e = DoubleMsgTime ∨ e = DoubleInteractionTime →
  doublePromise st = None → hasCalled st = false →
  msgEnded st = false → interactionEnded st = false →
  doublePromise (step st e) = Some Null ∧
  cleanupCalls (step st e) = cleanupCalls st ++ configuredCleanup options botMsg ∧
  cleanups (step st e) = S (cleanups st).
Proof.
  destruct st as [p h m i a c n]. cbn. intros He -> -> -> ->.
  unfold cleanupCalls, configuredCleanup.
  destruct He as [-> | ->]; cbn [doubleStep];
    unfold msgCollectorStop, interactionCollectorStop, acknowledgeDeletion; cbn;
    rewrite decide_True by done;
    (destruct (_ && _); [|destruct (_ && _)]); cbn;
    rewrite ?List.filter_app, ?app_nil_r; done.
Qed.

(** *** A click that cannot be acknowledged *)

Lemma doubleStalled_step st e :
  doubleFruitless options func e = true →
  doubleStalled options func st → doubleStalled options func (step st e).
Proof.
  intros He (Hp & Hh & Hi & Hidle).
  destruct e as [m | i | | | k].
  - destruct (doubleFruitless_message st m He Hidle) as (? & Hp' & Hh' & _ & Hi' & _).
    unfold doubleStalled. by rewrite Hp', Hh', Hi'.
  - cbn [doubleStep]. by rewrite Hi.
  - cbn [doubleStep]. unfold msgCollectorStop, acknowledgeDeletion.
    destruct (msgEnded st); [done|]. cbn. by rewrite Hh.
  - cbn [doubleStep]. unfold interactionCollectorStop. by rewrite Hi.
  - destruct (doubleIdling_resume st k Hidle) as (? & Hp' & Hh' & _ & Hi' & _).
    unfold doubleStalled. by rewrite Hp', Hh', Hi'.
Qed.

Lemma doubleStalled_run st events :
  Forall (λ e, doubleFruitless options func e = true) events →
  doubleStalled options func st → doubleStalled options func (run st events).
Proof.
  revert st. induction events as [|e events IH]; intros st Hall Hst; [done|].
  apply Forall_cons in Hall as [He Hall]. cbn. apply IH; [done|].
  by apply doubleStalled_step.
Qed.

Lemma doubleClick_stalls (st : DoubleState T) i :
  acknowledgeImmediately options = true →
  interactionUser i = targetAuthor options →
  deferUpdateFails i = true →
  doublePromise st = None → interactionEnded st = false →
  doubleIdling options func st →
  doubleStalled options func (step st (DoubleClick i)).
Proof.
  intros Hack Huser Hfail Hp Hi Hidle. cbn [doubleStep]. rewrite Hi.
  unfold strictEquals. rewrite (proj2 (String.eqb_eq _ _) Huser).
  unfold doubleOnClick. rewrite Hack.
  set (st1 := doubleAwait _ _).
  destruct (interactionCollectorStop_fields options botMsg limit st1) as (_ & Hi' & Ha').
  assert (Hp' : doublePromise (interactionCollectorStop options botMsg limit st1) = None).
  { unfold interactionCollectorStop. subst st1. cbn. rewrite Hi.
    destruct (acknowledgeDeletion_fields options botMsg limit
                (Build_DoubleState (doublePromise st) (hasCalled st) (msgEnded st) true
                   (doubleAwaits st ++ [DoubleAwaitDefer i])
                   (doubleCalls st ++ [DeferUpdate i]) (cleanups st)))
      as (_ & _ & _ & _ & ->).
    cbn. rewrite decide_False by done. by destruct (hasCalled st). }
  assert (Hh' : hasCalled (interactionCollectorStop options botMsg limit st1) = true).
  { unfold interactionCollectorStop. subst st1. cbn. rewrite Hi.
    apply (acknowledgeDeletion_fields options botMsg limit). }
  split_and!; try done.
  unfold doubleIdling. rewrite Ha'. by apply doubleIdling_await.
Qed.

(** *** Where a click comes from *)

Lemma firstClick_mono events e i :
  firstClick options events i → firstClick options (events ++ [e]) i.
Proof.
  intros (Huser & before & after & -> & Hbefore). split; [done|].
  exists before, (after ++ [e]). split; [|done]. by rewrite <- app_assoc.
Qed.

Lemma doubleStop_promise r (st : DoubleState T) :
  let st1 := msgCollectorStop options botMsg r st in
  let st2 := interactionCollectorStop options botMsg r st in
  (∀ i, doublePromise st1 = Some (Clicked i) → doublePromise st = Some (Clicked i)) ∧
  (∀ i, doublePromise st2 = Some (Clicked i) → doublePromise st = Some (Clicked i)).
Proof.
  assert (Hack : ∀ st0 : DoubleState T, ∀ i,
            doublePromise (acknowledgeDeletion options botMsg r st0) = Some (Clicked i) →
            doublePromise st0 = Some (Clicked i)).
  { intros st0 i.
    destruct (acknowledgeDeletion_fields options botMsg r st0) as (_ & _ & _ & _ & ->).
    destruct (hasCalled st0); [done|]. destruct (decide _); [|done].
    by destruct (doublePromise st0). }
  cbn. unfold msgCollectorStop, interactionCollectorStop. split; intros i.
  - destruct (msgEnded st); [done|]. intros H. by apply Hack in H.
  - destruct (interactionEnded st); [done|]. intros H. by apply Hack in H.
Qed.

(** The promise and the handlers that wait, as far as clicks go. *)
Local Abbreviation clicks b events st :=
  (Forall (λ a, match a with
                | DoubleAwaitDefer i => firstClick options events i
                | _ => True
                end) (doubleAwaits st) ∧
   ∀ i, doublePromise st = Some (Clicked i) →
        firstClick options events i ∧ (b = true → deferUpdateFails i = false)).

Lemma doubleClicks_msgCollectorStop b events r (st : DoubleState T) :
  clicks b events st → clicks b events (msgCollectorStop options botMsg r st).
Proof.
  intros [Ha Hp].
  destruct (msgCollectorStop_fields options botMsg r st) as (_ & _ & Hawaits).
  destruct (doubleStop_promise r st) as [Hstop _].
  split; [by rewrite Hawaits|]. intros i Hi. by apply Hp, Hstop.
Qed.

Lemma doubleClicks_interactionCollectorStop b events r (st : DoubleState T) :
  clicks b events st → clicks b events (interactionCollectorStop options botMsg r st).
Proof.
  intros [Ha Hp].
  destruct (interactionCollectorStop_fields options botMsg r st) as (_ & _ & Hawaits).
  destruct (doubleStop_promise r st) as [_ Hstop].
  split; [by rewrite Hawaits|]. intros i Hi. by apply Hp, Hstop.
Qed.

Lemma doubleClicks_resolve b events r (st : DoubleState T) :
  (∀ i, r = Clicked i →
        firstClick options events i ∧
        (b = true → deferUpdateFails i = false)) →
  clicks b events st → clicks b events (doubleResolve r st).
Proof.
  intros Hr [Ha Hp]. split; [done|]. cbn. intros i Hi.
  destruct (doublePromise st); cbn in Hi; [by apply Hp|]. apply Hr. congruence.
Qed.

Lemma doubleClicks_await b events a (st : DoubleState T) :
  match a with
  | DoubleAwaitDefer i => firstClick options events i
  | _ => True
  end →
  clicks b events st → clicks b events (doubleAwait a st).
Proof.
  intros Ha [Hawaits Hp]. split; [|done]. cbn.
  apply Forall_app. split; [done|]. by repeat constructor.
Qed.

Lemma doubleClicks_checkCancel b events c st :
  clicks b events st → clicks b events (doubleCheckCancel options func botMsg c st).
Proof.
  intros Hst. unfold doubleCheckCancel. destruct (isCancel options c).
  - apply doubleClicks_resolve; [by intros i [=]|].
    by apply doubleClicks_interactionCollectorStop.
  - by apply doubleClicks_await.
Qed.

Lemma doubleClickOrigin_step events e st :
  doubleClickOrigin options events st →
  doubleClickOrigin options (events ++ [e]) (step st e).
Proof.
  intros (Hnone & Hawaits & Hpromise).
  assert (Hold : clicks (acknowledgeImmediately options) (events ++ [e]) st).
  { split.
    - eapply Forall_impl; [exact Hawaits|]. intros [c | c attempt | i]; try done.
      apply firstClick_mono.
    - intros i Hi. destruct (Hpromise i Hi) as [? ?]. split; [|done].
      by apply firstClick_mono. }
  split.
  { (* no click of the target author while the interaction collector runs *)
    intros Hend.
    destruct (interactionEnded st) eqn:Hi.
    { by rewrite (interactionEnded_step options func botMsg st e Hi) in Hend. }
    apply Forall_app. split; [by apply Hnone|]. constructor; [|constructor].
    destruct e as [m | i | | | k]; try done.
    intros Huser. cbn [doubleStep] in Hend. rewrite Hi in Hend.
    unfold strictEquals in Hend. rewrite (proj2 (String.eqb_eq _ _) Huser) in Hend.
    by rewrite (proj1 (proj2 (interactionCollectorStop_fields options botMsg limit _)))
      in Hend. }
  destruct e as [m | i | | | k]; cbn [doubleStep].
  - destruct (msgEnded st); [done|]. destruct (strictEquals _ _); [|done].
    unfold doubleOnMessage. destruct (deleteResponseMessage options).
    + by apply doubleClicks_await.
    + by apply doubleClicks_checkCancel.
  - destruct (interactionEnded st) eqn:Hi; [done|].
    destruct (strictEquals _ _) eqn:Huser; [|done].
    apply String.eqb_eq in Huser.
    assert (Hfirst : firstClick options (events ++ [DoubleClick i]) i).
    { split; [done|]. exists events, []. split; [done|]. by apply Hnone. }
    apply doubleClicks_interactionCollectorStop.
    unfold doubleOnClick, doubleAfterDefer.
    destruct (acknowledgeImmediately options) eqn:Hack.
    + by apply doubleClicks_await.
    + apply doubleClicks_msgCollectorStop, doubleClicks_resolve; [|done].
      by intros j [= <-].
  - by apply doubleClicks_msgCollectorStop.
  - by apply doubleClicks_interactionCollectorStop.
  - destruct (doubleAwaits st !! k) as [a|] eqn:Hk; [|done].
    destruct Hold as [Hawaits' Hpromise'].
    pose proof (Forall_lookup_1 _ _ _ _ Hawaits' Hk) as Ha.
    set (st' := Build_DoubleState _ _ _ _ _ _ _).
    assert (Hst' : clicks (acknowledgeImmediately options) (events ++ [DoubleResume k]) st').
    { split; [by apply Forall_delete|done]. }
    destruct a as [c | c [v|] | i]; cbn [doubleContinue].
    + by apply doubleClicks_checkCancel.
    + apply doubleClicks_msgCollectorStop, doubleClicks_interactionCollectorStop.
      apply doubleClicks_resolve; [by intros j [=]|done].
    + done.
    + destruct (deferUpdateFails i) eqn:Hfail; [done|].
      unfold doubleAfterDefer.
      apply doubleClicks_msgCollectorStop, doubleClicks_resolve; [|done].
      by intros j [= <-].
Qed.

Lemma doubleClickOrigin_run events :
  doubleClickOrigin options events (run doubleInit events).
Proof.
  induction events as [|e events IH] using rev_ind.
  - split_and!; [by intros _|constructor|by intros i [=]].
  - rewrite doubleRun_snoc. by apply doubleClickOrigin_step.
Qed.

End DoubleCollectorMore.

(** X5: what anyone but the target author sends or clicks is not heard:
    the text-only wait and the combined wait end up in the same state, with
    the same calls made, as on the events without those messages and
    clicks. *)
Theorem collectors_hear_target_only {T : Type} (truthyValue : T → bool) options
    (func : Message → option T) :
  (∀ botMsg st events,
     normalRun truthyValue options func botMsg st (List.filter (normalHeard options) events)
     = normalRun truthyValue options func botMsg st events) ∧
  (∀ botMsg st events,
     doubleRun options func botMsg st (List.filter (doubleHeard options) events)
     = doubleRun options func botMsg st events).
Proof.
  split; intros botMsg st events; [apply normalHeard_run | apply doubleHeard_run].
Qed.

(** X6: the combined wait without qualifying input.  As long as all that
    happens are messages and clicks of other users and messages of the
    target author that do not cancel and from which [func] extracts
    nothing, the promise stays pending and nothing is cleaned up.  The first
    timer that then fires resolves the promise with [null] and makes the
    configured clean-up, once. *)
Theorem startDoubleCollector_timeout {T : Type} options (func : Message → option T)
    send botMsg events timer :
  initSendCollectorMessage options send = Some botMsg →
  Forall (λ e, doubleIdle options func e = true) events →
  timer = DoubleMsgTime ∨ timer = DoubleInteractionTime →
  let st := doubleRun options func botMsg doubleInit events in
  let st' := doubleRun options func botMsg doubleInit (events ++ [timer]) in
  startDoubleCollector options func send events = None ∧
  cleanupCalls st = [] ∧ cleanups st = 0 ∧
  startDoubleCollector options func send (events ++ [timer]) = Some Null ∧
  cleanupCalls st' = configuredCleanup options botMsg ∧ cleanups st' = 1.
Proof.
  intros Hsend Hall Htimer st st'.
  destruct (doubleIdle_run options func botMsg events Hall)
    as (_ & Hp & Hh & Hm & Hi & Hc & Hn).
  fold st in Hp, Hh, Hm, Hi, Hc, Hn. cbn in Hp, Hh, Hm, Hi, Hc, Hn.
  unfold startDoubleCollector. rewrite Hsend. fold st st'.
  destruct (doubleTimer_first options func botMsg st timer Htimer Hp Hh Hm Hi)
    as (Hp' & Hc' & Hn').
  subst st'. rewrite doubleRun_snoc. fold st.
  rewrite Hp', Hc', Hn', Hc, Hn. by split_and!.
Qed.

Lemma startDoubleCollector_timeout_witness :
  startDoubleCollector (sampleOptions (Some "cancel") true) (λ _ : Message, @None nat)
    (Fulfilled sampleBotMessage)
    ([DoubleMessage (sampleMessage "?" true); DoubleResume 0; DoubleResume 0]
     ++ [DoubleInteractionTime])
  = Some Null.
Proof.
  apply (startDoubleCollector_timeout (sampleOptions (Some "cancel") true)
           (λ _ : Message, @None nat) (Fulfilled sampleBotMessage) sampleBotMessage
           [DoubleMessage (sampleMessage "?" true); DoubleResume 0; DoubleResume 0]
           DoubleInteractionTime).
  - reflexivity.
  - repeat constructor.
  - by right.
Defined.

(** X7: in the combined wait with clicks acknowledged at once, a click of
    the target author whose [deferUpdate] fails ends the interaction
    collector and makes the clean-up, but resolves nothing; the time of the
    message collector then ends behind the flag [hasCalled].  So unless a
    message of the target author cancels or qualifies, the promise stays
    pending for ever, timers or not, while the bot message has been cleaned
    up. *)
Theorem startDoubleCollector_stalls {T : Type} options (func : Message → option T)
    send botMsg before i later :
  initSendCollectorMessage options send = Some botMsg →
  acknowledgeImmediately options = true →
  interactionUser i = targetAuthor options →
  deferUpdateFails i = true →
  Forall (λ e, doubleIdle options func e = true) before →
  Forall (λ e, doubleFruitless options func e = true) later →
  let events := before ++ DoubleClick i :: later in
  let st := doubleRun options func botMsg doubleInit events in
  startDoubleCollector options func send events = None ∧
  interactionEnded st = true ∧
  cleanups st = 1 ∧ cleanupCalls st = configuredCleanup options botMsg.
Proof.
  intros Hsend Hack Huser Hfail Hbefore Hlater events st.
  destruct (doubleIdle_run options func botMsg before Hbefore)
    as (Hidle & Hp & _ & _ & Hi & _).
  cbn in Hp, Hi.
  pose proof (doubleClick_stalls options func botMsg _ i Hack Huser Hfail Hp Hi Hidle)
    as Hstalled.
  apply (doubleStalled_run options func botMsg _ later Hlater) in Hstalled.
  assert (Hst : doubleStalled options func st).
  { subst st events. rewrite doubleRun_app. exact Hstalled. }
  destruct Hst as (Hp' & Hh' & Hi' & _).
  destruct (doubleGuard_run options func botMsg events) as (Hn & _ & Hc).
  fold st in Hn, Hc. rewrite Hh' in Hn, Hc.
  unfold startDoubleCollector. rewrite Hsend. by fold st.
Qed.

Lemma startDoubleCollector_stalls_witness :
  startDoubleCollector (sampleOptions (Some "cancel") false) acceptSeven
    (Fulfilled sampleBotMessage)
    ([] ++ DoubleClick {| interactionUser := "alice"; interactionCustomId := "yes";
                          deferUpdateFails := true |}
        :: [DoubleResume 0; DoubleMsgTime; DoubleInteractionTime])
  = None.
Proof.
  apply (startDoubleCollector_stalls (sampleOptions (Some "cancel") false) acceptSeven
           (Fulfilled sampleBotMessage) sampleBotMessage []
           {| interactionUser := "alice"; interactionCustomId := "yes";
              deferUpdateFails := true |}
           [DoubleResume 0; DoubleMsgTime; DoubleInteractionTime]).
  - reflexivity.
  - reflexivity.
  - reflexivity.
  - reflexivity.
  - constructor.
  - repeat constructor.
Defined.

(** X8: a click the combined wait is resolved with is the first click of the
    target author among the events; when clicks are acknowledged at once,
    its [deferUpdate] did not fail. *)
Theorem startDoubleCollector_click_origin {T : Type} options (func : Message → option T)
    send events i :
  startDoubleCollector options func send events = Some (Clicked i) →
  firstClick options events i ∧
  (acknowledgeImmediately options = true → deferUpdateFails i = false).
Proof.
  unfold startDoubleCollector.
  destruct (initSendCollectorMessage options send) as [botMsg|]; [|discriminate].
  intros Hi. by apply (doubleClickOrigin_run options func botMsg events).
Qed.

Lemma startDoubleCollector_click_origin_witness :
  firstClick (sampleOptions None false)
    [DoubleClick {| interactionUser := "bob"; interactionCustomId := "no";
                    deferUpdateFails := false |};
     DoubleClick sampleClick; DoubleResume 0]
    sampleClick.
Proof.
  apply (startDoubleCollector_click_origin (sampleOptions None false) acceptSeven
           (Fulfilled sampleBotMessage)).
  reflexivity.
Defined.

(** ** Values that are falsy, and the cancel token *)

Lemma interactionCollectorStop_first {T : Type} options botMsg r (st : DoubleState T) :
  interactionEnded st = false → hasCalled st = false →
  let st' := interactionCollectorStop options botMsg r st in
  msgEnded st' = msgEnded st ∧ interactionEnded st' = true ∧ hasCalled st' = true ∧
  cleanupCalls st' = cleanupCalls st ++ configuredCleanup options botMsg.
Proof.
  destruct st as [p h m i a c n]. cbn. intros -> ->.
  unfold interactionCollectorStop, acknowledgeDeletion, cleanupCalls, configuredCleanup. cbn.
  (destruct (_ && _); [|destruct (_ && _)]); destruct (decide _); cbn;
    rewrite ?List.filter_app, ?app_nil_r; done.
Qed.

(** X9: a value that [func] extracts and that is falsy, such as [0] or the
    empty string.  The text-only wait takes it as no value: the promise and
    the collector are as before, and the wait goes on.  The combined wait
    takes every value but [null] and [undefined]: it resolves the pending
    promise with the falsy value and ends both collectors. *)
Theorem falsy_value_text_only_vs_combined {T : Type} (truthyValue : T → bool) options
    (func : Message → option T) c v :
  author c = targetAuthor options → isCancel options c = false →
  func c = Some v → truthyValue v = false →
  (∀ botMsg st,
     normalEnded st = false →
     (deleteResponseMessage options = true → deleteFails c = false) →
     let st' := normalStep truthyValue options func botMsg
                  (normalDeliver truthyValue options func botMsg c st)
                  (NormalResume (length (normalAwaits st))) in
     normalPromise st' = normalPromise st ∧ normalEnded st' = false ∧
     normalAwaits st' = normalAwaits st) ∧
  (∀ botMsg st,
     msgEnded st = false → doublePromise st = None →
     let st' := doubleStep options func botMsg (doubleDeliver options func botMsg c st)
                  (DoubleResume (length (doubleAwaits st))) in
     doublePromise st' = Some (Matched v) ∧ msgEnded st' = true ∧
     interactionEnded st' = true).
Proof.
  intros Hauthor Hcancel Hfunc Hfalsy. split.
  - intros botMsg st Hend Hdelete st'. subst st'.
    rewrite normalDeliver_eq by done. unfold normalCheckCancel. rewrite Hcancel, Hfunc.
    set (st1 := normalCall (Extract c) _).
    replace (length (normalAwaits st)) with (length (normalAwaits st1))
      by (subst st1; by destruct (deleteResponseMessage options)).
    rewrite normalResume_last. cbn [normalContinue]. rewrite Hfalsy.
    subst st1. by destruct (deleteResponseMessage options).
  - intros botMsg st Hend Hpending st'. subst st'.
    rewrite doubleDeliver_eq by done. unfold doubleCheckCancel. rewrite Hcancel, Hfunc.
    set (st1 := doubleCall (Extract c) _).
    replace (length (doubleAwaits st)) with (length (doubleAwaits st1))
      by (subst st1; by destruct (deleteResponseMessage options)).
    rewrite doubleResume_last. cbn [doubleContinue].
    set (st2 := doubleResolve (Matched v) st1).
    assert (Hp2 : doublePromise st2 = Some (Matched v)).
    { subst st2 st1. cbn. destruct (deleteResponseMessage options); cbn; by rewrite Hpending. }
    set (st3 := interactionCollectorStop options botMsg user st2).
    destruct (interactionCollectorStop_fields options botMsg user st2) as (_ & Hi3 & _).
    destruct (doubleExtends_interactionCollectorStop options botMsg user st2)
      as (_ & _ & Hp3 & _).
    destruct (msgCollectorStop_fields options botMsg user st3) as (Hm4 & Hi4 & _).
    destruct (doubleExtends_msgCollectorStop options botMsg user st3) as (_ & _ & Hp4 & _).
    split_and!; [by apply Hp4, Hp3 | done | by rewrite Hi4].
Qed.

Lemma falsy_value_text_only_vs_combined_witness :
  let options := sampleOptions None false in
  let func := λ _ : Message, Some 0%nat in
  let c := sampleMessage "0" false in
  startNormalCollector truthyNumber options func (Fulfilled sampleBotMessage)
    [NormalMessage c; NormalResume 0] = None ∧
  doublePromise
    (doubleStep options func sampleBotMessage
       (doubleDeliver options func sampleBotMessage c doubleInit) (DoubleResume 0))
  = Some (Matched 0%nat).
Proof.
  intros options func c.
  destruct (falsy_value_text_only_vs_combined truthyNumber options func c 0%nat)
    as [Hnormal Hdouble]; try reflexivity.
  split.
  - refine (proj1 (Hnormal (Some sampleBotMessage) normalInit _ _));
      [reflexivity | discriminate].
  - refine (proj1 (Hdouble sampleBotMessage doubleInit _ _)); reflexivity.
Defined.

(** X10: what the cancel token leaves running.  In the text-only wait the
    handler only resolves the promise: the collector has not ended and the
    bot message is not deleted, until the time is over.  In the combined
    wait the handler stops the interaction collector, which makes the
    clean-up at once, and leaves the message collector running. *)
Theorem cancel_leaves_message_collector {T : Type} (truthyValue : T → bool) options
    (func : Message → option T) flag c :
  cancelFlag options = Some flag → flag ≠ ""%string →
  toLowerCase flag = toLowerCase (content c) →
  author c = targetAuthor options →
  (∀ botMsg st,
     normalEnded st = false →
     (deleteResponseMessage options = true → deleteFails c = false) →
     let st' := normalDeliver truthyValue options func botMsg c st in
     normalEnded st' = false ∧
     List.filter isCleanupCall (normalCalls st')
     = List.filter isCleanupCall (normalCalls st)) ∧
  (∀ botMsg st,
     msgEnded st = false → interactionEnded st = false → hasCalled st = false →
     let st' := doubleDeliver options func botMsg c st in
     msgEnded st' = false ∧ interactionEnded st' = true ∧ hasCalled st' = true ∧
     cleanupCalls st' = cleanupCalls st ++ configuredCleanup options botMsg).
Proof.
  intros Hflag Hne Heq Hauthor.
  pose proof (isCancel_token options flag c Hflag Hne Heq) as Hcancel.
  split.
  - intros botMsg st Hend Hdelete st'. subst st'.
    rewrite normalDeliver_cancel by done.
    destruct (deleteResponseMessage options); cbn; [|done].
    split; [done|]. rewrite List.filter_app. cbn. apply app_nil_r.
  - intros botMsg st Hm Hi Hh st'. subst st'.
    rewrite doubleDeliver_eq by done. unfold doubleCheckCancel. rewrite Hcancel.
    set (st1 := if deleteResponseMessage options then _ else _).
    assert (H1 : msgEnded st1 = false ∧ interactionEnded st1 = false ∧
                 hasCalled st1 = false ∧ cleanupCalls st1 = cleanupCalls st).
    { subst st1. destruct (deleteResponseMessage options); [|done].
      split_and!; try done. unfold cleanupCalls. cbn.
      rewrite List.filter_app. cbn. apply app_nil_r. }
    destruct H1 as (Hm1 & Hi1 & Hh1 & Hc1).
    destruct (interactionCollectorStop_first options botMsg user st1 Hi1 Hh1)
      as (Hm2 & Hi2 & Hh2 & Hc2).
    cbn [msgEnded interactionEnded hasCalled doubleResolve]. unfold cleanupCalls in *.
    cbn [doubleCalls doubleResolve]. by rewrite Hm2, Hi2, Hh2, Hc2, Hc1, Hm1.
Qed.

Lemma cancel_leaves_message_collector_witness :
  let options := sampleOptions (Some "cancel") false in
  let c := sampleMessage "CANCEL" false in
  normalEnded (normalDeliver truthyNumber options acceptSeven (Some sampleBotMessage) c
                 normalInit) = false ∧
  cleanupCalls (doubleDeliver options acceptSeven sampleBotMessage c doubleInit)
  = [DeleteBase].
Proof.
  intros options c.
  destruct (cancel_leaves_message_collector truthyNumber options acceptSeven "cancel" c)
    as [Hnormal Hdouble]; [reflexivity | discriminate | reflexivity | reflexivity |].
  split.
  - refine (proj1 (Hnormal (Some sampleBotMessage) normalInit _ _));
      [reflexivity | discriminate].
  - refine (proj2 (proj2 (proj2 (Hdouble sampleBotMessage doubleInit _ _ _))));
      reflexivity.
Defined.

(** ** The component waits *)

(** X11: the silent component wait yields the first of the incoming
    interactions that is of the target author and whose custom identifier
    starts with the unique identifier, and [null] when there is none.  The
    interaction is acknowledged exactly when that is asked for, and is
    yielded whether or not the acknowledgement fails; nothing else is
    called. *)
Theorem startInteractionEphemeralCollector_first options uniqueIdentifier incoming :
  let accepts := λ i, strictEquals (interactionUser i) (targetAuthor options)
                      && String.prefix uniqueIdentifier (interactionCustomId i) in
  match startInteractionEphemeralCollector options uniqueIdentifier incoming with
  | (Some i, calls) =>
      interactionUser i = targetAuthor options ∧
      String.prefix uniqueIdentifier (interactionCustomId i) = true ∧
      (∃ before after,
         incoming = before ++ i :: after ∧ Forall (λ j, accepts j = false) before) ∧
      calls = (if acknowledgeImmediately options then [DeferUpdate i] else [])
  | (None, calls) => Forall (λ j, accepts j = false) incoming ∧ calls = []
  end.
Proof.
  intros accepts. unfold startInteractionEphemeralCollector, awaitMessageComponent.
  fold accepts. pose proof (ListFacts.find_first accepts incoming) as Hfind.
  destruct (List.find accepts incoming) as [i|]; [|done].
  destruct Hfind as (Hi & Hfirst). unfold accepts in Hi.
  apply andb_true_iff in Hi as [Huser Hprefix]. apply String.eqb_eq in Huser.
  done.
Qed.

(** X12: the owned component wait cleans up its bot message once on every
    path, after a click as after a timeout: it deletes the message when that
    is asked for, whether or not the message can be deleted, and else clears
    the components when that is asked for and the message can be edited.
    When the clean-up fails, the wait throws, also when an interaction was
    collected; otherwise it yields the first interaction of the target
    author, or [null]. *)
Theorem startInteractionCollector_cleanup options send botMsg incoming :
  initSendCollectorMessage options send = Some botMsg →
  let found :=
    List.find (λ i, strictEquals (interactionUser i) (targetAuthor options)) incoming in
  let result := startInteractionCollector options send incoming in
  List.filter isCleanupCall result.2
  = (if deleteBaseMsgAfterComplete options then [DeleteBase]
     else if clearInteractionsAfterComplete options && editable botMsg
     then [ClearComponents] else []) ∧
  (result.1 = Rejected ↔
   if deleteBaseMsgAfterComplete options then botDeleteFails botMsg = true
   else clearInteractionsAfterComplete options && editable botMsg = true
        ∧ botEditFails botMsg = true) ∧
  (result.1 ≠ Rejected → result.1 = Fulfilled found).
Proof.
  intros Hsend found result. subst result.
  unfold startInteractionCollector, awaitMessageComponent. rewrite Hsend. fold found.
  assert (Hcalls : List.filter isCleanupCall
            (match found with
             | Some i => if acknowledgeImmediately options then [DeferUpdate i] else []
             | None => []
             end) = []).
  { destruct found; [|done]. by destruct (acknowledgeImmediately options). }
  destruct found as [i|]; cbn [fst snd] in *;
    destruct (deleteBaseMsgAfterComplete options);
    try destruct (clearInteractionsAfterComplete options && editable botMsg);
    cbn [fst snd]; rewrite ?List.filter_app, ?Hcalls;
    try destruct (botDeleteFails botMsg); try destruct (botEditFails botMsg);
    cbn; split_and!; try done; try (split; [done|]); intuition discriminate.
Qed.

Lemma startInteractionCollector_cleanup_witness :
  (startInteractionCollector (sampleOptions None false)
     (Fulfilled {| deletable := false; editable := true;
                   botDeleteFails := true; botEditFails := false |})
     [sampleClick]).1
  = Rejected.
Proof.
  apply (startInteractionCollector_cleanup (sampleOptions None false)
           (Fulfilled {| deletable := false; editable := true;
                         botDeleteFails := true; botEditFails := false |})
           {| deletable := false; editable := true;
              botDeleteFails := true; botEditFails := false |} [sampleClick]);
    reflexivity.
Defined.

(** ** Why a wait yields [null], and what a resolved wait has done *)

Section NullCause.

Context {T : Type}.
Variable truthyValue : T → bool.
Variable options : Options.
Variable func : Message → option T.

Lemma normalNullCause_mono events e :
  normalNullCause options events → normalNullCause options (events ++ [e]).
Proof.
  intros [Htime | (c & Hc & Hcancel)]; [left | right].
  - apply elem_of_app. by left.
  - exists c. split; [|done]. apply elem_of_app. by left.
Qed.

Lemma normalNull_stop botMsg r (st : NormalState T) :
  normalPromise (normalStop options botMsg r st) = Some Null →
  normalPromise st = Some Null ∨ r = time.
Proof.
  unfold normalStop, normalOnEnd. destruct (normalEnded st); [by left|].
  destruct (decide (r = time)); [by right|]. left. by destruct (_ && _).
Qed.

Lemma normalNull_checkCancel c st :
  normalPromise (normalCheckCancel options func c st) = Some Null →
  normalPromise st = Some Null ∨ isCancel options c = true.
Proof.
  unfold normalCheckCancel. destruct (isCancel options c); [by right|by left].
Qed.

Lemma normalNull_step botMsg events e st :
  normalOrigin options func events st →
  (normalPromise st = Some Null → normalNullCause options events) →
  normalPromise (normalStep truthyValue options func botMsg st e) = Some Null →
  normalNullCause options (events ++ [e]).
Proof.
  intros [Hawaits _] Hold.
  assert (Hold' : normalPromise st = Some Null → normalNullCause options (events ++ [e])).
  { intros Hp. by apply normalNullCause_mono, Hold. }
  assert (He : e ∈ events ++ [e]) by (apply elem_of_app; right; apply list_elem_of_here).
  destruct e as [m | | k]; cbn [normalStep].
  - destruct (normalEnded st); [done|]. destruct (strictEquals _ _); [|done].
    unfold normalOnCollect. destruct (deleteResponseMessage options); [done|].
    intros Hp. apply normalNull_checkCancel in Hp as [Hp | Hcancel]; [auto|].
    right. by exists m.
  - intros Hp. apply normalNull_stop in Hp as [Hp | _]; [auto|]. by left.
  - destruct (normalAwaits st !! k) as [a|] eqn:Hk; [|done].
    pose proof (Forall_lookup_1 _ _ _ _ Hawaits Hk) as Ha.
    destruct a as [c | c [v|]]; cbn [normalContinue]; [| |done].
    + destruct (deleteFails c); [done|].
      intros Hp. apply normalNull_checkCancel in Hp as [Hp | Hcancel]; [auto|].
      right. exists c. split; [|done]. apply elem_of_app. by left.
    + destruct (truthyValue v); [|done]. cbn.
      destruct (normalPromise (normalStop options botMsg user _)) eqn:Hstop; [|done].
      intros [= ->]. apply normalNull_stop in Hstop as [Hp | ?]; [auto|done].
Qed.

Lemma normalNull_run botMsg events :
  normalPromise (normalRun truthyValue options func botMsg normalInit events) = Some Null →
  normalNullCause options events.
Proof.
  induction events as [|e events IH] using rev_ind; [done|].
  rewrite normalRun_snoc. apply normalNull_step; [|done].
  apply normalOrigin_run.
Qed.

Lemma doubleNullCause_mono events e :
  doubleNullCause options events → doubleNullCause options (events ++ [e]).
Proof.
  intros [Htime | [Htime | (c & Hc & Hcancel)]]; [left | right; left | right; right].
  - apply elem_of_app. by left.
  - apply elem_of_app. by left.
  - exists c. split; [|done]. apply elem_of_app. by left.
Qed.

Lemma doubleNull_stop botMsg r (st : DoubleState T) :
  (doublePromise (msgCollectorStop options botMsg r st) = Some Null →
   doublePromise st = Some Null ∨ r = time) ∧
  (doublePromise (interactionCollectorStop options botMsg r st) = Some Null →
   doublePromise st = Some Null ∨ r = time).
Proof.
  assert (Hack : ∀ st0 : DoubleState T,
            doublePromise (acknowledgeDeletion options botMsg r st0) = Some Null →
            doublePromise st0 = Some Null ∨ r = time).
  { intros st0.
    destruct (acknowledgeDeletion_fields options botMsg r st0) as (_ & _ & _ & _ & ->).
    destruct (hasCalled st0); [by left|]. destruct (decide _); [by right|by left]. }
  unfold msgCollectorStop, interactionCollectorStop. split.
  - destruct (msgEnded st); [by left|]. intros H. by apply Hack in H.
  - destruct (interactionEnded st); [by left|]. intros H. by apply Hack in H.
Qed.

Lemma doubleNull_resolve r (st : DoubleState T) :
  r ≠ Null → doublePromise (doubleResolve r st) = Some Null →
  doublePromise st = Some Null.
Proof. intros Hr. cbn. destruct (doublePromise st); [done|]. by intros [= ->]. Qed.

Lemma doubleNull_checkCancel botMsg c st :
  doublePromise (doubleCheckCancel options func botMsg c st) = Some Null →
  doublePromise st = Some Null ∨ isCancel options c = true.
Proof.
  unfold doubleCheckCancel. destruct (isCancel options c); [by right|by left].
Qed.

Lemma doubleNull_step botMsg events e st :
  doubleOrigin options func events st →
  (doublePromise st = Some Null → doubleNullCause options events) →
  doublePromise (doubleStep options func botMsg st e) = Some Null →
  doubleNullCause options (events ++ [e]).
Proof.
  intros [Hawaits _] Hold.
  assert (Hold' : doublePromise st = Some Null → doubleNullCause options (events ++ [e])).
  { intros Hp. by apply doubleNullCause_mono, Hold. }
  assert (He : e ∈ events ++ [e]) by (apply elem_of_app; right; apply list_elem_of_here).
  assert (Hafter : ∀ i (st0 : DoubleState T),
            doublePromise st0 = doublePromise st →
            doublePromise (doubleAfterDefer options botMsg i st0) = Some Null →
            doublePromise st = Some Null).
  { intros i st0 Hst0 Hp. unfold doubleAfterDefer in Hp.
    apply (doubleNull_stop botMsg user) in Hp as [Hp | ?]; [|done].
    apply doubleNull_resolve in Hp; [|done]. by rewrite <- Hst0. }
  destruct e as [m | i | | | k]; cbn [doubleStep].
  - destruct (msgEnded st); [done|]. destruct (strictEquals _ _); [|done].
    unfold doubleOnMessage. destruct (deleteResponseMessage options); [done|].
    intros Hp. apply doubleNull_checkCancel in Hp as [Hp | Hcancel]; [auto|].
    right. right. by exists m.
  - destruct (interactionEnded st); [done|]. destruct (strictEquals _ _); [|done].
    intros Hp. apply (doubleNull_stop botMsg limit) in Hp as [Hp | ?]; [|done].
    unfold doubleOnClick in Hp. destruct (acknowledgeImmediately options); [auto|].
    by apply Hold', (Hafter i st).
  - intros Hp. apply (doubleNull_stop botMsg time) in Hp as [Hp | _]; [auto|]. by left.
  - intros Hp. apply (doubleNull_stop botMsg time) in Hp as [Hp | _]; [auto|].
    right. by left.
  - destruct (doubleAwaits st !! k) as [a|] eqn:Hk; [|done].
    pose proof (Forall_lookup_1 _ _ _ _ Hawaits Hk) as Ha.
    destruct a as [c | c [v|] | i]; cbn [doubleContinue]; [| |done|].
    + intros Hp. apply doubleNull_checkCancel in Hp as [Hp | Hcancel]; [auto|].
      right. right. exists c. split; [|done]. apply elem_of_app. by left.
    + intros Hp. apply (doubleNull_stop botMsg user) in Hp as [Hp | ?]; [|done].
      apply (doubleNull_stop botMsg user) in Hp as [Hp | ?]; [|done].
      apply doubleNull_resolve in Hp; [auto|done].
    + destruct (deferUpdateFails i); [done|]. intros Hp.
      apply Hold'. eapply (Hafter i); [|exact Hp]. done.
Qed.

Lemma doubleNull_run botMsg events :
  doublePromise (doubleRun options func botMsg doubleInit events) = Some Null →
  doubleNullCause options events.
Proof.
  induction events as [|e events IH] using rev_ind; [done|].
  rewrite doubleRun_snoc. apply doubleNull_step; [|done].
  apply doubleOrigin_run.
Qed.

(** *** A resolved promise of the combined wait *)

Lemma doubleSettled_same (st st' : DoubleState T) :
  doublePromise st' = doublePromise st → msgEnded st' = msgEnded st →
  interactionEnded st' = interactionEnded st →
  (∀ a, a ∈ doubleAwaits st' →
        a ∈ doubleAwaits st ∨ match a with DoubleAwaitDefer _ => False | _ => True end) →
  doubleSettled st → doubleSettled st'.
Proof.
  unfold doubleSettled. intros -> -> -> Ha (H1 & H2 & H3). split_and!; try done.
  intros Hi. apply Forall_forall. intros a Hin.
  destruct (Ha a Hin) as [Hold | ?]; [|done].
  by apply (proj1 (Forall_forall _ _) (H3 Hi)).
Qed.

(** After the two collectors have been stopped, whatever the promise. *)
Lemma doubleSettled_stopped (st : DoubleState T) :
  msgEnded st = true → interactionEnded st = true → doubleSettled st.
Proof. intros Hm Hi. unfold doubleSettled. rewrite Hm, Hi. by split_and!. Qed.

Lemma doubleSettled_msgCollectorStop botMsg r (st : DoubleState T) :
  doubleSettled st → doubleSettled (msgCollectorStop options botMsg r st).
Proof.
  intros (H1 & H2 & H3).
  destruct (msgCollectorStop_fields options botMsg r st) as (Hm & Hi & Ha).
  destruct (doubleNull_stop botMsg r st) as [Hnull _].
  destruct (doubleExtends_msgCollectorStop options botMsg r st) as (_ & _ & Hp & _).
  unfold doubleSettled. rewrite Hm, Hi, Ha. split_and!; try done.
  intros Hsome Hnot. split; [done|].
  destruct (doublePromise st) as [x|] eqn:Hst.
  - rewrite (Hp x eq_refl) in Hnot. by apply H2.
  - unfold msgCollectorStop, acknowledgeDeletion in Hsome, Hnot.
    destruct (msgEnded st); [by rewrite Hst in Hsome|].
    cbn in Hsome, Hnot. destruct (hasCalled st); [by rewrite Hst in Hsome|].
    destruct (_ && _); [|destruct (_ && _)]; destruct (decide _);
      cbn in Hsome, Hnot; rewrite Hst in Hsome, Hnot; done.
Qed.

Lemma doubleSettled_interactionCollectorStop botMsg r (st : DoubleState T) :
  doubleSettled st → doubleSettled (interactionCollectorStop options botMsg r st).
Proof.
  intros (H1 & H2 & H3).
  destruct (interactionCollectorStop_fields options botMsg r st) as (Hm & Hi & Ha).
  destruct (doubleExtends_interactionCollectorStop options botMsg r st)
    as (_ & _ & Hp & _).
  unfold doubleSettled. rewrite Hm, Hi, Ha. split_and!; try done.
  - intros _. apply orb_true_r.
  - intros Hsome Hnot. split; [|done].
    destruct (doublePromise st) as [x|] eqn:Hst.
    + rewrite (Hp x eq_refl) in Hnot. by apply H2.
    + unfold interactionCollectorStop, acknowledgeDeletion in Hsome, Hnot.
      destruct (interactionEnded st); [by rewrite Hst in Hsome|].
      cbn in Hsome, Hnot. destruct (hasCalled st); [by rewrite Hst in Hsome|].
      destruct (_ && _); [|destruct (_ && _)]; destruct (decide _);
        cbn in Hsome, Hnot; rewrite Hst in Hsome, Hnot; done.
Qed.

Lemma doubleSettled_checkCancel botMsg c st :
  doubleSettled st → doubleSettled (doubleCheckCancel options func botMsg c st).
Proof.
  intros Hst. unfold doubleCheckCancel. destruct (isCancel options c).
  - apply (doubleSettled_interactionCollectorStop botMsg user) in Hst.
    destruct Hst as (H1 & H2 & H3).
    destruct (interactionCollectorStop_fields options botMsg user st) as (_ & Hi & _).
    unfold doubleSettled.
    cbn [doublePromise msgEnded interactionEnded doubleAwaits doubleResolve].
    rewrite Hi in *. split_and!; try done.
    + intros _. apply orb_true_r.
    + intros _ Hnot. apply H2.
      * by destruct (doublePromise (interactionCollectorStop options botMsg user st)).
      * by destruct (doublePromise (interactionCollectorStop options botMsg user st)).
  - apply (doubleSettled_same st); try done.
    cbn. intros a Ha. apply elem_of_app in Ha as [? | Ha]; [by left|].
    apply list_elem_of_singleton in Ha as ->. by right.
Qed.

Lemma doubleSettled_afterDefer botMsg i (st : DoubleState T) :
  interactionEnded st = true →
  doubleSettled (doubleAfterDefer options botMsg i st).
Proof.
  intros Hi. unfold doubleAfterDefer. apply doubleSettled_stopped.
  - apply msgCollectorStop_fields.
  - by rewrite (proj1 (proj2 (msgCollectorStop_fields options botMsg user _))).
Qed.

Lemma doubleSettled_step botMsg st e :
  doubleSettled st → doubleSettled (doubleStep options func botMsg st e).
Proof.
  intros Hst. destruct e as [m | i | | | k]; cbn [doubleStep].
  - destruct (msgEnded st); [done|]. destruct (strictEquals _ _); [|done].
    unfold doubleOnMessage. destruct (deleteResponseMessage options).
    + apply (doubleSettled_same st); try done.
      cbn. intros a Ha. apply elem_of_app in Ha as [? | Ha]; [by left|].
      apply list_elem_of_singleton in Ha as ->. by right.
    + by apply doubleSettled_checkCancel.
  - destruct (interactionEnded st) eqn:Hi; [done|]. destruct (strictEquals _ _); [|done].
    unfold doubleOnClick. destruct (acknowledgeImmediately options).
    + set (st1 := doubleAwait _ _).
      destruct (interactionCollectorStop_fields options botMsg limit st1) as (Hm' & Hi' & Ha').
      destruct (doubleExtends_interactionCollectorStop options botMsg limit st1)
        as (_ & _ & Hp' & _).
      destruct Hst as (H1 & H2 & H3).
      unfold doubleSettled. rewrite Hm', Hi'. split_and!; try done.
      * intros _. apply orb_true_r.
      * intros Hsome Hnot. split; [|done].
        destruct (doublePromise st) as [x|] eqn:Hp.
        -- rewrite (Hp' x) in Hnot by (subst st1; by cbn).
           by apply (H2 ltac:(done) Hnot).
        -- exfalso. unfold interactionCollectorStop, acknowledgeDeletion in Hsome, Hnot.
           subst st1. cbn in Hsome, Hnot. rewrite Hi in Hsome, Hnot.
           destruct (hasCalled st); cbn in Hsome, Hnot; [by rewrite Hp in Hsome|].
           destruct (_ && _); [|destruct (_ && _)];
             cbn in Hsome, Hnot; rewrite Hp in Hsome; done.
    + apply doubleSettled_stopped.
      * rewrite (proj1 (interactionCollectorStop_fields options botMsg limit _)).
        apply msgCollectorStop_fields.
      * apply interactionCollectorStop_fields.
  - by apply doubleSettled_msgCollectorStop.
  - by apply doubleSettled_interactionCollectorStop.
  - destruct (doubleAwaits st !! k) as [a|] eqn:Hk; [|done].
    set (st' := Build_DoubleState _ _ _ _ _ _ _).
    assert (Hst' : doubleSettled st').
    { apply (doubleSettled_same st); try done.
      intros a' Ha'. left. by apply list_elem_of_delete_inv in Ha'. }
    destruct a as [c | c [v|] | i]; cbn [doubleContinue]; [| |done|].
    + by apply doubleSettled_checkCancel.
    + apply doubleSettled_stopped.
      * apply msgCollectorStop_fields.
      * rewrite (proj1 (proj2 (msgCollectorStop_fields options botMsg user _))).
        apply interactionCollectorStop_fields.
    + destruct (deferUpdateFails i); [done|].
      apply doubleSettled_afterDefer.
      destruct (interactionEnded st) eqn:Hi; [done|].
      destruct Hst as (_ & _ & H3).
      apply list_elem_of_lookup_2 in Hk.
      by destruct (proj1 (Forall_forall _ _) (H3 Hi) _ Hk).
Qed.

Lemma doubleSettled_run botMsg events :
  doubleSettled (doubleRun options func botMsg doubleInit events).
Proof.
  induction events as [|e events IH] using rev_ind.
  - split_and!; [done | done | intros _; constructor].
  - rewrite doubleRun_snoc. by apply doubleSettled_step.
Qed.

End NullCause.

(** X27: a wait never yields [null] without a cause.  When the text-only
    wait is resolved with [null], its time was over or a message among the
    events equals the cancel token.  When the combined wait is resolved with
    [null], it had no bot message, or the time of one of its collectors was
    over, or a message among the events equals the cancel token. *)
Theorem null_has_a_cause {T : Type} (truthyValue : T → bool) options
    (func : Message → option T) send :
  (∀ events,
     startNormalCollector truthyValue options func send events = Some Null →
     normalNullCause options events) ∧
  (∀ events,
     startDoubleCollector options func send events = Some Null →
     initSendCollectorMessage options send = None ∨ doubleNullCause options events).
Proof.
  split; intros events.
  - unfold startNormalCollector. apply normalNull_run.
  - unfold startDoubleCollector.
    destruct (initSendCollectorMessage options send) as [botMsg|]; [|by left].
    intros Hnull. right. by apply (doubleNull_run options func botMsg).
Qed.

Lemma null_has_a_cause_witness :
  normalNullCause (sampleOptions (Some "cancel") false)
    [NormalMessage (sampleMessage "42" false); NormalMessage (sampleMessage "Cancel" false)].
Proof.
  apply (null_has_a_cause truthyNumber (sampleOptions (Some "cancel") false)
           (λ _ : Message, @None nat) (Fulfilled sampleBotMessage)).
  reflexivity.
Defined.

(** X28: when the combined wait is resolved, the clean-up of the bot message
    has been made, exactly once; and when it is resolved with a value or
    with a click, both collectors have ended. *)
Theorem startDoubleCollector_resolved_cleaned {T : Type} options
    (func : Message → option T) send botMsg events r :
  initSendCollectorMessage options send = Some botMsg →
  startDoubleCollector options func send events = Some r →
  let st := doubleRun options func botMsg doubleInit events in
  hasCalled st = true ∧ cleanups st = 1 ∧
  cleanupCalls st = configuredCleanup options botMsg ∧
  (r ≠ Null → msgEnded st = true ∧ interactionEnded st = true).
Proof.
  intros Hsend Hr st. unfold startDoubleCollector in Hr. rewrite Hsend in Hr. fold st in Hr.
  destruct (doubleSettled_run options func botMsg events) as (H1 & H2 & _).
  destruct (doubleGuard_run options func botMsg events) as (Hn & Hh & Hc).
  fold st in H1, H2, Hn, Hh, Hc. rewrite Hr in H1, H2.
  assert (Hcalled : hasCalled st = true) by (rewrite Hh; by apply H1).
  rewrite Hcalled in Hn, Hc. split_and!; try done.
  intros Hnot. apply H2; [done|]. by intros [= ->].
Qed.

Lemma startDoubleCollector_resolved_cleaned_witness :
  cleanups (doubleRun (sampleOptions (Some "cancel") false) acceptSeven sampleBotMessage
              doubleInit
              [DoubleMessage (sampleMessage "cancel" false);
               DoubleMessage (sampleMessage "42" false); DoubleMsgTime])
  = 1.
Proof.
  refine (proj1 (proj2 (startDoubleCollector_resolved_cleaned
            (sampleOptions (Some "cancel") false) acceptSeven (Fulfilled sampleBotMessage)
            sampleBotMessage
            [DoubleMessage (sampleMessage "cancel" false);
             DoubleMessage (sampleMessage "42" false); DoubleMsgTime]
            Null _ _))); reflexivity.
Defined.

(** ** The action rows: further properties *)

Lemma getActionRowsFromComponents_rows (options : list BaseMessageComponent) :
  let selectMenus := filter (λ x, type x = SELECT_MENU) options in
  let buttons := filter (λ x, type x = BUTTON) options in
  getActionRowsFromComponents options
  = Some ((singleRow <$> take MAX_ACTION_ROWS selectMenus)
          ++ chunks (MAX_ACTION_ROWS - Nat.min (length selectMenus) MAX_ACTION_ROWS) buttons).
Proof.
  intros selectMenus buttons.
  unfold getActionRowsFromComponents. fold selectMenus. fold buttons.
  rewrite selectMenuLoop_spec. simpl.
  rewrite (buttonLoop_spec _ _ _ _ 0) by lia.
  rewrite ?Nat.sub_0_r, ?Nat.add_0_l, ?Nat.add_0_r, ?drop_0.
  do 3 f_equal.
  destruct (decide (length selectMenus ≤ MAX_ACTION_ROWS)).
  - rewrite Nat.min_l by done. by rewrite !take_ge by lia.
  - by rewrite Nat.min_r by lia.
Qed.

Lemma chunks_elem k l r : r ∈ chunks k l → ∃ i, components r = take 5 (drop (5 * i) l) ∧
                                           1 ≤ length (components r) ≤ 5.
Proof.
  intros Hr. apply list_elem_of_lookup in Hr as [i Hi].
  exists i. by apply (chunks_lookup k).
Qed.

(** X13: every row that [getActionRowsFromComponents] returns holds at least
    one component, and either one select menu or buttons only; the
    components of the rows are select menus and buttons of the input, never
    an action row.  When the input has at most five select menus and no more
    buttons than fit into the rows that are left, nothing is dropped: the
    rows hold the select menus of the input and then its buttons, each in
    the order of the input. *)
Theorem getActionRowsFromComponents_complete (options : list BaseMessageComponent) rows :
  getActionRowsFromComponents options = Some rows →
  let selectMenus := filter (λ x, type x = SELECT_MENU) options in
  let buttons := filter (λ x, type x = BUTTON) options in
  (∀ r, r ∈ rows →
        (∃ c, components r = [c] ∧ type c = SELECT_MENU) ∨
        (components r ≠ [] ∧ Forall (λ c, type c = BUTTON) (components r))) ∧
  (∀ r c, r ∈ rows → c ∈ components r → c ∈ options ∧ type c ≠ ACTION_ROW) ∧
  (length selectMenus ≤ MAX_ACTION_ROWS →
   length buttons ≤ 5 * (MAX_ACTION_ROWS - length selectMenus) →
   concat (components <$> rows) = selectMenus ++ buttons).
Proof.
  intros Hrows selectMenus buttons.
  rewrite getActionRowsFromComponents_rows in Hrows. fold selectMenus buttons in Hrows.
  injection Hrows as <-.
  assert (Hkind : ∀ r, r ∈ (singleRow <$> take MAX_ACTION_ROWS selectMenus)
                        ++ chunks (MAX_ACTION_ROWS
                                   - Nat.min (length selectMenus) MAX_ACTION_ROWS) buttons →
            (∃ c, components r = [c] ∧ c ∈ selectMenus) ∨
            (components r ≠ [] ∧ Forall (λ c, c ∈ buttons) (components r))).
  { intros r Hr. apply elem_of_app in Hr as [Hr | Hr].
    - left. apply list_elem_of_fmap in Hr as (c & -> & Hc).
      exists c. split; [done|]. by apply (subseteq_take MAX_ACTION_ROWS).
    - right. apply chunks_elem in Hr as (i & Hi & Hlen). split.
      + intros Hnil. rewrite Hnil in Hlen. simpl in Hlen. lia.
      + rewrite Hi. apply Forall_forall. intros c Hc.
        by apply (subseteq_drop (5 * i)), (subseteq_take 5). }
  split_and!.
  - intros r Hr. destruct (Hkind r Hr) as [(c & Hc & Hin) | [Hne Hall]].
    + left. exists c. split; [done|].
      by apply list_elem_of_filter in Hin as [? _].
    + right. split; [done|]. eapply Forall_impl; [exact Hall|].
      intros c Hin. by apply list_elem_of_filter in Hin as [? _].
  - intros r c Hr Hc. destruct (Hkind r Hr) as [(c' & Hc' & Hin) | [Hne Hall]].
    + rewrite Hc' in Hc. apply list_elem_of_singleton in Hc as ->.
      apply list_elem_of_filter in Hin as [Ht Hin]. split; [done|]. by rewrite Ht.
    + pose proof (proj1 (Forall_forall _ _) Hall c Hc) as Hin.
      apply list_elem_of_filter in Hin as [Ht Hin]. split; [done|]. by rewrite Ht.
  - intros Hs Hb.
    rewrite fmap_app, concat_app, singleRow_concat, chunks_concat.
    rewrite Nat.min_l by done. by rewrite !take_ge by lia.
Qed.

Lemma getActionRowsFromComponents_complete_witness :
  let menu := {| type := SELECT_MENU; customId := "menu" |} in
  let yes := {| type := BUTTON; customId := "yes" |} in
  let no := {| type := BUTTON; customId := "no" |} in
  concat (components <$> [singleRow menu; {| components := [yes; no] |}]) = [menu; yes; no].
Proof.
  intros menu yes no.
  refine (proj2 (proj2 (getActionRowsFromComponents_complete
                          [yes; {| type := ACTION_ROW; customId := "row" |}; menu; no]
                          [singleRow menu; {| components := [yes; no] |}] _)) _ _).
  - reflexivity.
  - vm_compute. lia.
  - vm_compute. lia.
Defined.

End AdvancedCollectorSpec.

Module InteractionEventSpec.
Import JSString InteractionEvent.
Local Open Scope Z_scope.


Lemma gate_open config interaction :
  passesGate config interaction →
  negb (isProd config) && negb (includes (botOwnerIds config) (user_id (user interaction)))
  = false.
Proof.
  intros [-> | Hin]; [done|].
  unfold includes. rewrite bool_decide_eq_true_2 by done.
  by rewrite andb_false_r.
Qed.

Lemma gate_closed config interaction :
  ¬ passesGate config interaction →
  negb (isProd config) && negb (includes (botOwnerIds config) (user_id (user interaction)))
  = true.
Proof.
  intros Hn. unfold passesGate, includes in *.
  destruct (isProd config); [by destruct Hn; left|].
  rewrite bool_decide_eq_false_2; [done|]. intros ?. apply Hn. by right.
Qed.






Lemma slashCommandHandler_permission_step config NameCommands util now interaction st
    foundCommand :
  reachesPermissionCheck config NameCommands now interaction st foundCommand →
  slashCommandHandler config NameCommands util now interaction st
  = afterPermissionCheck config util now interaction st foundCommand.
Proof.
  intros (Hgate & Hfound & Hcool & Hguild).
  unfold slashCommandHandler, afterPermissionCheck.
  rewrite (gate_open _ _ Hgate), Hfound. cbn [ctx_user ctx_guild ctx_member].
  replace (0 <? _) with false by (symmetry; apply Z.ltb_ge; exact Hcool).
  assert (Hg : guildOnly (commandInfo foundCommand)
               && negb (bool_decide (is_Some (guild interaction))) = false).
  { destruct (guildOnly (commandInfo foundCommand)); [|done].
    rewrite bool_decide_eq_true_2 by auto. done. }
  rewrite Hg. fold (memberOf interaction). fold (contextOf interaction).
  set (info := hasPermissionToRun _ _ _).
  destruct (includes _ _), (hasAdmin info), (canRun info), (truthy (reason info)); reflexivity.
Qed.

(** ** Concrete data for the counterexamples and witnesses *)









(** ** C6 *)




(** ** C9 *)

(** C9, as stated, fails: in development mode an invocation of an unknown
    command by a user who is not an owner is answered with the
    development-mode notice. *)
Lemma unknown_command_counterexample :
  let interaction := invocation "alice" "nosuchcommand" in
  sampleCommands allowed !! commandName interaction = None ∧
  slashCommandHandler development (sampleCommands allowed) sampleUtilities 1000 interaction
    noCooldowns
  = (noCooldowns, [Reply developmentModeReply]).
Proof. vm_compute. done. Qed.

(** C9, amended: an invocation that passes the development-mode gate and
    names no registered command does nothing: no reply, no call, no change of
    state. *)
Theorem unknown_command_ignored config NameCommands util now interaction st :
  passesGate config interaction →
  NameCommands !! commandName interaction = None →
  slashCommandHandler config NameCommands util now interaction st = (st, []).
Proof.
  intros Hgate Hnone. unfold slashCommandHandler.
  by rewrite (gate_open _ _ Hgate), Hnone.
Qed.

Lemma unknown_command_ignored_witness :
  slashCommandHandler production (sampleCommands allowed) sampleUtilities 1000
    (invocation "alice" "nosuchcommand") noCooldowns
  = (noCooldowns, []).
Proof.
  apply (unknown_command_ignored production (sampleCommands allowed) sampleUtilities 1000
           (invocation "alice" "nosuchcommand") noCooldowns).
  - by left.
  - reflexivity.
Defined.

(** ** C7 *)

(** C7: for an invocation that reaches the permission check, the handler
    calls [addToCooldown] for the invoking user, and so starts or refreshes
    the user's cooldown for the command, exactly when the user is not an
    owner and the permission result has no admin rights; whether the run is
    then allowed or denied plays no part. *)
Theorem cooldown_started_iff_not_exempt config NameCommands util now interaction st
    foundCommand :
  reachesPermissionCheck config NameCommands now interaction st foundCommand →
  let name := commandName interaction in
  let canRunInfo :=
    hasPermissionToRun foundCommand (memberOf interaction) (guild interaction) in
  let result := slashCommandHandler config NameCommands util now interaction st in
  (AddToCooldown name (user interaction) ∈ result.2
   ↔ (user_id (user interaction) ∉ botOwnerIds config) ∧ hasAdmin canRunInfo = false) ∧
  ((user_id (user interaction) ∉ botOwnerIds config) ∧ hasAdmin canRunInfo = false →
   result.1 = withCooldown foundCommand now interaction st ∧
   cooldownRecord result.1 name !! user_id (user interaction)
   = Some (now + commandCooldown (commandInfo foundCommand))) ∧
  (¬ ((user_id (user interaction) ∉ botOwnerIds config) ∧ hasAdmin canRunInfo = false) →
   result.1 = st).
Proof.
  intros Hreach name canRunInfo result. subst result name.
  rewrite (slashCommandHandler_permission_step _ _ _ _ _ _ _ Hreach).
  unfold afterPermissionCheck. fold canRunInfo. cbn [fst snd].
  unfold includes.
  destruct (decide (user_id (user interaction) ∈ botOwnerIds config)) as [Hin | Hout].
  - rewrite bool_decide_eq_true_2 by done. cbn [orb app].
    split_and!.
    + split; [|tauto]. intros Hel. apply list_elem_of_singleton in Hel.
      destruct (canRun canRunInfo); [discriminate|].
      destruct (truthy (reason canRunInfo)); discriminate.
    + tauto.
    + done.
  - rewrite bool_decide_eq_false_2 by done. cbn [orb].
    destruct (hasAdmin canRunInfo) eqn:Hadmin.
    + cbn [app]. split_and!.
      * split; [|intros [_ ?]; discriminate]. intros Hel. apply list_elem_of_singleton in Hel.
        destruct (canRun canRunInfo); [discriminate|].
        destruct (truthy (reason canRunInfo)); discriminate.
      * intros [_ ?]; discriminate.
      * done.
    + split_and!.
      * split; [done|]. intros _. apply list_elem_of_here.
      * intros _. split; [done|].
        unfold withCooldown. unfold cooldownRecord at 1. cbn [onCooldown].
        rewrite (lookup_insert_eq (onCooldown st)). cbn [default]. unfold addToCooldown.
        apply lookup_insert_eq.
      * intros Hn. exfalso. apply Hn. done.
Qed.

Lemma cooldown_started_iff_not_exempt_witness :
  let interaction := invocation "alice" "help" in
  reachesPermissionCheck production (sampleCommands (denied [] [])) 1000 interaction
    noCooldowns (sampleCommand (denied [] [])) ∧
  cooldownRecord
    (slashCommandHandler production (sampleCommands (denied [] [])) sampleUtilities 1000
       interaction noCooldowns).1 "help" !! "alice"
  = Some 5000.
Proof.
  intros interaction.
  assert (Hreach : reachesPermissionCheck production (sampleCommands (denied [] [])) 1000
                     interaction noCooldowns (sampleCommand (denied [] []))).
  { split_and!; [by left|reflexivity|vm_compute; discriminate|intros [=]]. }
  split; [exact Hreach|].
  refine (proj2 (proj1 (proj2 (cooldown_started_iff_not_exempt production
            (sampleCommands (denied [] [])) sampleUtilities 1000 interaction noCooldowns
            (sampleCommand (denied [] [])) Hreach)) _)).
  split; [|reflexivity].
  vm_compute. intros H. inversion H as [|? ? ? H']. inversion H'.
Defined.

(** ** C8 *)





Lemma noPermissionReply_shape util u info :
  fields (generateBlankEmbed util u "RED") = [] →
  ∃ e, noPermissionReply util u info
       = {| content := None; embeds := [e]; ephemeral := false |} ∧
       title e = "Missing Permissions."%string ∧
       fields e =
         (if decide (missingUserPerms info = []) then []
          else [userPermsDisplay util info; userPermsDisplay util info]) ++
         (if decide (missingBotPerms info = []) then [] else [botPermsDisplay util info]) ++
         (if decide (missingUserPerms info = [] ∧ missingBotPerms info = [])
          then [unknownErrorDisplay] else []) ∧
       description e =
         (missingPermissionsLine +:+
          (if decide (missingUserPerms info = []) then "" else newline +:+ anyOfLine) +:+
          (if decide (missingBotPerms info = []) then "" else newline +:+ allOfLine) +:+
          (if decide (missingUserPerms info = [] ∧ missingBotPerms info = [])
           then newline +:+ unknownErrorLine else ""))%string.
Proof.
  intros Hblank. unfold noPermissionReply.
  destruct (generateBlankEmbed util u "RED") as [a c t d f].
  cbn [fields] in Hblank. subst f.
  unfold userPermsDisplay, botPermsDisplay.
  destruct (missingUserPerms info) as [|p ps] eqn:Hu;
    destruct (missingBotPerms info) as [|q qs] eqn:Hb;
    cbn [length Nat.eqb negb addField setTitle setDescription fields description title app];
    eexists; (split; [reflexivity|]); cbn [fields description title];
    (split; [reflexivity|]);
    repeat (case_decide; try done; try (exfalso; intuition congruence));
    (split; [reflexivity | vm_compute; reflexivity]).
Qed.

(** C8: when the permission check denies the run and gives no reason, the
    handler's last act is a reply with one embed.  The embed shows the
    missing member permissions (of which one is needed) when there are any,
    and the missing bot permissions (all of which are needed) when there are
    any, under different headings; when both lists are empty it shows an
    unknown error and asks the user to report it. *)
Theorem missing_permissions_reply config NameCommands util now interaction st foundCommand :
  reachesPermissionCheck config NameCommands now interaction st foundCommand →
  let info := hasPermissionToRun foundCommand (memberOf interaction) (guild interaction) in
  canRun info = false →
  truthy (reason info) = false →
  fields (generateBlankEmbed util (user interaction) "RED") = [] →
  ∃ e,
    last (slashCommandHandler config NameCommands util now interaction st).2
    = Some (Reply {| content := None; embeds := [e]; ephemeral := false |}) ∧
    (missingUserPerms info ≠ [] →
       userPermsDisplay util info ∈ fields e ∧
       (∃ before after, description e = before +:+ anyOfLine +:+ after)) ∧
    (missingBotPerms info ≠ [] →
       botPermsDisplay util info ∈ fields e ∧
       (∃ before after, description e = before +:+ allOfLine +:+ after)) ∧
    field_name (userPermsDisplay util info) ≠ field_name (botPermsDisplay util info) ∧
    (missingUserPerms info = [] → missingBotPerms info = [] →
       fields e = [unknownErrorDisplay] ∧
       description e = missingPermissionsLine +:+ newline +:+ unknownErrorLine) ∧
    (¬ (missingUserPerms info = [] ∧ missingBotPerms info = []) →
       unknownErrorDisplay ∉ fields e) ∧
    (missingUserPerms info = [] →
       ∀ f, f ∈ fields e → field_name f ≠ userPermsField) ∧
    (missingBotPerms info = [] →
       ∀ f, f ∈ fields e → field_name f ≠ botPermsField).
Proof.
  intros Hreach info. subst info.
  rewrite (slashCommandHandler_permission_step _ _ _ _ _ _ _ Hreach).
  unfold afterPermissionCheck.
  generalize (hasPermissionToRun foundCommand (memberOf interaction) (guild interaction)).
  intros info Hdeny Hreason Hblank. rewrite Hdeny, Hreason. cbn [snd].
  rewrite last_snoc.
  destruct (noPermissionReply_shape util (user interaction) info Hblank)
    as (e & -> & _ & Hfields & Hdesc).
  exists e. split; [reflexivity|].
  rewrite Hfields, Hdesc. clear Hfields Hdesc.
  split_and!.
  - intros Hu. split.
    + repeat case_decide; try done; apply list_elem_of_here.
    + exists (missingPermissionsLine +:+ newline),
        ((if decide (missingBotPerms info = []) then "" else newline +:+ allOfLine) +:+ "")%string.
      repeat case_decide; try tauto; vm_compute; reflexivity.
  - intros Hb. split.
    + repeat case_decide; try done; apply list_elem_of_In; cbn; tauto.
    + exists (missingPermissionsLine +:+
              (if decide (missingUserPerms info = []) then "" else newline +:+ anyOfLine)
              +:+ newline)%string, ""%string.
      repeat case_decide; try tauto; vm_compute; reflexivity.
  - vm_compute. discriminate.
  - intros Hu Hb. repeat case_decide; try tauto; split; vm_compute; reflexivity.
  - intros Hn Hel. repeat case_decide; try tauto;
      apply list_elem_of_In in Hel; cbn in Hel; intuition discriminate.
  - intros Hu f Hel. repeat case_decide; try tauto;
      apply list_elem_of_In in Hel; cbn in Hel; intuition (subst; discriminate).
  - intros Hb f Hel. repeat case_decide; try tauto;
      apply list_elem_of_In in Hel; cbn in Hel; intuition (subst; discriminate).
Qed.

Lemma missing_permissions_reply_witness :
  let interaction := invocation "alice" "help" in
  let info := denied ["MANAGE_ROLES"; "KICK_MEMBERS"]%string ["SEND_MESSAGES"%string] in
  ∃ e,
    last (slashCommandHandler production (sampleCommands info) sampleUtilities 1000
            interaction noCooldowns).2
    = Some (Reply {| content := None; embeds := [e]; ephemeral := false |}) ∧
    userPermsDisplay sampleUtilities info ∈ fields e ∧
    botPermsDisplay sampleUtilities info ∈ fields e.
Proof.
  intros interaction info.
  assert (Hreach : reachesPermissionCheck production (sampleCommands info) 1000
                     interaction noCooldowns (sampleCommand info)).
  { split_and!; [by left|reflexivity|vm_compute; discriminate|intros [=]]. }
  destruct (missing_permissions_reply production (sampleCommands info) sampleUtilities 1000
              interaction noCooldowns (sampleCommand info) Hreach
              eq_refl eq_refl eq_refl)
    as (e & Hlast & Huser & Hbot & _).
  exists e. split; [exact Hlast|]. split.
  - apply Huser. discriminate.
  - apply Hbot. discriminate.
Defined.


(** ** The handler: further properties *)

(** The five ways through the handler. *)
Lemma slashCommandHandler_cases config NameCommands util now interaction st :
  let result := slashCommandHandler config NameCommands util now interaction st in
  let cooldownLeft :=
    checkCooldownFor (cooldownRecord st (commandName interaction)) (user interaction) now in
  (¬ passesGate config interaction ∧ result = (st, [Reply developmentModeReply])) ∨
  (passesGate config interaction ∧ NameCommands !! commandName interaction = None ∧
   result = (st, [])) ∨
  (∃ foundCommand,
     passesGate config interaction ∧
     NameCommands !! commandName interaction = Some foundCommand ∧
     0 < cooldownLeft ∧ result = (st, [Reply (cooldownReply util cooldownLeft)])) ∨
  (∃ foundCommand,
     passesGate config interaction ∧
     NameCommands !! commandName interaction = Some foundCommand ∧
     cooldownLeft ≤ 0 ∧
     guildOnly (commandInfo foundCommand) = true ∧ guild interaction = None ∧
     result = (st, [Reply guildOnlyReply])) ∨
  (∃ foundCommand,
     reachesPermissionCheck config NameCommands now interaction st foundCommand ∧
     result = afterPermissionCheck config util now interaction st foundCommand).
Proof.
  intros result cooldownLeft.
  assert (Hgate : passesGate config interaction ∨ ¬ passesGate config interaction).
  { unfold passesGate. destruct (isProd config); [left; by left|].
    destruct (decide (user_id (user interaction) ∈ botOwnerIds config)); [left; by right|].
    right. intros [? | ?]; done. }
  destruct Hgate as [Hgate | Hgate].
  2: { left. split; [done|]. subst result. unfold slashCommandHandler.
       by rewrite (gate_closed _ _ Hgate). }
  right.
  destruct (NameCommands !! commandName interaction) as [foundCommand|] eqn:Hfound.
  2: { left. split_and!; try done. subst result. unfold slashCommandHandler.
       by rewrite (gate_open _ _ Hgate), Hfound. }
  right.
  destruct (decide (0 < cooldownLeft)) as [Hcool | Hcool].
  { left. exists foundCommand. split_and!; try done. subst result.
    unfold slashCommandHandler. rewrite (gate_open _ _ Hgate), Hfound. cbn [ctx_user].
    fold cooldownLeft. by rewrite (proj2 (Z.ltb_lt _ _) Hcool). }
  right.
  destruct (guildOnly (commandInfo foundCommand)) eqn:Hguild;
    [destruct (guild interaction) as [g|] eqn:Hg|].
  - right. exists foundCommand.
    assert (Hreach : reachesPermissionCheck config NameCommands now interaction st
                       foundCommand).
    { split_and!; [done | done | fold cooldownLeft; lia | intros _; rewrite Hg; eauto]. }
    split; [done|]. by apply slashCommandHandler_permission_step.
  - left. exists foundCommand. split_and!; [done | done | lia | done | done |]. subst result.
    unfold slashCommandHandler. rewrite (gate_open _ _ Hgate), Hfound.
    cbn [ctx_user ctx_guild]. fold cooldownLeft.
    replace (0 <? cooldownLeft) with false by (symmetry; apply Z.ltb_ge; lia).
    rewrite Hguild, Hg. reflexivity.
  - right. exists foundCommand.
    assert (Hreach : reachesPermissionCheck config NameCommands now interaction st
                       foundCommand).
    { split_and!; [done | done | fold cooldownLeft; lia | by rewrite Hguild]. }
    split; [done|]. by apply slashCommandHandler_permission_step.
Qed.

Lemma cooldownRecord_withCooldown foundCommand now interaction st name uid :
  cooldownRecord (withCooldown foundCommand now interaction st) name !! uid
  = if decide (name = commandName interaction ∧ uid = user_id (user interaction))
    then Some (now + commandCooldown (commandInfo foundCommand))
    else cooldownRecord st name !! uid.
Proof.
  unfold withCooldown, cooldownRecord at 1. cbn [onCooldown].
  destruct (decide (name = commandName interaction)) as [-> | Hname].
  - rewrite (lookup_insert_eq (onCooldown st)). cbn [default]. unfold addToCooldown.
    destruct (decide (uid = user_id (user interaction))) as [-> | Huid].
    + rewrite decide_True by done. apply lookup_insert_eq.
    + rewrite decide_False by tauto. by apply lookup_insert_ne.
  - rewrite decide_False by tauto. by rewrite lookup_insert_ne.
Qed.

(** X14: while the bot is not in production, an invocation by anyone but an
    owner is answered with the development-mode notice and nothing else,
    whatever the command, known or not, and whatever the cooldowns.  The
    notice is not ephemeral. *)
Theorem development_mode_gate config NameCommands util now interaction st :
  isProd config = false →
  user_id (user interaction) ∉ botOwnerIds config →
  slashCommandHandler config NameCommands util now interaction st
  = (st, [Reply developmentModeReply]) ∧
  ephemeral developmentModeReply = false.
Proof.
  intros Hprod Howner. split; [|done].
  unfold slashCommandHandler. rewrite gate_closed; [done|].
  intros [Hp | Ho]; [congruence | done].
Qed.

Lemma development_mode_gate_witness :
  slashCommandHandler development (sampleCommands allowed) sampleUtilities 1000
    (invocation "alice" "help") noCooldowns
  = (noCooldowns, [Reply developmentModeReply]).
Proof.
  apply (development_mode_gate development (sampleCommands allowed) sampleUtilities 1000
           (invocation "alice" "help") noCooldowns); [reflexivity|].
  vm_compute. intros H. inversion H as [|? ? ? H']. inversion H'.
Defined.

(** X15: an invocation outside a guild of a command that is for guilds only,
    by a user who passes the development-mode gate and is not on cooldown,
    is answered with an ephemeral rejection and nothing else: the command is
    not run and no cooldown is started. *)
Theorem guild_only_rejected config NameCommands util now interaction st foundCommand :
  passesGate config interaction →
  NameCommands !! commandName interaction = Some foundCommand →
  checkCooldownFor (cooldownRecord st (commandName interaction)) (user interaction) now ≤ 0 →
  guildOnly (commandInfo foundCommand) = true →
  guild interaction = None →
  slashCommandHandler config NameCommands util now interaction st
  = (st, [Reply guildOnlyReply]) ∧
  ephemeral guildOnlyReply = true.
Proof.
  intros Hgate Hfound Hcool Hguild Hnone. split; [|done].
  unfold slashCommandHandler. rewrite (gate_open _ _ Hgate), Hfound.
  cbn [ctx_user ctx_guild].
  replace (0 <? _) with false by (symmetry; apply Z.ltb_ge; exact Hcool).
  by rewrite Hguild, Hnone.
Qed.

Lemma guild_only_rejected_witness :
  let command :=
    {| commandInfo := {| botCommandName := "roles"; commandCooldown := 4000;
                         guildOnly := true |};
       hasPermissionToRun := λ _ _, allowed |} in
  slashCommandHandler production {[ "roles"%string := command ]} sampleUtilities 1000
    (invocation "alice" "roles") noCooldowns
  = (noCooldowns, [Reply guildOnlyReply]).
Proof.
  intros command.
  apply (guild_only_rejected production {[ "roles"%string := command ]} sampleUtilities 1000
           (invocation "alice" "roles") noCooldowns command).
  - by left.
  - reflexivity.
  - vm_compute. discriminate.
  - reflexivity.
  - reflexivity.
Defined.

(** X16: the handler runs a command exactly when the invocation reaches the
    permission check and the check allows the run.  It then runs the command
    that was invoked, once, in the context of the invocation, as the last
    thing it does, and replies nothing itself. *)
Theorem command_run_iff_permitted config NameCommands util now interaction st :
  let result := slashCommandHandler config NameCommands util now interaction st in
  ((∃ name ctx, Run name ctx ∈ result.2) ↔
   ∃ foundCommand,
     reachesPermissionCheck config NameCommands now interaction st foundCommand ∧
     canRun (hasPermissionToRun foundCommand (memberOf interaction) (guild interaction))
     = true) ∧
  (∀ name ctx, Run name ctx ∈ result.2 →
     name = commandName interaction ∧ ctx = contextOf interaction ∧
     last result.2 = Some (Run name ctx) ∧
     List.filter isRun result.2 = [Run name ctx] ∧
     List.filter isReply result.2 = []).
Proof.
  intros result.
  destruct (slashCommandHandler_cases config NameCommands util now interaction st)
    as [[Hgate Hres] | [(Hgate & Hnone & Hres) | [(cmd & Hgate & Hfound & Hcool & Hres)
       | [(cmd & Hgate & Hfound & Hcool & Hguild & Hg & Hres) | (cmd & Hreach & Hres)]]]];
    fold result in Hres; rewrite Hres; cbn [fst snd].
  - split.
    + split.
      * intros (name & ctx & Hin). apply list_elem_of_singleton in Hin. discriminate.
      * intros (cmd & (Hg & _) & _). done.
    + intros name ctx Hin. apply list_elem_of_singleton in Hin. discriminate.
  - split.
    + split.
      * intros (name & ctx & Hin). by apply elem_of_nil in Hin.
      * intros (cmd & (_ & Hfound & _) & _). congruence.
    + intros name ctx Hin. by apply elem_of_nil in Hin.
  - split.
    + split.
      * intros (name & ctx & Hin). apply list_elem_of_singleton in Hin. discriminate.
      * intros (cmd' & (_ & _ & Hle & _) & _). lia.
    + intros name ctx Hin. apply list_elem_of_singleton in Hin. discriminate.
  - split.
    + split.
      * intros (name & ctx & Hin). apply list_elem_of_singleton in Hin. discriminate.
      * intros (cmd' & (_ & Hfound' & _ & Hneed) & _).
        assert (cmd' = cmd) as -> by congruence.
        rewrite Hg in Hneed. by destruct (Hneed Hguild).
    + intros name ctx Hin. apply list_elem_of_singleton in Hin. discriminate.
  - unfold afterPermissionCheck. cbv zeta. cbn [fst snd].
    set (info := hasPermissionToRun cmd (memberOf interaction) (guild interaction)).
    set (exempt := includes (botOwnerIds config) (user_id (user interaction))
                   || hasAdmin info).
    set (calls := if exempt then []
                  else [AddToCooldown (commandName interaction) (user interaction)]).
    assert (Hcalls : ∀ e, e ∈ calls → isRun e = false ∧ isReply e = false).
    { subst calls. intros e He. destruct exempt.
      - by apply elem_of_nil in He.
      - by apply list_elem_of_singleton in He as ->. }
    assert (Hfilter : List.filter isRun calls = [] ∧ List.filter isReply calls = []).
    { subst calls. by destruct exempt. }
    destruct Hfilter as [Hruns Hreplies].
    destruct (canRun info) eqn:Hcan.
    + split.
      * split; [|intros _; eexists _, _; apply elem_of_app; right; apply list_elem_of_here].
        intros _. exists cmd. by split.
      * intros name ctx Hin. apply elem_of_app in Hin as [Hin | Hin].
        { by destruct (Hcalls _ Hin). }
        apply list_elem_of_singleton in Hin. injection Hin as -> ->.
        rewrite last_snoc, !List.filter_app, Hruns, Hreplies. done.
    + assert (Hno : ∀ name ctx,
                Run name ctx ∉ calls ++
                  [if truthy (reason info)
                   then Reply {| content := reason info; embeds := []; ephemeral := true |}
                   else Reply (noPermissionReply util (user interaction) info)]).
      { intros name ctx Hin. apply elem_of_app in Hin as [Hin | Hin].
        - by destruct (Hcalls _ Hin).
        - apply list_elem_of_singleton in Hin. by destruct (truthy (reason info)). }
      split.
      * split; [intros (name & ctx & Hin); by destruct (Hno name ctx)|].
        intros (cmd' & (_ & Hfound' & _) & Hcan').
        destruct Hreach as (_ & Hfound & _).
        assert (cmd' = cmd) as -> by congruence. fold info in Hcan'. congruence.
      * intros name ctx Hin. by destruct (Hno name ctx).
Qed.

Lemma command_run_iff_permitted_witness :
  ∃ name ctx,
    Run name ctx ∈ (slashCommandHandler production (sampleCommands allowed) sampleUtilities
                      1000 (invocation "alice" "help") noCooldowns).2.
Proof.
  apply (command_run_iff_permitted production (sampleCommands allowed) sampleUtilities 1000
           (invocation "alice" "help") noCooldowns).
  exists (sampleCommand allowed). split; [|reflexivity].
  split_and!; [by left | reflexivity | vm_compute; discriminate | intros [=]].
Defined.

(** X17: whatever the interaction, the handler replies or runs a command at
    most once and never does both, and calls [addToCooldown] at most once.
    An interaction that is no command does nothing.  The state changes in
    the cooldown of the invoking user for the invoked command at most: the
    cooldowns for other commands and of other users are as before. *)
Theorem onInteractionEvent_effects config NameCommands util now interaction st :
  let result := onInteractionEvent config NameCommands util now interaction st in
  (length (List.filter isReply result.2) + length (List.filter isRun result.2) ≤ 1)%nat ∧
  (length (List.filter isAddToCooldown result.2) ≤ 1)%nat ∧
  (interaction = NotCommand → result = (st, [])) ∧
  (∀ i name uid,
     interaction = IsCommand i →
     ¬ (name = commandName i ∧ uid = user_id (user i)) →
     cooldownRecord result.1 name !! uid = cooldownRecord st name !! uid).
Proof.
  intros result. destruct interaction as [i|]; cbn in result; subst result.
  2: { cbn. split_and!; try lia; try done. }
  assert (Hframe : ∀ st' : State,
            st' = st ∨ (∃ cmd, st' = withCooldown cmd now i st) →
            ∀ name uid, ¬ (name = commandName i ∧ uid = user_id (user i)) →
                        cooldownRecord st' name !! uid = cooldownRecord st name !! uid).
  { intros st' [-> | [cmd ->]] name uid Hne; [done|].
    rewrite cooldownRecord_withCooldown. by rewrite decide_False. }
  destruct (slashCommandHandler_cases config NameCommands util now i st)
    as [[Hgate Hres] | [(Hgate & Hnone & Hres) | [(cmd & Hgate & Hfound & Hcool & Hres)
       | [(cmd & Hgate & Hfound & Hcool & Hguild & Hg & Hres) | (cmd & Hreach & Hres)]]]];
    rewrite Hres; cbn [fst snd].
  1-4: cbn; split_and!; try lia; try done;
       intros i' name uid [= <-]; apply Hframe; by left.
  unfold afterPermissionCheck. cbn [fst snd].
  set (info := hasPermissionToRun cmd (memberOf i) (guild i)).
  split_and!.
  - destruct (_ || _), (canRun info), (truthy (reason info)); cbn; lia.
  - destruct (_ || _), (canRun info), (truthy (reason info)); cbn; lia.
  - done.
  - intros i' name uid [= <-]. apply Hframe.
    destruct (_ || _); [by left | right; by exists cmd].
Qed.

Lemma onInteractionEvent_effects_witness :
  onInteractionEvent production (sampleCommands allowed) sampleUtilities 1000 NotCommand
    (onCooldownUntil "alice" 5000)
  = (onCooldownUntil "alice" 5000, []).
Proof.
  apply (onInteractionEvent_effects production (sampleCommands allowed) sampleUtilities 1000
           NotCommand (onCooldownUntil "alice" 5000)).
  reflexivity.
Defined.

(** X18: the cooldown that an invocation starts.  After an invocation that
    reached the permission check, by a user who is no owner and has no admin
    rights, the same user invoking the same command before the command's
    cooldown is over is answered with the time that is left, and nothing
    else happens; from the end of the cooldown on, the invocation reaches
    the permission check again. *)
Theorem cooldown_round_trip config NameCommands util now interaction st foundCommand :
  reachesPermissionCheck config NameCommands now interaction st foundCommand →
  user_id (user interaction) ∉ botOwnerIds config →
  hasAdmin (hasPermissionToRun foundCommand (memberOf interaction) (guild interaction))
  = false →
  let st' := (slashCommandHandler config NameCommands util now interaction st).1 in
  let over := now + commandCooldown (commandInfo foundCommand) in
  ∀ later,
    (later < over →
     slashCommandHandler config NameCommands util later interaction st'
     = (st', [Reply (cooldownReply util (over - later))])) ∧
    (over ≤ later →
     reachesPermissionCheck config NameCommands later interaction st' foundCommand).
Proof.
  intros Hreach Howner Hadmin st' over later.
  assert (Hst' : st' = withCooldown foundCommand now interaction st).
  { subst st'. rewrite (slashCommandHandler_permission_step _ _ _ _ _ _ _ Hreach).
    unfold afterPermissionCheck. cbn [fst]. rewrite Hadmin. unfold includes.
    by rewrite bool_decide_eq_false_2. }
  destruct Hreach as (Hgate & Hfound & Hcool & Hguild).
  assert (Hleft : checkCooldownFor (cooldownRecord st' (commandName interaction))
                    (user interaction) later = over - later).
  { unfold checkCooldownFor. rewrite Hst', cooldownRecord_withCooldown.
    by rewrite decide_True. }
  split.
  - intros Hlater. unfold slashCommandHandler.
    rewrite (gate_open _ _ Hgate), Hfound. cbn [ctx_user]. rewrite Hleft.
    by rewrite (proj2 (Z.ltb_lt 0 (over - later))) by lia.
  - intros Hlater. split_and!; try done. rewrite Hleft. lia.
Qed.

Lemma cooldown_round_trip_witness :
  let st' := (slashCommandHandler production (sampleCommands allowed) sampleUtilities 1000
                (invocation "alice" "help") noCooldowns).1 in
  slashCommandHandler production (sampleCommands allowed) sampleUtilities 3000
    (invocation "alice" "help") st'
  = (st', [Reply (cooldownReply sampleUtilities 2000)]).
Proof.
  intros st'.
  refine (proj1 (cooldown_round_trip production (sampleCommands allowed) sampleUtilities 1000
                   (invocation "alice" "help") noCooldowns (sampleCommand allowed)
                   _ _ _ 3000) _).
  - split_and!; [by left | reflexivity | vm_compute; discriminate | intros [=]].
  - vm_compute. intros H. inversion H as [|? ? ? H']. inversion H'.
  - reflexivity.
  - reflexivity.
Defined.

(** X19: when the permission check denies the run and gives a reason that is
    not the empty string, the handler's last act is an ephemeral reply with
    that reason and no embed.  An empty reason counts as no reason: the
    reply is then the message about missing permissions. *)
Theorem denial_reason_reply config NameCommands util now interaction st foundCommand r :
  reachesPermissionCheck config NameCommands now interaction st foundCommand →
  let info := hasPermissionToRun foundCommand (memberOf interaction) (guild interaction) in
  canRun info = false →
  reason info = Some r →
  last (slashCommandHandler config NameCommands util now interaction st).2
  = Some (Reply (if decide (r = ""%string)
                 then noPermissionReply util (user interaction) info
                 else {| content := Some r; embeds := []; ephemeral := true |})).
Proof.
  intros Hreach info Hcan Hreason.
  rewrite (slashCommandHandler_permission_step _ _ _ _ _ _ _ Hreach).
  unfold afterPermissionCheck. fold info. cbn [snd]. rewrite last_snoc, Hcan, Hreason.
  unfold truthy. destruct (decide (r = ""%string)) as [-> | Hr].
  - done.
  - by rewrite (proj2 (String.eqb_neq r "")).
Qed.

Lemma denial_reason_reply_witness :
  let info := {| canRun := false; hasAdmin := false; missingUserPerms := [];
                 missingBotPerms := []; reason := Some "Owners only."%string |} in
  last (slashCommandHandler production (sampleCommands info) sampleUtilities 1000
          (invocation "alice" "help") noCooldowns).2
  = Some (Reply {| content := Some "Owners only."%string; embeds := []; ephemeral := true |}).
Proof.
  intros info.
  apply (denial_reason_reply production (sampleCommands info) sampleUtilities 1000
           (invocation "alice" "help") noCooldowns (sampleCommand info) "Owners only.").
  - split_and!; [by left | reflexivity | vm_compute; discriminate | intros [=]].
  - reflexivity.
  - reflexivity.
Defined.

End InteractionEventSpec.
